(** * YTDB: a red-black tree keyed by byte sequences (src/main.cpp)

    The C++ program stores nodes on the free store and links them with raw
    [left], [right] and [parent] pointers.  The embedding keeps that shape: a
    heap of node records addressed by natural numbers, pointers as
    [option nat] with [None] for [nullptr], and every member function of
    [RedBlackTree] as a function on the heap and the [root] field.
    Dereferencing a null or dangling pointer is undefined behaviour in C++ and
    is the explicit outcome [Fault] here; loops carry a fuel argument and
    report [OutOfFuel] when it is used up. *)

From Stdlib Require Import ZArith Lia List Strings.Byte.
From stdpp Require Import base list relations sorting.

Local Open Scope Z_scope.

(** * Part I. The program (src/main.cpp) *)

(** ** Machine integers *)

(** Conversion of a [size_t] value to [int] (32 bits, two's complement). *)
Definition to_int (z : Z) : Z := (z + 2 ^ 31) mod 2 ^ 32 - 2 ^ 31.

(** [std::vector::size]. *)
Definition size (a : list byte) : Z := Z.of_nat (length a).

(** [a[i]] for [std::vector<uint8_t>].  The loop of [compare_keys] reads
    below [min_len], which never exceeds the smaller size (lemma
    [to_int_le]), so the default of [nth] is never returned. *)
Definition at_index (a : list byte) (i : Z) : byte := nth (Z.to_nat i) a x00.

(** [<] on [uint8_t] values. *)
Definition byte_lt (x y : byte) : bool := (Byte.to_N x <? Byte.to_N y)%N.

(** ** compare_keys (main.cpp, lines 23-40) *)

(** The [for] loop; [Some r] is a [return r] from inside the loop, [None] is
    the loop running to its end. *)
Fixpoint compare_loop (fuel : nat) (i min_len : Z) (a b : list byte) : option Z :=
  match fuel with
  | O => None
  | S fuel' =>
      if i <? min_len then
        if byte_lt (at_index a i) (at_index b i) then Some (-1)
        else if byte_lt (at_index b i) (at_index a i) then Some 1
        else compare_loop fuel' (i + 1) min_len a b
      else None
  end.

Definition compare_keys (a b : list byte) : Z :=
  let min_len := to_int (if size a <? size b then size a else size b) in
  match compare_loop (Z.to_nat min_len) 0 min_len a b with
  | Some r => r
  | None =>
      if size a <? size b then -1
      else if size b <? size a then 1
      else 0
  end.

(** ** The heap and the tree object *)

Definition ptr : Type := option nat.

Record Node : Type := mkNode {
  key : list byte;
  value : list byte;
  left : ptr;
  right : ptr;
  parent : ptr;
  is_red : bool
}.

(** The free store together with the [root] member of [RedBlackTree].
    [new Node] appends to [heap]; nothing is freed before the destructor. *)
Record State : Type := mkState {
  heap : list Node;
  root : ptr
}.

Inductive result (A : Type) : Type :=
| Ok (a : A)
| Fault
| OutOfFuel.
Arguments Ok {A} a.
Arguments Fault {A}.
Arguments OutOfFuel {A}.

Definition bind {A B : Type} (m : result A) (k : A -> result B) : result B :=
  match m with
  | Ok a => k a
  | Fault => Fault
  | OutOfFuel => OutOfFuel
  end.

Notation "'let*' x := e 'in' k" := (bind e (fun x => k))
  (at level 10, x name, e at level 200, k at level 200, only parsing).

Definition ptr_eqb (p q : ptr) : bool :=
  match p, q with
  | None, None => true
  | Some a, Some b => Nat.eqb a b
  | _, _ => false
  end.

Definition is_null (p : ptr) : bool :=
  match p with None => true | Some _ => false end.

(** [*p] *)
Definition load (s : State) (p : ptr) : result Node :=
  match p with
  | None => Fault
  | Some a => match heap s !! a with Some n => Ok n | None => Fault end
  end.

(** [*p = f( *p )] *)
Definition store (s : State) (p : ptr) (f : Node -> Node) : result State :=
  match p with
  | None => Fault
  | Some a =>
      match heap s !! a with
      | Some n => Ok (mkState (<[a := f n]> (heap s)) (root s))
      | None => Fault
      end
  end.

Definition with_value (v : list byte) (n : Node) : Node :=
  mkNode (key n) v (left n) (right n) (parent n) (is_red n).
Definition with_left (p : ptr) (n : Node) : Node :=
  mkNode (key n) (value n) p (right n) (parent n) (is_red n).
Definition with_right (p : ptr) (n : Node) : Node :=
  mkNode (key n) (value n) (left n) p (parent n) (is_red n).
Definition with_parent (p : ptr) (n : Node) : Node :=
  mkNode (key n) (value n) (left n) (right n) p (is_red n).
Definition with_is_red (c : bool) (n : Node) : Node :=
  mkNode (key n) (value n) (left n) (right n) (parent n) c.

Definition get_key (s : State) (p : ptr) : result (list byte) :=
  let* n := load s p in Ok (key n).
Definition get_value (s : State) (p : ptr) : result (list byte) :=
  let* n := load s p in Ok (value n).
Definition get_left (s : State) (p : ptr) : result ptr :=
  let* n := load s p in Ok (left n).
Definition get_right (s : State) (p : ptr) : result ptr :=
  let* n := load s p in Ok (right n).
Definition get_parent (s : State) (p : ptr) : result ptr :=
  let* n := load s p in Ok (parent n).
Definition get_is_red (s : State) (p : ptr) : result bool :=
  let* n := load s p in Ok (is_red n).

Definition set_value (s : State) (p : ptr) (v : list byte) : result State :=
  store s p (with_value v).
Definition set_left (s : State) (p q : ptr) : result State :=
  store s p (with_left q).
Definition set_right (s : State) (p q : ptr) : result State :=
  store s p (with_right q).
Definition set_parent (s : State) (p q : ptr) : result State :=
  store s p (with_parent q).
Definition set_is_red (s : State) (p : ptr) (c : bool) : result State :=
  store s p (with_is_red c).
Definition set_root (s : State) (p : ptr) : State :=
  mkState (heap s) p.

(** [new Node(k, v)]: the constructor leaves the three links null and the
    colour red. *)
Definition new_Node (s : State) (k v : list byte) : State * ptr :=
  (mkState (heap s ++ [mkNode k v None None None true]) (root s),
   Some (length (heap s))).

(** [RedBlackTree()] on an empty free store. *)
Definition empty_tree : State := mkState [] None.

(** ** find_node (lines 46-59) *)

Fixpoint find_node (fuel : nat) (s : State) (node : ptr) (k : list byte)
  : result ptr :=
  match node with
  | None => Ok None
  | Some _ =>
      match fuel with
      | O => OutOfFuel
      | S fuel' =>
          let* nk := get_key s node in
          let cmp := compare_keys k nk in
          if cmp =? 0 then Ok node
          else if cmp <? 0 then
            let* l := get_left s node in find_node fuel' s l k
          else
            let* r := get_right s node in find_node fuel' s r k
      end
  end.

(** ** rotate_left, rotate_right (lines 61-95) *)

Definition rotate_left (s : State) (node : ptr) : result State :=
  let* right_child := get_right s node in
  let* rcl := get_left s right_child in
  let* s := set_right s node rcl in
  let* rcl := get_left s right_child in
  let* s := (if is_null rcl then Ok s else set_parent s rcl node) in
  let* np := get_parent s node in
  let* s := set_parent s right_child np in
  let* np := get_parent s node in
  let* s := (if is_null np then Ok (set_root s right_child)
        else
          let* npl := get_left s np in
          if ptr_eqb node npl then set_left s np right_child
          else set_right s np right_child) in
  let* s := set_left s right_child node in
  set_parent s node right_child.

Definition rotate_right (s : State) (node : ptr) : result State :=
  let* left_child := get_left s node in
  let* lcr := get_right s left_child in
  let* s := set_left s node lcr in
  let* lcr := get_right s left_child in
  let* s := (if is_null lcr then Ok s else set_parent s lcr node) in
  let* np := get_parent s node in
  let* s := set_parent s left_child np in
  let* np := get_parent s node in
  let* s := (if is_null np then Ok (set_root s left_child)
        else
          let* npr := get_right s np in
          if ptr_eqb node npr then set_right s np left_child
          else set_left s np left_child) in
  let* s := set_right s left_child node in
  set_parent s node left_child.

(** ** fix_insert (lines 97-134) *)

(** The loop test [node->parent != nullptr && node->parent->is_red]. *)
Definition fix_insert_cond (s : State) (node : ptr) : result bool :=
  let* p := get_parent s node in
  if is_null p then Ok false else get_is_red s p.

(** [node->parent->parent] *)
Definition get_grandparent (s : State) (node : ptr) : result ptr :=
  let* p := get_parent s node in get_parent s p.

(** [uncle != nullptr && uncle->is_red] *)
Definition uncle_is_red (s : State) (uncle : ptr) : result bool :=
  if is_null uncle then Ok false else get_is_red s uncle.

(** One pass through the loop body; the result is the state and the value of
    the local variable [node] at the end of the pass. *)
Definition fix_insert_body (s : State) (node : ptr) : result (State * ptr) :=
  let* p := get_parent s node in
  let* g := get_grandparent s node in
  let* gl := get_left s g in
  if ptr_eqb p gl then
    let* g := get_grandparent s node in
    let* uncle := get_right s g in
    let* red := uncle_is_red s uncle in
    if red then
      let* p := get_parent s node in
      let* s := set_is_red s p false in
      let* s := set_is_red s uncle false in
      let* g := get_grandparent s node in
      let* s := set_is_red s g true in
      let* g := get_grandparent s node in
      Ok (s, g)
    else
      let* p := get_parent s node in
      let* pr := get_right s p in
      let* sn := (if ptr_eqb node pr then
                    let* p := get_parent s node in
                    let* s := rotate_left s p in
                    Ok (s, p)
                  else Ok (s, node)) in
      let s := fst sn in
      let node := snd sn in
      let* p := get_parent s node in
      let* s := set_is_red s p false in
      let* g := get_grandparent s node in
      let* s := set_is_red s g true in
      let* g := get_grandparent s node in
      let* s := rotate_right s g in
      Ok (s, node)
  else
    let* g := get_grandparent s node in
    let* uncle := get_left s g in
    let* red := uncle_is_red s uncle in
    if red then
      let* p := get_parent s node in
      let* s := set_is_red s p false in
      let* s := set_is_red s uncle false in
      let* g := get_grandparent s node in
      let* s := set_is_red s g true in
      let* g := get_grandparent s node in
      Ok (s, g)
    else
      let* p := get_parent s node in
      let* pl := get_left s p in
      let* sn := (if ptr_eqb node pl then
                    let* p := get_parent s node in
                    let* s := rotate_right s p in
                    Ok (s, p)
                  else Ok (s, node)) in
      let s := fst sn in
      let node := snd sn in
      let* p := get_parent s node in
      let* s := set_is_red s p false in
      let* g := get_grandparent s node in
      let* s := set_is_red s g true in
      let* g := get_grandparent s node in
      let* s := rotate_left s g in
      Ok (s, node).

Fixpoint fix_insert_loop (fuel : nat) (s : State) (node : ptr) : result State :=
  match fuel with
  | O => OutOfFuel
  | S fuel' =>
      let* c := fix_insert_cond s node in
      if c then
        let* sn := fix_insert_body s node in
        fix_insert_loop fuel' (fst sn) (snd sn)
      else Ok s
  end.

Definition fix_insert (fuel : nat) (s : State) (node : ptr) : result State :=
  let* s := fix_insert_loop fuel s node in
  set_is_red s (root s) false.

(** ** put (lines 152-190) *)

(** Outcome of the descent loop of [put]: either it returned from inside the
    loop after overwriting a value, or it ended with [current == nullptr] and
    the last node visited in [parent]. *)
Inductive descent : Type :=
| Replaced (s : State)
| Slot (parent : ptr).

Fixpoint put_descend (fuel : nat) (s : State) (k v : list byte)
    (parent current : ptr) : result descent :=
  match current with
  | None => Ok (Slot parent)
  | Some _ =>
      match fuel with
      | O => OutOfFuel
      | S fuel' =>
          let parent := current in
          let* ck := get_key s current in
          let cmp := compare_keys k ck in
          if cmp =? 0 then
            let* s := set_value s current v in Ok (Replaced s)
          else if cmp <? 0 then
            let* l := get_left s current in put_descend fuel' s k v parent l
          else
            let* r := get_right s current in put_descend fuel' s k v parent r
      end
  end.

(** Lines 177-187: allocate the node and link it below [parent]. *)
Definition put_attach (s : State) (k v : list byte) (parent : ptr)
  : result (State * ptr) :=
  let new_node := snd (new_Node s k v) in
  let s := fst (new_Node s k v) in
  let* s := set_parent s new_node parent in
  let* s := (if is_null parent then Ok s
             else
               let* pk := get_key s parent in
               let cmp := compare_keys k pk in
               if cmp <? 0 then set_left s parent new_node
               else set_right s parent new_node) in
  Ok (s, new_node).

Definition put (fuel : nat) (k v : list byte) (s : State) : result State :=
  if is_null (root s) then
    let new_node := snd (new_Node s k v) in
    let s := set_root (fst (new_Node s k v)) new_node in
    set_is_red s (root s) false
  else
    let* d := put_descend fuel s k v None (root s) in
    match d with
    | Replaced s => Ok s
    | Slot parent =>
        let* sn := put_attach s k v parent in
        fix_insert fuel (fst sn) (snd sn)
    end.

(** ** get (lines 192-199) *)

(** [out_value] is passed by reference: the result carries the returned flag
    and the contents of [out_value] after the call.  The member function is
    [const] and only reads the heap, so no state is returned. *)
Definition get (fuel : nat) (k out_value : list byte) (s : State)
  : result (bool * list byte) :=
  let* node := find_node fuel s (root s) k in
  if is_null node then Ok (false, out_value)
  else
    let* v := get_value s node in
    Ok (true, v).

(** ** delete_tree and the destructor (lines 136-150) *)

(** While the tree is destroyed the free store is the heap of the state
    together with the addresses already passed to [delete], in the order of
    the calls.  Reading through a pointer to a deleted node and deleting a
    node twice are undefined behaviour, the outcome [Fault]. *)
Definition load_live (s : State) (freed : list nat) (p : ptr) : result Node :=
  match p with
  | None => Fault
  | Some a => if bool_decide (a ∈ freed) then Fault else load s p
  end.

(** [delete p]; deleting a null pointer has no effect. *)
Definition delete_Node (s : State) (freed : list nat) (p : ptr)
  : result (list nat) :=
  match p with
  | None => Ok freed
  | Some a => let* _ := load_live s freed p in Ok (freed ++ [a])
  end.

(** The fuel bounds the depth of the recursion. *)
Fixpoint delete_tree (fuel : nat) (s : State) (freed : list nat) (node : ptr)
  : result (list nat) :=
  match node with
  | None => Ok freed
  | Some _ =>
      match fuel with
      | O => OutOfFuel
      | S fuel' =>
          let* n := load_live s freed node in
          let* freed := delete_tree fuel' s freed (left n) in
          let* n := load_live s freed node in
          let* freed := delete_tree fuel' s freed (right n) in
          delete_Node s freed node
      end
  end.

(** [~RedBlackTree()]: the addresses deleted, in the order of the calls. *)
Definition destroy (fuel : nat) (s : State) : result (list nat) :=
  delete_tree fuel s [] (root s).

(** ** ConcurrentRedBlackTree (lines 202-219) *)

(** [std::shared_mutex] as one calling thread finds it: free, held in shared
    mode by [others + 1] threads, or held exclusively.  A call that has to
    wait does not return as long as no other thread runs, the outcome
    [OutOfFuel]; releasing a mutex that is not held in that mode is undefined
    behaviour. *)
Inductive shared_mutex : Type :=
| Free
| Shared (others : nat)
| Exclusive.

Definition lock (m : shared_mutex) : result shared_mutex :=
  match m with Free => Ok Exclusive | _ => OutOfFuel end.

Definition unlock (m : shared_mutex) : result shared_mutex :=
  match m with Exclusive => Ok Free | _ => Fault end.

Definition lock_shared (m : shared_mutex) : result shared_mutex :=
  match m with
  | Free => Ok (Shared 0)
  | Shared n => Ok (Shared (S n))
  | Exclusive => OutOfFuel
  end.

Definition unlock_shared (m : shared_mutex) : result shared_mutex :=
  match m with
  | Shared O => Ok Free
  | Shared (S n) => Ok (Shared n)
  | _ => Fault
  end.

(** The member [tree] is [inner_tree] here, [tree] being the type of
    abstract trees below. *)
Record ConcurrentRedBlackTree : Type := mkConcurrent {
  inner_tree : State;
  mutex : shared_mutex
}.

(** [ConcurrentRedBlackTree() = default] *)
Definition concurrent_empty : ConcurrentRedBlackTree :=
  mkConcurrent empty_tree Free.

(** [std::unique_lock lock(mutex)] locks in its constructor and unlocks when
    the function returns. *)
Definition concurrent_put (fuel : nat) (k v : list byte)
    (c : ConcurrentRedBlackTree) : result ConcurrentRedBlackTree :=
  let* m := lock (mutex c) in
  let* t := put fuel k v (inner_tree c) in
  let* m := unlock m in
  Ok (mkConcurrent t m).

(** [std::shared_lock lock(mutex)]; the mutex is [mutable], so the [const]
    member function returns its state beside the result of [get]. *)
Definition concurrent_get (fuel : nat) (k out_value : list byte)
    (c : ConcurrentRedBlackTree)
  : result (bool * list byte * shared_mutex) :=
  let* m := lock_shared (mutex c) in
  let* r := get fuel k out_value (inner_tree c) in
  let* m := unlock_shared m in
  Ok (r, m).

(** ** The keys and calls of the test programs (lines 221-323) *)

(** [static_cast<uint8_t>(z)] *)
Definition to_uint8 (z : Z) : byte :=
  match Byte.of_N (Z.to_N (z mod 256)) with Some b => b | None => x00 end.

(** test_concurrent_reads, lines 282-288 and 301-304: key and value for the
    index [i]. *)
Definition read_key (i : Z) : list byte :=
  [to_uint8 (Z.shiftr i 8); to_uint8 (Z.land i 255)].

Definition read_value (i : Z) : list byte := [to_uint8 i].

(** Lines 281-290: the loop that fills the tree before the readers start. *)
Definition prepopulate (fuel : nat) (num_keys : nat)
    (c : ConcurrentRedBlackTree) : result ConcurrentRedBlackTree :=
  fold_left
    (fun r i =>
       let* c := r in
       concurrent_put fuel (read_key (Z.of_nat i)) (read_value (Z.of_nat i)) c)
    (seq 0 num_keys) (Ok c).

(** Line 300: [(t * 7919 + i * 31) % num_keys] on non-negative [int]s
    whose sum stays below 2^31; beyond that the [int] arithmetic
    overflows, which is undefined behaviour. *)
Definition reader_index (num_keys : nat) (t i : Z) : Z :=
  Z.rem (t * 7919 + i * 31) (Z.of_nat num_keys).

(** test_concurrent_writes, lines 234-241: key and value of operation [i] of
    thread [t]. *)
Definition write_key (t i : Z) : list byte :=
  [to_uint8 t; to_uint8 (Z.shiftr i 8); to_uint8 (Z.land i 255)].

Definition write_value (t i : Z) : list byte := [to_uint8 (t * 100 + i)].

(** Lines 233-243: the calls of [put] made by thread [t], in its order. *)
Definition writer_calls (ops_per_thread : nat) (t : nat)
  : list (list byte * list byte) :=
  map (fun i => (write_key (Z.of_nat t) (Z.of_nat i),
                 write_value (Z.of_nat t) (Z.of_nat i)))
    (seq 0 ops_per_thread).

(** The calls of all writer threads. *)
Definition all_writes (num_threads ops_per_thread : nat)
  : list (list byte * list byte) :=
  seq 0 num_threads ≫= writer_calls ops_per_thread.

(** * Part II. Abstract trees, invariants and reference definitions *)

(** ** Abstract trees

    The heap reachable from [root] is described by a binary tree that records,
    for every node, its address, colour, key and value.  A position inside the
    tree (the local variable [node] of [fix_insert], [current] of [put]) is a
    subtree together with the list of frames leading from it up to the root. *)

Inductive tree : Type :=
| E
| T (a : nat) (c : bool) (l : tree) (k v : list byte) (r : tree).

Inductive frame : Type :=
| InLeft (a : nat) (c : bool) (k v : list byte) (r : tree)
| InRight (a : nat) (c : bool) (l : tree) (k v : list byte).

Definition ptr_of (t : tree) : ptr :=
  match t with E => None | T a _ _ _ _ _ => Some a end.

Fixpoint addrs (t : tree) : list nat :=
  match t with
  | E => []
  | T a _ l _ _ r => addrs l ++ a :: addrs r
  end.

Definition frame_addr (f : frame) : nat :=
  match f with InLeft a _ _ _ _ => a | InRight a _ _ _ _ => a end.

Definition frame_red (f : frame) : bool :=
  match f with InLeft _ c _ _ _ => c | InRight _ c _ _ _ => c end.

Definition frame_addrs (f : frame) : list nat :=
  match f with
  | InLeft a _ _ _ r => a :: addrs r
  | InRight a _ l _ _ => a :: addrs l
  end.

Fixpoint ctx_addrs (ctx : list frame) : list nat :=
  match ctx with
  | [] => []
  | f :: ctx' => frame_addrs f ++ ctx_addrs ctx'
  end.

Definition fill (f : frame) (t : tree) : tree :=
  match f with
  | InLeft a c k v r => T a c t k v r
  | InRight a c l k v => T a c l k v t
  end.

Fixpoint plug (t : tree) (ctx : list frame) : tree :=
  match ctx with
  | [] => t
  | f :: ctx' => plug (fill f t) ctx'
  end.

Definition ctx_ptr (ctx : list frame) : ptr :=
  match ctx with [] => None | f :: _ => Some (frame_addr f) end.

Fixpoint top_ptr (hole : ptr) (ctx : list frame) : ptr :=
  match ctx with
  | [] => hole
  | f :: ctx' => top_ptr (Some (frame_addr f)) ctx'
  end.

(** [rep h par t]: the heap holds the tree [t] below a node (or root slot)
    [par]. *)
Fixpoint rep (h : list Node) (par : ptr) (t : tree) : Prop :=
  match t with
  | E => True
  | T a c l k v r =>
      h !! a = Some (mkNode k v (ptr_of l) (ptr_of r) par c)
      /\ rep h (Some a) l /\ rep h (Some a) r
  end.

(** [rep_ctx h hole ctx]: the heap holds the frames [ctx], the innermost one
    pointing to [hole]. *)
Fixpoint rep_ctx (h : list Node) (hole : ptr) (ctx : list frame) : Prop :=
  match ctx with
  | [] => True
  | InLeft a c k v r :: ctx' =>
      h !! a = Some (mkNode k v hole (ptr_of r) (ctx_ptr ctx') c)
      /\ rep h (Some a) r /\ rep_ctx h (Some a) ctx'
  | InRight a c l k v :: ctx' =>
      h !! a = Some (mkNode k v (ptr_of l) hole (ctx_ptr ctx') c)
      /\ rep h (Some a) l /\ rep_ctx h (Some a) ctx'
  end.

(** The state [s] holds the tree [plug t ctx], seen from the subtree [t]. *)
Definition repz (s : State) (t : tree) (ctx : list frame) : Prop :=
  rep (heap s) (ctx_ptr ctx) t
  /\ rep_ctx (heap s) (ptr_of t) ctx
  /\ root s = top_ptr (ptr_of t) ctx
  /\ NoDup (addrs t ++ ctx_addrs ctx).

(** Separation facts.  A [NoDup] hypothesis over [++] and [::] is broken
    into atomic facts [a <> b], [a ∉ addrs t] and disjointness of opaque
    lists. *)
Definition disjoint (l1 l2 : list nat) : Prop := forall z, z ∈ l1 -> z ∉ l2.

(** ** One pass of the insertion fixup on abstract trees *)

Definition red_root (t : tree) : bool :=
  match t with E => false | T _ c _ _ _ _ => c end.

Definition blacken (t : tree) : tree :=
  match t with E => E | T a _ l k v r => T a false l k v r end.

Definition set_frame_red (f : frame) (c : bool) : frame :=
  match f with
  | InLeft a _ k v r => InLeft a c k v r
  | InRight a _ l k v => InRight a c l k v
  end.

(** The loop test, for a node whose ancestors are [ctx]. *)
Definition fix_cond (ctx : list frame) : bool :=
  match ctx with [] => false | f :: _ => frame_red f end.

(** One pass through the loop body for the node at the root of [t]; [None]
    where the body dereferences a null grandparent. *)
Definition fix_body (t : tree) (ctx : list frame)
  : option (tree * list frame) :=
  match t with
  | E => None
  | T n cn l kn vn r =>
      match ctx with
      | f :: InLeft g cg kg vg u :: ctx' =>
          if red_root u then
            Some (T g true (fill (set_frame_red f false) t) kg vg (blacken u),
                  ctx')
          else
            match f with
            | InRight p cp pl kp vp =>
                Some (T p cp pl kp vp l,
                      InLeft n false kn vn (T g true r kg vg u) :: ctx')
            | InLeft p cp kp vp pr =>
                Some (t, InLeft p false kp vp (T g true pr kg vg u) :: ctx')
            end
      | f :: InRight g cg u kg vg :: ctx' =>
          if red_root u then
            Some (T g true (blacken u) kg vg (fill (set_frame_red f false) t),
                  ctx')
          else
            match f with
            | InLeft p cp kp vp pr =>
                Some (T p cp r kp vp pr,
                      InRight n false (T g true u kg vg l) kn vn :: ctx')
            | InRight p cp pl kp vp =>
                Some (t, InRight p false (T g true u kg vg pl) kp vp :: ctx')
            end
      | _ => None
      end
  end.

(** ** Descent and lookup *)

Fixpoint height (t : tree) : nat :=
  match t with
  | E => O
  | T _ _ l _ _ r => S (Nat.max (height l) (height r))
  end.

(** The descent of [put] and [find_node] from the root of [t], whose
    ancestors are [ctx]: it ends at a node whose key compares equal to [k],
    or at an empty position. *)
Fixpoint descend (k : list byte) (t : tree) (ctx : list frame)
  : tree * list frame :=
  match t with
  | E => (E, ctx)
  | T a c l kx vx r =>
      let cmp := compare_keys k kx in
      if cmp =? 0 then (t, ctx)
      else if cmp <? 0 then descend k l (InLeft a c kx vx r :: ctx)
      else descend k r (InRight a c l kx vx :: ctx)
  end.

(** What [find_node] returns on the tree [t]: address and value of the node
    it stops at. *)
Fixpoint lookup_tree (k : list byte) (t : tree) : option (nat * list byte) :=
  match t with
  | E => None
  | T a c l kx vx r =>
      let cmp := compare_keys k kx in
      if cmp =? 0 then Some (a, vx)
      else if cmp <? 0 then lookup_tree k l
      else lookup_tree k r
  end.

(** The frame was entered by the descent for key [k]. *)
Definition frame_on_path (k : list byte) (f : frame) : Prop :=
  match f with
  | InLeft _ _ kx _ _ =>
      (compare_keys k kx =? 0) = false /\ (compare_keys k kx <? 0) = true
  | InRight _ _ _ kx _ =>
      (compare_keys k kx =? 0) = false /\ (compare_keys k kx <? 0) = false
  end.

Definition on_path (k : list byte) (ctx : list frame) : Prop :=
  Forall (frame_on_path k) ctx.

(** ** The fixup loop on abstract trees *)

Fixpoint fix_loop (fuel : nat) (t : tree) (ctx : list frame)
  : option (tree * list frame) :=
  match fuel with
  | O => None
  | S fuel' =>
      if fix_cond ctx then
        match fix_body t ctx with
        | Some (t', ctx') => fix_loop fuel' t' ctx'
        | None => None
        end
      else Some (t, ctx)
  end.

(** ** Insertion on abstract trees *)

(** [put] on the tree [t]; [new] is the address [new Node] returns. *)
Definition insert_tree (fuel : nat) (new : nat) (k v : list byte) (t : tree)
  : option tree :=
  match t with
  | E => Some (T new false E k v E)
  | T _ _ _ _ _ _ =>
      match descend k t [] with
      | (T a c l kx _ r, ctx) => Some (plug (T a c l kx v r) ctx)
      | (E, ctx) =>
          match fix_loop fuel (T new true E k v E) ctx with
          | Some (t', ctx') => Some (blacken (plug t' ctx'))
          | None => None
          end
      end
  end.

(** ** Red-black invariants *)

(** No red node has a red child. *)
Fixpoint no_red_red (t : tree) : Prop :=
  match t with
  | E => True
  | T _ c l _ _ r =>
      (c = true -> red_root l = false /\ red_root r = false)
      /\ no_red_red l /\ no_red_red r
  end.

(** Every path from the root of [t] to an empty position passes through [n]
    black nodes. *)
Fixpoint has_bh (t : tree) (n : nat) : Prop :=
  match t with
  | E => n = O
  | T _ c l _ _ r =>
      if c then has_bh l n /\ has_bh r n
      else match n with
           | O => False
           | S m => has_bh l m /\ has_bh r m
           end
  end.

Definition red_black (t : tree) : Prop :=
  red_root t = false /\ no_red_red t /\ exists n, has_bh t n.

Definition sibling (f : frame) : tree :=
  match f with InLeft _ _ _ _ r => r | InRight _ _ l _ _ => l end.

(** The colour of the root of [plug t ctx], [c] being the colour of [t]. *)
Fixpoint top_red (c : bool) (ctx : list frame) : bool :=
  match ctx with
  | [] => c
  | f :: ctx' => top_red (frame_red f) ctx'
  end.

Fixpoint ctx_no_red_red (ctx : list frame) : Prop :=
  match ctx with
  | [] => True
  | f :: ctx' =>
      no_red_red (sibling f)
      /\ (frame_red f = true ->
          red_root (sibling f) = false /\ fix_cond ctx' = false)
      /\ ctx_no_red_red ctx'
  end.

(** With [n] black nodes on every path below the hole, all paths of the
    plugged tree are balanced. *)
Fixpoint ctx_bh (ctx : list frame) (n : nat) : Prop :=
  match ctx with
  | [] => True
  | f :: ctx' =>
      has_bh (sibling f) n
      /\ ctx_bh ctx' (if frame_red f then n else S n)
  end.

(** The invariant of the descent: the tree [plug t ctx] is a red-black
    tree. *)
Definition zip_inv (t : tree) (ctx : list frame) : Prop :=
  no_red_red t /\ ctx_no_red_red ctx
  /\ (fix_cond ctx = true -> red_root t = false)
  /\ top_red (red_root t) ctx = false
  /\ exists n, has_bh t n /\ ctx_bh ctx n.

(** The invariant of the loop of [fix_insert]: the node is red, and the only
    possible violation is that its parent is red too (or that it is the
    root). *)
Definition loop_inv (t : tree) (ctx : list frame) : Prop :=
  red_root t = true /\ no_red_red t /\ ctx_no_red_red ctx
  /\ top_red false ctx = false
  /\ exists n, has_bh t n /\ ctx_bh ctx n.

(** ** States *)

(** The state holds the tree [t]. *)
Definition represents (s : State) (t : tree) : Prop := repz s t [].

(** A well-formed state: the heap below [root] is a red-black tree. *)
Definition wf (s : State) : Prop :=
  exists t, represents s t /\ red_black t.

(** States produced from the empty tree by calls of [put] that returned. *)
Inductive reachable : State -> Prop :=
| reachable_empty : reachable empty_tree
| reachable_put s fuel k v s' :
    reachable s -> put fuel k v s = Ok s' -> reachable s'.

(** ** The loop of fix_insert on the heap *)

(** One iteration of the loop: the test succeeds and the body runs. *)
Definition fix_iter (x y : State * ptr) : Prop :=
  fix_insert_cond (fst x) (snd x) = Ok true
  /\ fix_insert_body (fst x) (snd x) = Ok y.

(** [put] reaches its call [fix_insert(new_node)] in state [s1]. *)
Definition put_calls_fix_insert (fuel : nat) (k v : list byte)
    (s s1 : State) (new_node : ptr) : Prop :=
  is_null (root s) = false
  /\ exists parent,
       put_descend fuel s k v None (root s) = Ok (Slot parent)
       /\ put_attach s k v parent = Ok (s1, new_node).

(** Number of proper ancestors of a node, following [parent] links. *)
Fixpoint depth (fuel : nat) (s : State) (node : ptr) : result nat :=
  match fuel with
  | O => OutOfFuel
  | S fuel' =>
      let* p := get_parent s node in
      if is_null p then Ok O
      else
        let* d := depth fuel' s p in
        Ok (S d)
  end.

(** The state at the head of the loop. *)
Definition loop_state (s : State) (node : ptr) : Prop :=
  exists t ctx, repz s t ctx /\ ptr_of t = node /\ loop_inv t ctx.

(** ** Black counts *)

(** The number of black nodes on each path from the root to an empty
    position, one entry per path, left to right. *)
Fixpoint black_counts (t : tree) : list nat :=
  match t with
  | E => [O]
  | T _ c l _ _ r =>
      map (fun n => if c then n else S n) (black_counts l ++ black_counts r)
  end.

(** The state after [a->value = v]. *)
Definition replace_value (s : State) (a : nat) (node : Node) (v : list byte)
  : State :=
  mkState (<[a := with_value v node]> (heap s)) (root s).

(** ** The reference comparison *)

(** The reference comparison of section 4.1: the first differing byte,
    compared as unsigned values, decides; a proper prefix is less; equal
    sequences are equal. *)
Fixpoint spec_compare (a b : list byte) : Z :=
  match a, b with
  | [], [] => 0
  | [], _ :: _ => -1
  | _ :: _, [] => 1
  | x :: a', y :: b' =>
      if byte_lt x y then -1
      else if byte_lt y x then 1
      else spec_compare a' b'
  end.

(** What [compare_keys] returns after its loop. *)
Definition compare_sizes (a b : list byte) : Z :=
  if size a <? size b then -1
  else if size b <? size a then 1
  else 0.

(** A sequence of [n] bytes [x]. *)
Definition bytes_of (x : byte) (n : Z) : list byte := repeat x (Z.to_nat n).

(** ** Order of the keys *)

(** Keys in the order of an in-order traversal. *)
Fixpoint keys_inorder (t : tree) : list (list byte) :=
  match t with
  | E => []
  | T _ _ l k _ r => keys_inorder l ++ k :: keys_inorder r
  end.

(** Invariant 1 of the data model: at every node, the keys of the left
    subtree compare less than the node's key and those of the right subtree
    compare greater. *)
Fixpoint bst_ordered (t : tree) : Prop :=
  match t with
  | E => True
  | T _ _ l k _ r =>
      Forall (fun x => compare_keys x k < 0) (keys_inorder l)
      /\ Forall (fun x => compare_keys x k > 0) (keys_inorder r)
      /\ bst_ordered l /\ bst_ordered r
  end.

(** ** Sequences of calls *)

(** A sequence of calls of [put]. *)
Definition put_all (fuel : nat) (kvs : list (list byte * list byte))
    (s : State) : result State :=
  fold_left (fun r kv => let* s := r in put fuel (fst kv) (snd kv) s)
    kvs (Ok s).

(** The state and the tree after the calls [put A], [put C], [put b1], ...,
    [put b6], [put C], where the comparator orders [C < A < b1 < ... < b6]
    and yet [C > b1, ..., b6]. *)
Definition cyclic_puts (A C b1 b2 b3 b4 b5 b6 : list byte)
  : list (list byte * list byte) :=
  [(A, []); (C, []); (b1, []); (b2, []); (b3, []); (b4, []); (b5, []);
   (b6, []); (C, [])].

Definition cyclic_state (A C b1 b2 b3 b4 b5 b6 : list byte) : State :=
  mkState
    [mkNode A [] (Some 1%nat) (Some 2%nat) (Some 3%nat) true;
     mkNode C [] None None (Some 0%nat) false;
     mkNode b1 [] None None (Some 0%nat) false;
     mkNode b2 [] (Some 0%nat) (Some 5%nat) None false;
     mkNode b3 [] None None (Some 5%nat) false;
     mkNode b4 [] (Some 4%nat) (Some 7%nat) (Some 3%nat) true;
     mkNode b5 [] None None (Some 7%nat) true;
     mkNode b6 [] (Some 6%nat) (Some 8%nat) (Some 5%nat) false;
     mkNode C [] None None (Some 7%nat) true]
    (Some 3%nat).

Definition cyclic_tree (A C b1 b2 b3 b4 b5 b6 : list byte) : tree :=
  T 3 false
    (T 0 true (T 1 false E C [] E) A [] (T 2 false E b1 [] E))
    b2 []
    (T 5 true (T 4 false E b3 [] E) b4 []
       (T 7 false (T 6 true E b5 [] E) b6 [] (T 8 true E C [] E))).

(** The keys of the failing inputs. *)
Definition long_ff : list byte := bytes_of xff 2147483648.
Definition short_80 : list byte := [x80].
Definition long_00 (i : Z) : list byte := bytes_of x00 (2147483648 + i).
Definition long_01 : list byte := bytes_of x01 2147483648.

Definition long_key_puts : list (list byte * list byte) :=
  cyclic_puts long_ff short_80 (long_00 1) (long_00 2) (long_00 3)
    (long_00 4) (long_00 5) (long_00 6).
Definition long_key_state : State :=
  cyclic_state long_ff short_80 (long_00 1) (long_00 2) (long_00 3)
    (long_00 4) (long_00 5) (long_00 6).
Definition long_key_tree : tree :=
  cyclic_tree long_ff short_80 (long_00 1) (long_00 2) (long_00 3)
    (long_00 4) (long_00 5) (long_00 6).

(** The first eight calls of [cyclic_puts], the key [C] put with the value
    [v1]; the state and the tree after them; the state in which a ninth call
    [put C v2] calls [fix_insert]; and the state that call returns. *)
Definition present_puts (A C b1 b2 b3 b4 b5 b6 v1 : list byte)
  : list (list byte * list byte) :=
  [(A, []); (C, v1); (b1, []); (b2, []); (b3, []); (b4, []); (b5, []);
   (b6, [])].

Definition present_state (A C b1 b2 b3 b4 b5 b6 v1 : list byte) : State :=
  mkState
    [mkNode A [] (Some 1%nat) (Some 2%nat) (Some 3%nat) true;
     mkNode C v1 None None (Some 0%nat) false;
     mkNode b1 [] None None (Some 0%nat) false;
     mkNode b2 [] (Some 0%nat) (Some 5%nat) None false;
     mkNode b3 [] None None (Some 5%nat) false;
     mkNode b4 [] (Some 4%nat) (Some 6%nat) (Some 3%nat) true;
     mkNode b5 [] None (Some 7%nat) (Some 5%nat) false;
     mkNode b6 [] None None (Some 6%nat) true]
    (Some 3%nat).

Definition present_tree (A C b1 b2 b3 b4 b5 b6 v1 : list byte) : tree :=
  T 3 false
    (T 0 true (T 1 false E C v1 E) A [] (T 2 false E b1 [] E))
    b2 []
    (T 5 true (T 4 false E b3 [] E) b4 []
       (T 6 false E b5 [] (T 7 true E b6 [] E))).

Definition present_state_attached (A C b1 b2 b3 b4 b5 b6 v1 v2 : list byte)
  : State :=
  mkState
    [mkNode A [] (Some 1%nat) (Some 2%nat) (Some 3%nat) true;
     mkNode C v1 None None (Some 0%nat) false;
     mkNode b1 [] None None (Some 0%nat) false;
     mkNode b2 [] (Some 0%nat) (Some 5%nat) None false;
     mkNode b3 [] None None (Some 5%nat) false;
     mkNode b4 [] (Some 4%nat) (Some 6%nat) (Some 3%nat) true;
     mkNode b5 [] None (Some 7%nat) (Some 5%nat) false;
     mkNode b6 [] None (Some 8%nat) (Some 6%nat) true;
     mkNode C v2 None None (Some 7%nat) true]
    (Some 3%nat).

Definition present_state_after (A C b1 b2 b3 b4 b5 b6 v1 v2 : list byte)
  : State :=
  mkState
    [mkNode A [] (Some 1%nat) (Some 2%nat) (Some 3%nat) true;
     mkNode C v1 None None (Some 0%nat) false;
     mkNode b1 [] None None (Some 0%nat) false;
     mkNode b2 [] (Some 0%nat) (Some 5%nat) None false;
     mkNode b3 [] None None (Some 5%nat) false;
     mkNode b4 [] (Some 4%nat) (Some 7%nat) (Some 3%nat) true;
     mkNode b5 [] None None (Some 7%nat) true;
     mkNode b6 [] (Some 6%nat) (Some 8%nat) (Some 5%nat) false;
     mkNode C v2 None None (Some 7%nat) true]
    (Some 3%nat).

Definition present_key_puts : list (list byte * list byte) :=
  present_puts long_ff short_80 (long_00 1) (long_00 2) (long_00 3)
    (long_00 4) (long_00 5) (long_00 6) [x11].
Definition present_key_state : State :=
  present_state long_ff short_80 (long_00 1) (long_00 2) (long_00 3)
    (long_00 4) (long_00 5) (long_00 6) [x11].
Definition present_key_tree : tree :=
  present_tree long_ff short_80 (long_00 1) (long_00 2) (long_00 3)
    (long_00 4) (long_00 5) (long_00 6) [x11].
Definition present_key_state_attached : State :=
  present_state_attached long_ff short_80 (long_00 1) (long_00 2) (long_00 3)
    (long_00 4) (long_00 5) (long_00 6) [x11] [x22].
Definition present_key_state_after : State :=
  present_state_after long_ff short_80 (long_00 1) (long_00 2) (long_00 3)
    (long_00 4) (long_00 5) (long_00 6) [x11] [x22].

(** ** Keys of fewer than 2^31 bytes *)

(** The strict order of the reference comparison. *)
Definition key_lt (a b : list byte) : Prop := spec_compare a b < 0.

(** A key [compare_keys] handles exactly, whatever the other key is. *)
Definition short_key (k : list byte) : Prop := size k < 2 ^ 31.

(** ** Keys along a position *)

(** The keys that precede (follow) the hole of [ctx] in the in-order
    traversal of the plugged tree. *)
Fixpoint keys_before (ctx : list frame) : list (list byte) :=
  match ctx with
  | [] => []
  | InLeft _ _ _ _ _ :: ctx' => keys_before ctx'
  | InRight _ _ l k _ :: ctx' => keys_before ctx' ++ keys_inorder l ++ [k]
  end.

Fixpoint keys_after (ctx : list frame) : list (list byte) :=
  match ctx with
  | [] => []
  | InLeft _ _ k _ r :: ctx' => k :: keys_inorder r ++ keys_after ctx'
  | InRight _ _ _ _ _ :: ctx' => keys_after ctx'
  end.

(** The calls of [put] that produced a state from the empty tree, with the
    keys they were given, last call first. *)
Inductive put_history : list (list byte) -> State -> Prop :=
| history_empty : put_history [] empty_tree
| history_put ks s fuel k v s' :
    put_history ks s -> put fuel k v s = Ok s' -> put_history (k :: ks) s'.

(** ** States of the worked examples *)

(** The state after [put [1] [10]], [put [2] [11]], [put [3] [12]] on the
    empty tree: a black root with two red children. *)
Definition example_state : State :=
  mkState
    [mkNode [x01] [x0a] None None (Some 1%nat) true;
     mkNode [x02] [x0b] (Some 0%nat) (Some 2%nat) None false;
     mkNode [x03] [x0c] None None (Some 1%nat) true]
    (Some 1%nat).

Definition example_tree : tree :=
  T 1 false (T 0 true E [x01] [x0a] E) [x02] [x0b] (T 2 true E [x03] [x0c] E).

(** [example_state] after [put [4] [13]] has linked its new node below the
    node of key [3], at the call of [fix_insert]. *)
Definition example_attached : State :=
  mkState
    [mkNode [x01] [x0a] None None (Some 1%nat) true;
     mkNode [x02] [x0b] (Some 0%nat) (Some 2%nat) None false;
     mkNode [x03] [x0c] None (Some 3%nat) (Some 1%nat) true;
     mkNode [x04] [x0d] None None (Some 2%nat) true]
    (Some 1%nat).

(** ** What compare_keys compares *)

(** The number of leading bytes the loop of [compare_keys] looks at: the
    shorter size after its conversion to [int]. *)
Definition compared_prefix (a b : list byte) : nat :=
  Z.to_nat (to_int (Z.min (size a) (size b))).

(** ** Nodes and cells *)

(** Number of nodes [put] allocates for the key [k] on the tree [t]. *)
Definition allocated (k : list byte) (t : tree) : nat :=
  match lookup_tree k t with Some _ => O | None => 1%nat end.

(** The state holds the red-black tree [t], and every cell of its heap is a
    node of [t]. *)
Definition no_garbage (s : State) (t : tree) : Prop :=
  represents s t /\ red_black t /\ length (addrs t) = length (heap s).

(** Addresses in the order [delete_tree] deletes them: children first. *)
Fixpoint postorder (t : tree) : list nat :=
  match t with
  | E => []
  | T a _ l _ _ r => postorder l ++ postorder r ++ [a]
  end.

(** ** The tree as a finite map *)

#[global] Instance byte_eq_decision : EqDecision byte := Byte.byte_eq_dec.

(** Keys with their values in the order of an in-order traversal. *)
Fixpoint bindings (t : tree) : list (list byte * list byte) :=
  match t with
  | E => []
  | T _ _ l k v r => bindings l ++ (k, v) :: bindings r
  end.

Fixpoint bindings_before (ctx : list frame) : list (list byte * list byte) :=
  match ctx with
  | [] => []
  | InLeft _ _ _ _ _ :: ctx' => bindings_before ctx'
  | InRight _ _ l k v :: ctx' => bindings_before ctx' ++ bindings l ++ [(k, v)]
  end.

Fixpoint bindings_after (ctx : list frame) : list (list byte * list byte) :=
  match ctx with
  | [] => []
  | InLeft _ _ k v r :: ctx' => (k, v) :: bindings r ++ bindings_after ctx'
  | InRight _ _ _ _ _ :: ctx' => bindings_after ctx'
  end.

(** The value of the first pair with key [k].  On a list of calls of [put],
    most recent first, this is the value of the last call for [k]. *)
Fixpoint assoc (k : list byte) (h : list (list byte * list byte))
  : option (list byte) :=
  match h with
  | [] => None
  | (k', v) :: h' => if decide (k = k') then Some v else assoc k h'
  end.

(** The calls of [put] that produced a state from the empty tree, with
    their keys and values, most recent call first. *)
Inductive put_trace : list (list byte * list byte) -> State -> Prop :=
| trace_empty : put_trace [] empty_tree
| trace_put h s fuel k v s' :
    put_trace h s -> put fuel k v s = Ok s' -> put_trace ((k, v) :: h) s'.

(** The call of [put] the pre-population loop makes for the index [i]. *)
Definition read_call (i : nat) : list byte * list byte :=
  (read_key (Z.of_nat i), read_value (Z.of_nat i)).

(** ** More states of the worked examples *)

(** [example_state] after [put [4] [13]]. *)
Definition example_after_put : State :=
  Eval vm_compute in
    match put 10 [x04] [x0d] example_state with
    | Ok s => s
    | _ => example_state
    end.

(** The calls of two writer threads with two operations each, made on the
    empty tree from the last of the list to the first. *)
Definition example_writes_state : State :=
  Eval vm_compute in
    match put_all 10 (rev (all_writes 2 2)) empty_tree with
    | Ok s => s
    | _ => empty_tree
    end.

(** * Part III. Proofs *)

(** ** Heap reasoning *)

Lemma insert_lookup_same (h : list Node) (i : nat) (n : Node) :
  is_Some (h !! i) -> <[i:=n]> h !! i = Some n.
Proof.
  intros [x Hx]. apply list_lookup_insert_eq. eapply lookup_lt_Some, Hx.
Qed.

Lemma insert_is_Some (h : list Node) (i j : nat) (n : Node) :
  is_Some (h !! j) -> is_Some (<[i:=n]> h !! j).
Proof.
  intros Hj. destruct (decide (i = j)) as [->|Hne].
  - rewrite insert_lookup_same; eauto.
  - rewrite list_lookup_insert_ne; auto.
Qed.

Lemma rep_is_Some h par t a : rep h par t -> a ∈ addrs t -> is_Some (h !! a).
Proof.
  revert par. induction t as [|b c l IHl k v r IHr]; simpl; intros par Hrep Ha.
  - inversion Ha.
  - destruct Hrep as (Hb & Hl & Hr).
    rewrite elem_of_app, elem_of_cons in Ha.
    destruct Ha as [Ha|[->|Ha]]; eauto.
Qed.

Lemma rep_insert h par t a n :
  a ∉ addrs t -> rep h par t -> rep (<[a:=n]> h) par t.
Proof.
  revert par. induction t as [|b c l IHl k v r IHr]; simpl; intros par Ha Hrep.
  - exact I.
  - rewrite not_elem_of_app, not_elem_of_cons in Ha.
    destruct Ha as (Hl & Hb & Hr). destruct Hrep as (Hb' & Hl' & Hr').
    rewrite list_lookup_insert_ne by done. auto.
Qed.

Lemma rep_ctx_insert h hole ctx a n :
  a ∉ ctx_addrs ctx -> rep_ctx h hole ctx -> rep_ctx (<[a:=n]> h) hole ctx.
Proof.
  revert hole. induction ctx as [|f ctx IH]; simpl; intros hole Ha Hrep.
  - exact I.
  - rewrite not_elem_of_app in Ha. destruct Ha as [Hf Hc].
    destruct f; simpl in Hf; rewrite not_elem_of_cons in Hf;
      destruct Hf as [Hne Hs]; destruct Hrep as (Hb & Hs' & Hc');
      (rewrite list_lookup_insert_ne by done); auto using rep_insert.
Qed.

Lemma rep_app h par t n : rep h par t -> rep (h ++ [n]) par t.
Proof.
  revert par. induction t as [|b c l IHl k v r IHr]; simpl; intros par Hrep.
  - exact I.
  - destruct Hrep as (Hb & Hl & Hr).
    rewrite lookup_app_l by (eapply lookup_lt_Some, Hb). auto.
Qed.

Lemma rep_ctx_app h hole ctx n :
  rep_ctx h hole ctx -> rep_ctx (h ++ [n]) hole ctx.
Proof.
  revert hole. induction ctx as [|f ctx IH]; simpl; intros hole Hrep.
  - exact I.
  - destruct f; destruct Hrep as (Hb & Hs & Hc);
      (rewrite lookup_app_l by (eapply lookup_lt_Some, Hb));
      auto using rep_app.
Qed.

Lemma NoDup_app_disjoint (l1 l2 : list nat) :
  NoDup (l1 ++ l2) <-> NoDup l1 /\ disjoint l1 l2 /\ NoDup l2.
Proof. apply NoDup_app. Qed.

Lemma disjoint_cons_l a l1 l2 :
  disjoint (a :: l1) l2 <-> (a ∉ l2) /\ disjoint l1 l2.
Proof.
  unfold disjoint. split.
  - intros H. split; [apply H; left|]. intros z Hz. apply H. by right.
  - intros [Ha H] z Hz. apply elem_of_cons in Hz as [->|Hz]; auto.
Qed.

Lemma disjoint_app_l l1 l1' l2 :
  disjoint (l1 ++ l1') l2 <-> disjoint l1 l2 /\ disjoint l1' l2.
Proof.
  unfold disjoint. split.
  - intros H. split; intros z Hz; apply H, elem_of_app; auto.
  - intros [H1 H2] z Hz. apply elem_of_app in Hz as [Hz|Hz]; auto.
Qed.

Lemma disjoint_cons_r l1 b l2 :
  disjoint l1 (b :: l2) <-> (b ∉ l1) /\ disjoint l1 l2.
Proof.
  unfold disjoint. split.
  - intros H. split.
    + intros Hb. apply (H b Hb). left.
    + intros z Hz Hz'. apply (H z Hz). by right.
  - intros [Hb H] z Hz Hz'. apply elem_of_cons in Hz' as [->|Hz']; [done|].
    by apply (H z).
Qed.

Lemma disjoint_app_r l1 l2 l2' :
  disjoint l1 (l2 ++ l2') <-> disjoint l1 l2 /\ disjoint l1 l2'.
Proof.
  unfold disjoint. split.
  - intros H. split; intros z Hz Hz'; apply (H z Hz), elem_of_app; auto.
  - intros [H1 H2] z Hz Hz'. apply elem_of_app in Hz' as [Hz'|Hz'].
    + by apply (H1 z).
    + by apply (H2 z).
Qed.

Lemma disjoint_sym l1 l2 : disjoint l1 l2 -> disjoint l2 l1.
Proof. intros H z Hz Hz'. by apply (H z). Qed.

Ltac sep_split :=
  repeat match goal with
    | H : _ /\ _ |- _ => destruct H
    | H : NoDup (_ ++ _) |- _ => apply NoDup_app_disjoint in H
    | H : NoDup (_ :: _) |- _ => apply NoDup_cons in H
    | H : NoDup [] |- _ => clear H
    | H : disjoint [] _ |- _ => clear H
    | H : disjoint _ [] |- _ => clear H
    | H : disjoint (_ :: _) _ |- _ => apply disjoint_cons_l in H
    | H : disjoint (_ ++ _) _ |- _ => apply disjoint_app_l in H
    | H : disjoint _ (_ :: _) |- _ => apply disjoint_cons_r in H
    | H : disjoint _ (_ ++ _) |- _ => apply disjoint_app_r in H
    | H : _ ∉ [] |- _ => clear H
    | H : _ ∉ (_ :: _) |- _ => apply not_elem_of_cons in H
    | H : _ ∉ (_ ++ _) |- _ => apply not_elem_of_app in H
    end.

Ltac sep_atom :=
  first [ assumption
        | apply not_eq_sym; assumption
        | apply not_elem_of_nil
        | apply disjoint_sym; assumption
        | match goal with
          | H : ?a ∉ ?l |- ?a ≠ ?b =>
              intros ->; apply H; simpl; left
          end ].

Ltac sep :=
  repeat match goal with
    | |- _ /\ _ => split
    | |- _ ∉ (_ :: _) => apply not_elem_of_cons
    | |- _ ∉ (_ ++ _) => apply not_elem_of_app
    | |- NoDup (_ ++ _) => apply NoDup_app_disjoint
    | |- NoDup (_ :: _) => apply NoDup_cons
    | |- NoDup [] => apply NoDup_nil_2
    | |- disjoint [] _ => intros ? Hnil; inversion Hnil
    | |- disjoint _ [] => intros ? _; apply not_elem_of_nil
    | |- disjoint (_ :: _) _ => apply disjoint_cons_l
    | |- disjoint (_ ++ _) _ => apply disjoint_app_l
    | |- disjoint _ (_ :: _) => apply disjoint_cons_r
    | |- disjoint _ (_ ++ _) => apply disjoint_app_r
    end;
  sep_atom.

Lemma lookup_snoc (h : list Node) (n : Node) : (h ++ [n]) !! length h = Some n.
Proof. by apply list_lookup_middle. Qed.

Lemma lookup_snoc_old (h : list Node) (n x : Node) (a : nat) :
  h !! a = Some x -> (h ++ [n]) !! a = Some x.
Proof. apply lookup_app_l_Some. Qed.

Ltac heap_is_Some :=
  repeat apply insert_is_Some;
  first [ by eauto
        | rewrite lookup_snoc; by eexists
        | erewrite lookup_snoc_old by eassumption; by eexists ].

Ltac lookup_close :=
  first [ eassumption | reflexivity | apply lookup_snoc
        | apply lookup_snoc_old; eassumption ].

Ltac heap_lookup :=
  repeat first
    [ rewrite insert_lookup_same by heap_is_Some
    | rewrite list_lookup_insert_ne by sep ].

Lemma load_ok s a n : heap s !! a = Some n -> load s (Some a) = Ok n.
Proof. intros H. unfold load. rewrite H. reflexivity. Qed.

Lemma store_ok s a n f :
  heap s !! a = Some n ->
  store s (Some a) f = Ok (mkState (<[a:=f n]> (heap s)) (root s)).
Proof. intros H. unfold store. rewrite H. reflexivity. Qed.

Lemma get_key_ok s a n : heap s !! a = Some n -> get_key s (Some a) = Ok (key n).
Proof. intros H. unfold get_key. rewrite (load_ok _ _ _ H). reflexivity. Qed.
Lemma get_value_ok s a n :
  heap s !! a = Some n -> get_value s (Some a) = Ok (value n).
Proof. intros H. unfold get_value. rewrite (load_ok _ _ _ H). reflexivity. Qed.
Lemma get_left_ok s a n : heap s !! a = Some n -> get_left s (Some a) = Ok (left n).
Proof. intros H. unfold get_left. rewrite (load_ok _ _ _ H). reflexivity. Qed.
Lemma get_right_ok s a n :
  heap s !! a = Some n -> get_right s (Some a) = Ok (right n).
Proof. intros H. unfold get_right. rewrite (load_ok _ _ _ H). reflexivity. Qed.
Lemma get_parent_ok s a n :
  heap s !! a = Some n -> get_parent s (Some a) = Ok (parent n).
Proof. intros H. unfold get_parent. rewrite (load_ok _ _ _ H). reflexivity. Qed.
Lemma get_is_red_ok s a n :
  heap s !! a = Some n -> get_is_red s (Some a) = Ok (is_red n).
Proof. intros H. unfold get_is_red. rewrite (load_ok _ _ _ H). reflexivity. Qed.

Lemma ptr_eqb_refl p : ptr_eqb p p = true.
Proof. destruct p; simpl; auto using Nat.eqb_refl. Qed.

Lemma ptr_eqb_ptr_of a t : a ∉ addrs t -> ptr_eqb (Some a) (ptr_of t) = false.
Proof.
  destruct t as [|b c l k v r]; simpl; [reflexivity|].
  intros H. apply Nat.eqb_neq. set_solver.
Qed.

Lemma ptr_eqb_ne a b : a <> b -> ptr_eqb (Some a) (Some b) = false.
Proof. intros H. simpl. by apply Nat.eqb_neq. Qed.

Lemma ptr_eqb_null a : ptr_eqb (Some a) None = false.
Proof. reflexivity. Qed.

Ltac solve_lookup :=
  cbn [heap root]; heap_lookup; lookup_close.

Ltac heap_step :=
  first
    [ erewrite get_key_ok by solve_lookup
    | erewrite get_value_ok by solve_lookup
    | erewrite get_left_ok by solve_lookup
    | erewrite get_right_ok by solve_lookup
    | erewrite get_parent_ok by solve_lookup
    | erewrite get_is_red_ok by solve_lookup
    | erewrite store_ok by solve_lookup
    | rewrite ptr_eqb_refl
    | rewrite ptr_eqb_ptr_of by sep
    | rewrite ptr_eqb_ne by sep
    | rewrite ptr_eqb_null
    | progress unfold set_root, set_value, set_left, set_right, set_parent,
        set_is_red ];
  unfold with_value, with_left, with_right, with_parent, with_is_red;
  cbn [bind fst snd is_null ptr_of ctx_ptr frame_addr heap root set_root
       key value left right parent is_red
       with_value with_left with_right with_parent with_is_red].

Ltac rep_frame :=
  repeat first [ apply rep_insert; [sep|]
               | apply rep_ctx_insert; [sep|]
               | apply rep_app
               | apply rep_ctx_app ];
  try assumption.

Ltac heap_finish :=
  eexists; split; [reflexivity|];
  cbn [heap root rep rep_ctx ptr_of ctx_ptr frame_addr top_ptr addrs ctx_addrs
       frame_addrs];
  repeat match goal with
         | |- _ /\ _ => split
         | |- True => exact I
         | |- _ !! _ = Some _ => solve [heap_lookup; lookup_close]
         | |- rep _ _ _ => solve [rep_frame]
         | |- rep_ctx _ _ _ => solve [rep_frame]
         | |- NoDup _ => solve [sep]
         | |- _ = _ => first [reflexivity | assumption]
         end.

(** ** The rotations *)

Lemma rotate_left_spec s x cx a kx vx y cy b ky vy c ctx :
  repz s (T x cx a kx vx (T y cy b ky vy c)) ctx ->
  exists s', rotate_left s (Some x) = Ok s'
    /\ repz s' (T y cy (T x cx a kx vx b) ky vy c) ctx.
Proof.
  destruct s as [h rt]. unfold repz.
  destruct b as [|bz bc bl bk bv br];
    destruct ctx as [|[p pc pk pv pr|p pc pl pk pv] ctx]; simpl;
    intros (Hrep & Hctx & Hroot & Hnd); sep_split.
  all: unfold rotate_left, set_right, set_left, set_parent.
  all: repeat heap_step.
  all: heap_finish.
Qed.

Lemma rotate_right_spec s y cy x cx a kx vx b ky vy c ctx :
  repz s (T y cy (T x cx a kx vx b) ky vy c) ctx ->
  exists s', rotate_right s (Some y) = Ok s'
    /\ repz s' (T x cx a kx vx (T y cy b ky vy c)) ctx.
Proof.
  destruct s as [h rt]. unfold repz.
  destruct b as [|bz bc bl bk bv br];
    destruct ctx as [|[p pc pk pv pr|p pc pl pk pv] ctx]; simpl;
    intros (Hrep & Hctx & Hroot & Hnd); sep_split.
  all: unfold rotate_right, set_right, set_left, set_parent.
  all: repeat heap_step.
  all: heap_finish.
Qed.

(** ** Moving the focus *)

Ltac repz_unfold :=
  unfold repz;
  cbn [heap root rep rep_ctx ptr_of ctx_ptr frame_addr top_ptr addrs ctx_addrs
       frame_addrs].

Ltac repz_finish :=
  repeat match goal with
         | |- _ /\ _ => split
         | |- True => exact I
         | |- _ !! _ = Some _ => solve [heap_lookup; lookup_close]
         | |- rep _ _ _ => solve [rep_frame]
         | |- rep_ctx _ _ _ => solve [rep_frame]
         | |- NoDup _ => solve [sep]
         | |- _ = _ => first [reflexivity | assumption]
         end.

Lemma repz_down_left s a c l k v r ctx :
  repz s (T a c l k v r) ctx <-> repz s l (InLeft a c k v r :: ctx).
Proof. split; repz_unfold; intros H; sep_split; repz_finish. Qed.

Lemma repz_down_right s a c l k v r ctx :
  repz s (T a c l k v r) ctx <-> repz s r (InRight a c l k v :: ctx).
Proof. split; repz_unfold; intros H; sep_split; repz_finish. Qed.

Lemma repz_fill s f t ctx : repz s t (f :: ctx) <-> repz s (fill f t) ctx.
Proof.
  destruct f; simpl; symmetry;
    [apply repz_down_left | apply repz_down_right].
Qed.

Lemma repz_plug s t ctx : repz s t ctx <-> repz s (plug t ctx) [].
Proof.
  revert t. induction ctx as [|f ctx IH]; intros t; simpl; [reflexivity|].
  rewrite repz_fill. apply IH.
Qed.

Lemma repz_lookup s a c l k v r ctx :
  repz s (T a c l k v r) ctx ->
  heap s !! a = Some (mkNode k v (ptr_of l) (ptr_of r) (ctx_ptr ctx) c).
Proof. repz_unfold. intros H. sep_split. assumption. Qed.

Lemma repz_root s t : repz s t [] -> root s = ptr_of t.
Proof. repz_unfold. intros H. sep_split. assumption. Qed.

Lemma repz_set_is_red s a c l k v r ctx c' :
  repz s (T a c l k v r) ctx ->
  exists s', set_is_red s (Some a) c' = Ok s' /\ repz s' (T a c' l k v r) ctx.
Proof.
  destruct s as [h rt]. repz_unfold. intros H. sep_split.
  unfold set_is_red. repeat heap_step. heap_finish.
Qed.

Lemma repz_set_value s a c l k v r ctx v' :
  repz s (T a c l k v r) ctx ->
  exists s', set_value s (Some a) v' = Ok s' /\ repz s' (T a c l k v' r) ctx.
Proof.
  destruct s as [h rt]. repz_unfold. intros H. sep_split.
  unfold set_value. repeat heap_step. heap_finish.
Qed.

(** ** One pass of fix_insert *)

Lemma fix_insert_cond_spec s a c l k v r ctx :
  repz s (T a c l k v r) ctx ->
  fix_insert_cond s (Some a) = Ok (fix_cond ctx).
Proof.
  destruct s as [h rt]. repz_unfold. intros H. sep_split.
  unfold fix_insert_cond. 
  destruct ctx as [|[p pc pk pv pr|p pc pl pk pv] ctx];
    cbn [rep_ctx ctx_ptr frame_addr] in *; sep_split;
    repeat heap_step; reflexivity.
Qed.

Ltac call_rotate_right t c :=
  lazymatch goal with
  | |- context [rotate_right ?st _] =>
      let Hz := fresh "Hz" in
      let s' := fresh "s" in
      let Hrot := fresh "Hrot" in
      let Hrep := fresh "Hrep" in
      assert (Hz : repz st t c) by (repz_unfold; repz_finish);
      destruct (rotate_right_spec _ _ _ _ _ _ _ _ _ _ _ _ _ Hz)
        as (s' & Hrot & Hrep);
      rewrite Hrot; clear Hz Hrot; cbn [bind fst snd]
  end.

Ltac call_rotate_left t c :=
  lazymatch goal with
  | |- context [rotate_left ?st _] =>
      let Hz := fresh "Hz" in
      let s' := fresh "s" in
      let Hrot := fresh "Hrot" in
      let Hrep := fresh "Hrep" in
      assert (Hz : repz st t c) by (repz_unfold; repz_finish);
      destruct (rotate_left_spec _ _ _ _ _ _ _ _ _ _ _ _ _ Hz)
        as (s' & Hrot & Hrep);
      rewrite Hrot; clear Hz Hrot; cbn [bind fst snd]
  end.

(** Forget the facts about the previous heap and unfold those about the
    state [s]. *)
Ltac enter_state s Hrep :=
  repeat match goal with
         | H : _ !! _ = Some _ |- _ => clear H
         | H : rep _ _ _ |- _ => clear H
         | H : rep_ctx _ _ _ |- _ => clear H
         end;
  destruct s as [? ?]; revert Hrep; repz_unfold;
  let H := fresh "H" in intros H; sep_split.

Lemma fix_insert_body_spec s t ctx t' ctx' :
  repz s t ctx ->
  fix_body t ctx = Some (t', ctx') ->
  exists s', fix_insert_body s (ptr_of t) = Ok (s', ptr_of t')
    /\ repz s' t' ctx'.
Proof.
  intros Hrep Hbody.
  destruct t as [|n cn l kn vn r]; [discriminate|].
  destruct ctx as [|f [|[g cg kg vg u|g cg u kg vg] ctx2]];
    try discriminate; try (destruct f; discriminate).
  - (* the parent is a left child *)
    cbn [fix_body] in Hbody.
    destruct f as [p cp kp vp pr|p cp pl kp vp];
      destruct u as [|ua [|] ul uk uv ur]; cbn [red_root] in Hbody;
      injection Hbody as <- <-;
      destruct s as [h rt]; revert Hrep;
      cbn [fill set_frame_red blacken]; repz_unfold; intros H; sep_split;
      unfold fix_insert_body, get_grandparent, uncle_is_red;
      repeat heap_step.
    + (* outer grandchild, no uncle *)
      call_rotate_right
        (T g true (T p false (T n cn l kn vn r) kp vp pr) kg vg E) ctx2.
      eexists; split; [reflexivity|].
      exact (proj1 (repz_down_left _ _ _ _ _ _ _ _) Hrep).
    + (* red uncle *)
      heap_finish.
    + (* outer grandchild, black uncle *)
      call_rotate_right
        (T g true (T p false (T n cn l kn vn r) kp vp pr) kg vg
           (T ua false ul uk uv ur)) ctx2.
      eexists; split; [reflexivity|].
      exact (proj1 (repz_down_left _ _ _ _ _ _ _ _) Hrep).
    + (* inner grandchild, no uncle *)
      call_rotate_left (T p cp pl kp vp (T n cn l kn vn r))
        (InLeft g cg kg vg E :: ctx2).
      enter_state s Hrep. unfold get_grandparent. repeat heap_step.
      call_rotate_right
        (T g true (T n false (T p cp pl kp vp l) kn vn r) kg vg E) ctx2.
      eexists; split; [reflexivity|].
      exact (proj1 (repz_down_left _ _ _ _ _ _ _ _) Hrep).
    + heap_finish.
    + call_rotate_left (T p cp pl kp vp (T n cn l kn vn r))
        (InLeft g cg kg vg (T ua false ul uk uv ur) :: ctx2).
      enter_state s Hrep. unfold get_grandparent. repeat heap_step.
      call_rotate_right
        (T g true (T n false (T p cp pl kp vp l) kn vn r) kg vg
           (T ua false ul uk uv ur)) ctx2.
      eexists; split; [reflexivity|].
      exact (proj1 (repz_down_left _ _ _ _ _ _ _ _) Hrep).
  - (* the parent is a right child *)
    cbn [fix_body] in Hbody.
    destruct f as [p cp kp vp pr|p cp pl kp vp];
      destruct u as [|ua [|] ul uk uv ur]; cbn [red_root] in Hbody;
      injection Hbody as <- <-;
      destruct s as [h rt]; revert Hrep;
      cbn [fill set_frame_red blacken]; repz_unfold; intros H; sep_split;
      unfold fix_insert_body, get_grandparent, uncle_is_red;
      repeat heap_step.
    + (* inner grandchild, no uncle *)
      call_rotate_right (T p cp (T n cn l kn vn r) kp vp pr)
        (InRight g cg E kg vg :: ctx2).
      enter_state s Hrep. unfold get_grandparent. repeat heap_step.
      call_rotate_left
        (T g true E kg vg (T n false l kn vn (T p cp r kp vp pr))) ctx2.
      eexists; split; [reflexivity|].
      exact (proj1 (repz_down_right _ _ _ _ _ _ _ _) Hrep).
    + heap_finish.
    + call_rotate_right (T p cp (T n cn l kn vn r) kp vp pr)
        (InRight g cg (T ua false ul uk uv ur) kg vg :: ctx2).
      enter_state s Hrep. unfold get_grandparent. repeat heap_step.
      call_rotate_left
        (T g true (T ua false ul uk uv ur) kg vg
           (T n false l kn vn (T p cp r kp vp pr))) ctx2.
      eexists; split; [reflexivity|].
      exact (proj1 (repz_down_right _ _ _ _ _ _ _ _) Hrep).
    + (* outer grandchild, no uncle *)
      call_rotate_left
        (T g true E kg vg (T p false pl kp vp (T n cn l kn vn r))) ctx2.
      eexists; split; [reflexivity|].
      exact (proj1 (repz_down_right _ _ _ _ _ _ _ _) Hrep).
    + heap_finish.
    + call_rotate_left
        (T g true (T ua false ul uk uv ur) kg vg
           (T p false pl kp vp (T n cn l kn vn r))) ctx2.
      eexists; split; [reflexivity|].
      exact (proj1 (repz_down_right _ _ _ _ _ _ _ _) Hrep).
Qed.

(** ** Descent *)

Lemma descend_repz s k t ctx :
  repz s t ctx -> repz s (fst (descend k t ctx)) (snd (descend k t ctx)).
Proof.
  revert ctx. induction t as [|a c l IHl kx vx r IHr]; intros ctx H; simpl.
  - exact H.
  - destruct (compare_keys k kx =? 0); [exact H|].
    destruct (compare_keys k kx <? 0).
    + apply IHl. by apply repz_down_left.
    + apply IHr. by apply repz_down_right.
Qed.

Lemma descend_on_path k t ctx :
  on_path k ctx -> on_path k (snd (descend k t ctx)).
Proof.
  revert ctx. induction t as [|a c l IHl kx vx r IHr]; intros ctx H; simpl.
  - exact H.
  - destruct (compare_keys k kx =? 0) eqn:E0; [exact H|].
    destruct (compare_keys k kx <? 0) eqn:E1.
    + apply IHl. constructor; [split|]; assumption.
    + apply IHr. constructor; [split|]; assumption.
Qed.

Lemma descend_found k t ctx a c l kx vx r ctx' :
  descend k t ctx = (T a c l kx vx r, ctx') -> (compare_keys k kx =? 0) = true.
Proof.
  revert ctx. induction t as [|a0 c0 l0 IHl k0 v0 r0 IHr]; intros ctx; simpl.
  - discriminate.
  - destruct (compare_keys k k0 =? 0) eqn:E0.
    + intros [= -> -> -> -> -> -> ->]. exact E0.
    + destruct (compare_keys k k0 <? 0); eauto.
Qed.

Lemma descend_slot k t ctx ctx' :
  descend k t ctx = (E, ctx') -> (t = E /\ ctx' = ctx) \/ ctx' <> [].
Proof.
  revert ctx. induction t as [|a c l IHl kx vx r IHr]; intros ctx; simpl.
  - intros [= <-]. by left.
  - destruct (compare_keys k kx =? 0); [discriminate|].
    destruct (compare_keys k kx <? 0); intros H; right.
    + apply IHl in H as [[_ ->]|H]; done.
    + apply IHr in H as [[_ ->]|H]; done.
Qed.

Lemma descend_length k t ctx :
  (length (snd (descend k t ctx)) <= length ctx + height t)%nat.
Proof.
  revert ctx. induction t as [|a c l IHl kx vx r IHr]; intros ctx; simpl.
  - lia.
  - destruct (compare_keys k kx =? 0); [simpl; lia|].
    destruct (compare_keys k kx <? 0).
    + etrans; [apply IHl|]. simpl. lia.
    + etrans; [apply IHr|]. simpl. lia.
Qed.

Lemma lookup_tree_descend k t ctx :
  lookup_tree k t =
  match fst (descend k t ctx) with
  | E => None
  | T a _ _ _ vx _ => Some (a, vx)
  end.
Proof.
  revert ctx. induction t as [|a c l IHl kx vx r IHr]; intros ctx; simpl.
  - reflexivity.
  - destruct (compare_keys k kx =? 0); [reflexivity|].
    destruct (compare_keys k kx <? 0); auto.
Qed.

Lemma find_node_spec fuel s k t ctx :
  repz s t ctx -> (height t <= fuel)%nat ->
  find_node fuel s (ptr_of t) k = Ok (ptr_of (fst (descend k t ctx))).
Proof.
  revert fuel ctx. induction t as [|a c l IHl kx vx r IHr];
    intros fuel ctx H Hfuel; simpl.
  - by destruct fuel.
  - destruct fuel as [|fuel]; [simpl in Hfuel; lia|].
    simpl in Hfuel. cbn [find_node].
    pose proof (repz_lookup _ _ _ _ _ _ _ _ H) as Ha.
    rewrite (get_key_ok _ _ _ Ha). cbn [bind key].
    destruct (compare_keys k kx =? 0); [reflexivity|].
    destruct (compare_keys k kx <? 0).
    + rewrite (get_left_ok _ _ _ Ha). cbn [bind left].
      apply IHl; [by apply repz_down_left | lia].
    + rewrite (get_right_ok _ _ _ Ha). cbn [bind right].
      apply IHr; [by apply repz_down_right | lia].
Qed.

Lemma put_descend_spec fuel s k v t ctx :
  repz s t ctx -> (height t <= fuel)%nat ->
  match descend k t ctx with
  | (E, ctx') =>
      put_descend fuel s k v (ctx_ptr ctx) (ptr_of t) = Ok (Slot (ctx_ptr ctx'))
  | (T a c l kx vx r, ctx') =>
      exists s', put_descend fuel s k v (ctx_ptr ctx) (ptr_of t) = Ok (Replaced s')
        /\ repz s' (T a c l kx v r) ctx'
  end.
Proof.
  revert fuel ctx. induction t as [|a c l IHl kx vx r IHr];
    intros fuel ctx H Hfuel; simpl.
  - by destruct fuel.
  - destruct fuel as [|fuel]; [simpl in Hfuel; lia|].
    simpl in Hfuel. cbn [put_descend].
    pose proof (repz_lookup _ _ _ _ _ _ _ _ H) as Ha.
    rewrite (get_key_ok _ _ _ Ha). cbn [bind key].
    destruct (compare_keys k kx =? 0).
    + destruct (repz_set_value _ _ _ _ _ _ _ _ v H) as (s' & -> & Hs').
      simpl. eauto.
    + destruct (compare_keys k kx <? 0).
      * rewrite (get_left_ok _ _ _ Ha). cbn [bind left].
        apply (IHl fuel (InLeft a c kx vx r :: ctx));
          [by apply repz_down_left | lia].
      * rewrite (get_right_ok _ _ _ Ha). cbn [bind right].
        apply (IHr fuel (InRight a c l kx vx :: ctx));
          [by apply repz_down_right | lia].
Qed.

(** ** Attaching the new node *)

Lemma rep_lt h par t a : rep h par t -> a ∈ addrs t -> (a < length h)%nat.
Proof.
  intros Hrep Ha. destruct (rep_is_Some _ _ _ _ Hrep Ha) as [x Hx].
  eapply lookup_lt_Some, Hx.
Qed.

Lemma rep_ctx_is_Some h hole ctx a :
  rep_ctx h hole ctx -> a ∈ ctx_addrs ctx -> is_Some (h !! a).
Proof.
  revert hole. induction ctx as [|f ctx IH]; simpl; intros hole Hrep Ha.
  - inversion Ha.
  - rewrite elem_of_app in Ha.
    destruct f; simpl in Ha; rewrite elem_of_cons in Ha;
      destruct Hrep as (Hb & Hs & Hc);
      destruct Ha as [[->|Ha]|Ha]; eauto using rep_is_Some.
Qed.

Lemma rep_fresh h par t : rep h par t -> length h ∉ addrs t.
Proof. intros Hrep Ha. apply (rep_lt _ _ _ _ Hrep) in Ha. lia. Qed.

Lemma rep_ctx_fresh h hole ctx : rep_ctx h hole ctx -> length h ∉ ctx_addrs ctx.
Proof.
  intros Hrep Ha. destruct (rep_ctx_is_Some _ _ _ _ Hrep Ha) as [x Hx].
  apply lookup_lt_Some in Hx. lia.
Qed.

Lemma lookup_fresh (h : list Node) a x : h !! a = Some x -> length h <> a.
Proof. intros Hx. apply lookup_lt_Some in Hx. lia. Qed.

Lemma put_attach_spec s k v f ctx :
  repz s E (f :: ctx) ->
  frame_on_path k f ->
  exists s', put_attach s k v (ctx_ptr (f :: ctx)) = Ok (s', Some (length (heap s)))
    /\ repz s' (T (length (heap s)) true E k v E) (f :: ctx).
Proof.
  destruct s as [h rt].
  destruct f as [p pc pk pv pr|p pc pl pk pv]; repz_unfold;
    intros H [Hp0 Hp1]; sep_split.
  all: repeat match goal with
         | H : rep _ _ _ |- _ => pose proof (rep_fresh _ _ _ H); revert H
         | H : rep_ctx _ _ _ |- _ => pose proof (rep_ctx_fresh _ _ _ H); revert H
         | H : _ !! _ = Some _ |- _ => pose proof (lookup_fresh _ _ _ H); revert H
         end; intros.
  all: unfold put_attach, new_Node; cbn [fst snd heap root].
  all: repeat heap_step.
  all: rewrite Hp1.
  all: repeat heap_step.
  all: heap_finish.
Qed.

(** ** fix_insert and put against the abstract tree *)

Lemma fix_body_nonempty t ctx t' ctx' :
  fix_body t ctx = Some (t', ctx') -> t' <> E.
Proof.
  destruct t as [|n cn l kn vn r]; [discriminate|].
  destruct ctx as [|f [|[g cg kg vg u|g cg u kg vg] ctx2]]; simpl;
    try discriminate; try (destruct f; discriminate).
  all: destruct (red_root u); [intros [= <- <-]; discriminate|].
  all: destruct f; intros [= <- <-]; discriminate.
Qed.

Lemma fix_insert_loop_spec fuel s t ctx t' ctx' :
  repz s t ctx -> t <> E ->
  fix_loop fuel t ctx = Some (t', ctx') ->
  exists s', fix_insert_loop fuel s (ptr_of t) = Ok s' /\ repz s' t' ctx'.
Proof.
  revert s t ctx. induction fuel as [|fuel IH]; intros s t ctx Hrep Ht;
    cbn [fix_loop fix_insert_loop].
  - discriminate.
  - destruct t as [|n cn l kn vn r]; [done|]. cbn [ptr_of].
    rewrite (fix_insert_cond_spec _ _ _ _ _ _ _ _ Hrep). cbn [bind].
    destruct (fix_cond ctx).
    + destruct (fix_body (T n cn l kn vn r) ctx) as [[t1 ctx1]|] eqn:Hbody;
        [|discriminate].
      intros Hloop.
      destruct (fix_insert_body_spec _ _ _ _ _ Hrep Hbody) as (s1 & Hs1 & Hrep1).
      cbn [ptr_of] in Hs1. rewrite Hs1. cbn [bind fst snd].
      apply (IH s1 t1 ctx1 Hrep1); [|exact Hloop].
      eapply fix_body_nonempty, Hbody.
    + intros [= <- <-]. eauto.
Qed.

Lemma plug_nonempty t ctx : t <> E -> plug t ctx <> E.
Proof.
  revert t. induction ctx as [|f ctx IH]; intros t Ht; simpl; [done|].
  apply IH. by destruct f.
Qed.

Lemma blacken_root_spec s t ctx :
  repz s t ctx -> t <> E ->
  exists s', set_is_red s (root s) false = Ok s'
    /\ repz s' (blacken (plug t ctx)) [].
Proof.
  intros Hrep Ht. apply repz_plug in Hrep.
  pose proof (plug_nonempty t ctx Ht) as Hne.
  destruct (plug t ctx) as [|a c l k v r]; [done|].
  rewrite (repz_root _ _ Hrep). cbn [ptr_of blacken].
  eapply repz_set_is_red, Hrep.
Qed.

Lemma fix_insert_spec fuel s t ctx t' ctx' :
  repz s t ctx -> t <> E ->
  fix_loop fuel t ctx = Some (t', ctx') ->
  exists s', fix_insert fuel s (ptr_of t) = Ok s'
    /\ repz s' (blacken (plug t' ctx')) [].
Proof.
  intros Hrep Ht Hloop.
  destruct (fix_insert_loop_spec _ _ _ _ _ _ Hrep Ht Hloop) as (s1 & Hs1 & Hrep1).
  unfold fix_insert. rewrite Hs1. cbn [bind].
  apply (blacken_root_spec _ _ _ Hrep1).
  clear - Hloop Ht. revert t ctx Ht Hloop.
  induction fuel as [|fuel IH]; intros t ctx Ht; simpl; [discriminate|].
  destruct (fix_cond ctx).
  - destruct (fix_body t ctx) as [[t1 ctx1]|] eqn:Hbody; [|discriminate].
    apply IH. eapply fix_body_nonempty, Hbody.
  - by intros [= <- <-].
Qed.

Lemma put_spec fuel s k v t t' :
  repz s t [] -> (height t <= fuel)%nat ->
  insert_tree fuel (length (heap s)) k v t = Some t' ->
  exists s', put fuel k v s = Ok s' /\ repz s' t' [].
Proof.
  intros Hrep Hfuel. unfold put, insert_tree.
  rewrite (repz_root _ _ Hrep).
  destruct t as [|a c l kx vx r].
  - intros [= <-]. destruct s as [h rt]. revert Hrep. repz_unfold.
    intros H; sep_split. unfold new_Node. cbn [is_null ptr_of fst snd heap root].
    repeat heap_step. heap_finish.
  - cbn [is_null ptr_of].
    pose proof (put_descend_spec fuel s k v _ [] Hrep Hfuel) as Hd.
    pose proof (descend_repz s k _ [] Hrep) as Hrepd.
    pose proof (descend_on_path k (T a c l kx vx r) [] (Forall_nil_2 _)) as Hpath.
    pose proof (descend_slot k (T a c l kx vx r) []) as Hslot.
    cbn [ctx_ptr ptr_of] in Hd.
    destruct (descend k (T a c l kx vx r) []) as [[|a1 c1 l1 k1 v1 r1] ctx1].
    + rewrite Hd. cbn [bind fst snd] in *.
      destruct (Hslot ctx1 eq_refl) as [[? _]|Hne]; [done|].
      destruct ctx1 as [|f ctx1]; [done|].
      apply Forall_cons in Hpath as [Hf _].
      destruct (put_attach_spec s k v f ctx1 Hrepd Hf) as (s1 & Hs1 & Hrep1).
      rewrite Hs1. cbn [bind fst snd].
      destruct (fix_loop _ _ _) as [[t2 ctx2]|] eqn:Hloop; [|discriminate].
      intros [= <-].
      apply (fix_insert_spec _ _ _ _ _ _ Hrep1); [done|exact Hloop].
    + destruct Hd as (s1 & -> & Hrep1). intros [= <-]. cbn [bind].
      exists s1. split; [reflexivity|].
      exact (proj1 (repz_plug _ _ _) Hrep1).
Qed.

(** ** Preservation of the red-black invariants *)

Lemma red_root_fill f t : red_root (fill f t) = frame_red f.
Proof. by destruct f. Qed.

Lemma red_root_plug t ctx : red_root (plug t ctx) = top_red (red_root t) ctx.
Proof.
  revert t. induction ctx as [|f ctx IH]; intros t; simpl; [done|].
  by rewrite IH, red_root_fill.
Qed.

Lemma zip_inv_fill f t ctx : zip_inv t (f :: ctx) -> zip_inv (fill f t) ctx.
Proof.
  intros (Ht & (Hs & Hf & Hc) & Hhead & Htop & n & Hn & Hs' & Hc').
  simpl in Hhead, Htop.
  unfold zip_inv. rewrite red_root_fill.
  split; [|split; [exact Hc|split; [|split; [exact Htop|]]]].
  - destruct f as [a c k v r|a c l k v]; simpl in *;
      (split; [|tauto]); intros ->; destruct (Hf eq_refl); auto.
  - intros Hcond. destruct (frame_red f) eqn:Ef; [|done].
    destruct (Hf eq_refl) as [_ Hcond']. congruence.
  - exists (if frame_red f then n else S n). split; [|exact Hc'].
    destruct f as [a [|] k v r|a [|] l k v]; simpl in *; auto.
Qed.

Lemma zip_inv_plug t ctx : zip_inv t ctx -> red_black (plug t ctx).
Proof.
  revert t. induction ctx as [|f ctx IH]; intros t H; simpl.
  - destruct H as (Ht & _ & _ & Htop & n & Hn & _). simpl in Htop.
    repeat split; eauto.
  - apply IH, zip_inv_fill, H.
Qed.

Lemma zip_inv_left a c l k v r ctx :
  zip_inv (T a c l k v r) ctx -> zip_inv l (InLeft a c k v r :: ctx).
Proof.
  intros ((Hc & Hl & Hr) & Hctx & Hhead & Htop & n & Hn & Hcn).
  simpl in *. unfold zip_inv. simpl. repeat split; auto.
  - by destruct (Hc H).
  - subst c. destruct (fix_cond ctx); [|done]. by discriminate Hhead.
  - intros ->. by destruct (Hc eq_refl).
  - destruct c.
    + exists n. tauto.
    + destruct n as [|m]; [done|]. exists m. tauto.
Qed.

Lemma zip_inv_right a c l k v r ctx :
  zip_inv (T a c l k v r) ctx -> zip_inv r (InRight a c l k v :: ctx).
Proof.
  intros ((Hc & Hl & Hr) & Hctx & Hhead & Htop & n & Hn & Hcn).
  simpl in *. unfold zip_inv. simpl. repeat split; auto.
  - by destruct (Hc H).
  - subst c. destruct (fix_cond ctx); [|done]. by discriminate Hhead.
  - intros ->. by destruct (Hc eq_refl).
  - destruct c.
    + exists n. tauto.
    + destruct n as [|m]; [done|]. exists m. tauto.
Qed.

Lemma zip_inv_root t : red_black t -> zip_inv t [].
Proof.
  intros (Hroot & Hnrr & n & Hn). unfold zip_inv. simpl.
  repeat split; eauto.
Qed.

Lemma zip_inv_descend k t ctx :
  zip_inv t ctx -> zip_inv (fst (descend k t ctx)) (snd (descend k t ctx)).
Proof.
  revert ctx. induction t as [|a c l IHl kx vx r IHr]; intros ctx H; simpl.
  - exact H.
  - destruct (compare_keys k kx =? 0); [exact H|].
    destruct (compare_keys k kx <? 0).
    + apply IHl, zip_inv_left, H.
    + apply IHr, zip_inv_right, H.
Qed.

Lemma zip_inv_value a c l k v v' r ctx :
  zip_inv (T a c l k v r) ctx -> zip_inv (T a c l k v' r) ctx.
Proof. exact (fun H => H). Qed.

Lemma zip_inv_new new k v ctx :
  zip_inv E ctx -> loop_inv (T new true E k v E) ctx.
Proof.
  intros (_ & Hctx & _ & Htop & n & Hn & Hcn). simpl in *. subst n.
  unfold loop_inv. simpl. repeat split; auto. exists O. auto.
Qed.

Lemma has_bh_blacken t n :
  red_root t = true -> has_bh t n -> has_bh (blacken t) (S n).
Proof. destruct t as [|a [|] l k v r]; simpl; done. Qed.

Lemma no_red_red_blacken t : no_red_red t -> no_red_red (blacken t).
Proof.
  destruct t as [|a c l k v r]; simpl; [done|].
  intros (_ & Hl & Hr). done.
Qed.

Lemma loop_inv_grandparent t ctx :
  loop_inv t ctx -> fix_cond ctx = true ->
  exists f g ctx', ctx = f :: g :: ctx' /\ frame_red f = true
    /\ frame_red g = false.
Proof.
  intros (_ & _ & Hctx & Htop & _) Hcond.
  destruct ctx as [|f ctx1]; [discriminate|]. simpl in Hcond.
  destruct Hctx as (_ & Hf & _). destruct (Hf Hcond) as [_ Hg].
  simpl in Htop. rewrite Hcond in Htop.
  destruct ctx1 as [|g ctx2]; [discriminate|].
  exists f, g, ctx2. auto.
Qed.

Ltac inv_close m :=
  unfold loop_inv; simpl in *;
  split; [reflexivity|];
  split; [intuition congruence|];
  split; [intuition congruence|];
  split; [assumption|];
  exists m; simpl; intuition congruence.

Lemma fix_body_inv t ctx :
  loop_inv t ctx -> fix_cond ctx = true ->
  exists t' ctx', fix_body t ctx = Some (t', ctx')
    /\ loop_inv t' ctx'
    /\ ((length ctx' + 2 = length ctx)%nat
        \/ (fix_cond ctx' = false /\ length ctx' + 1 = length ctx)%nat).
Proof.
  intros Hinv Hcond.
  destruct (loop_inv_grandparent t ctx Hinv Hcond)
    as (f & g & ctx2 & -> & Hf & Hg).
  destruct Hinv as (Hred & Hnrr & Hctx & Htop & n & Hn & Hcn).
  destruct t as [|a c l k v r]; [discriminate|]. simpl in Hred. subst c.
  destruct g as [ga gc gk gv u|ga gc u gk gv]; simpl in Hg; subst gc;
    cbn [fix_body];
    destruct u as [|ua [|] ul uk uv ur]; cbn [red_root];
    destruct f as [p pc pk pv pr|p pc pl pk pv]; simpl in Hf; subst pc;
    eexists _, _; (split; [reflexivity|]).
  all: split; [|first [left; simpl; lia | right; simpl; split; [reflexivity|lia]]].
  all: first [ by inv_close n | by inv_close (S n) ].
Qed.

Lemma fix_loop_total fuel t ctx :
  loop_inv t ctx -> (length ctx + 2 <= 2 * fuel)%nat ->
  exists t' ctx', fix_loop fuel t ctx = Some (t', ctx')
    /\ loop_inv t' ctx' /\ fix_cond ctx' = false.
Proof.
  revert t ctx. induction fuel as [|fuel IH]; intros t ctx Hinv Hfuel.
  - lia.
  - cbn [fix_loop]. destruct (fix_cond ctx) eqn:Hcond; [|eauto].
    destruct (fix_body_inv t ctx Hinv Hcond)
      as (t1 & ctx1 & -> & Hinv1 & [Hlen|[Hcond1 Hlen]]).
    + apply IH; [exact Hinv1|lia].
    + destruct fuel as [|fuel]; [destruct ctx as [|? [|? ?]]; simpl in *; lia|].
      cbn [fix_loop]. rewrite Hcond1. eauto.
Qed.

Lemma blacken_black t : red_root t = false -> blacken t = t.
Proof. destruct t as [|a [|] l k v r]; simpl; congruence. Qed.

Lemma loop_exit t ctx :
  loop_inv t ctx -> fix_cond ctx = false -> red_black (blacken (plug t ctx)).
Proof.
  intros (Hred & Hnrr & Hctx & Htop & n & Hn & Hcn) Hcond.
  destruct ctx as [|f ctx].
  - destruct t as [|a c l k v r]; [discriminate|]. simpl in *. subst c.
    unfold red_black. simpl. repeat split; try tauto. exists (S n). exact Hn.
  - assert (Hz : zip_inv t (f :: ctx)).
    { unfold zip_inv. rewrite Hcond.
      split; [exact Hnrr|]. split; [exact Hctx|]. split; [done|].
      split; [exact Htop|]. eauto. }
    apply zip_inv_plug in Hz. rewrite blacken_black; [exact Hz|].
    by destruct Hz.
Qed.

Lemma descend_plug k t ctx :
  plug (fst (descend k t ctx)) (snd (descend k t ctx)) = plug t ctx.
Proof.
  revert ctx. induction t as [|a c l IHl kx vx r IHr]; intros ctx; simpl.
  - reflexivity.
  - destruct (compare_keys k kx =? 0); [reflexivity|].
    destruct (compare_keys k kx <? 0); [apply IHl|apply IHr].
Qed.

Theorem insert_tree_red_black fuel new k v t :
  red_black t -> (height t < fuel)%nat ->
  exists t', insert_tree fuel new k v t = Some t' /\ red_black t'.
Proof.
  intros Hrb Hfuel. unfold insert_tree.
  destruct t as [|a c l kx vx r].
  - eexists. split; [reflexivity|]. unfold red_black. simpl.
    repeat split; try done. by exists 1%nat.
  - pose proof (zip_inv_descend k _ [] (zip_inv_root _ Hrb)) as Hz.
    pose proof (descend_length k (T a c l kx vx r) []) as Hlen.
    destruct (descend k (T a c l kx vx r) []) as [[|a1 c1 l1 k1 v1 r1] ctx1];
      cbn [fst snd] in *.
    + apply (zip_inv_new new k v) in Hz.
      destruct (fix_loop_total fuel _ _ Hz) as (t2 & ctx2 & -> & Hinv2 & Hcond2);
        [simpl in Hlen, Hfuel; lia|].
      eexists. split; [reflexivity|]. by apply loop_exit.
    + eexists. split; [reflexivity|].
      apply zip_inv_plug, (zip_inv_value _ _ _ _ v1), Hz.
Qed.

(** ** Lookup after insertion *)

Arguments compare_keys : simpl never.

Lemma byte_lt_irrefl x : byte_lt x x = false.
Proof. unfold byte_lt. apply N.ltb_irrefl. Qed.

Lemma compare_loop_refl fuel i m a : compare_loop fuel i m a a = None.
Proof.
  revert i. induction fuel as [|fuel IH]; intros i; simpl; [done|].
  destruct (i <? m); [|done]. by rewrite byte_lt_irrefl.
Qed.

Lemma compare_keys_refl a : compare_keys a a = 0.
Proof.
  unfold compare_keys. rewrite compare_loop_refl.
  by rewrite Z.ltb_irrefl.
Qed.

Lemma lookup_plug_congr k t1 t2 ctx :
  lookup_tree k t1 = lookup_tree k t2 ->
  lookup_tree k (plug t1 ctx) = lookup_tree k (plug t2 ctx).
Proof.
  revert t1 t2. induction ctx as [|f ctx IH]; intros t1 t2 H; simpl; [done|].
  apply IH. destruct f; simpl; by rewrite H.
Qed.

Lemma lookup_fill_path k f t :
  frame_on_path k f -> lookup_tree k (fill f t) = lookup_tree k t.
Proof. destruct f; simpl; intros [-> ->]; reflexivity. Qed.

Lemma lookup_plug_path k t ctx :
  on_path k ctx -> lookup_tree k (plug t ctx) = lookup_tree k t.
Proof.
  revert t. induction ctx as [|f ctx IH]; intros t H; simpl; [done|].
  apply Forall_cons in H as [Hf Hctx].
  rewrite (IH _ Hctx). by apply lookup_fill_path.
Qed.

Lemma lookup_blacken k t : lookup_tree k (blacken t) = lookup_tree k t.
Proof. by destruct t. Qed.

Lemma fix_body_lookup k t ctx t' ctx' :
  on_path k ctx ->
  fix_body t ctx = Some (t', ctx') ->
  lookup_tree k (plug t' ctx') = lookup_tree k (plug t ctx)
  /\ (on_path k ctx' \/ fix_cond ctx' = false).
Proof.
  intros Hpath Hbody.
  destruct t as [|n cn l kn vn r]; [discriminate|].
  destruct ctx as [|f [|g ctx2]];
    try discriminate; try (destruct f; discriminate).
  apply Forall_cons in Hpath as [Hf Hpath].
  apply Forall_cons in Hpath as [Hg Hpath].
  destruct g as [g cg kg vg u|g cg u kg vg]; cbn [fix_body] in Hbody;
    destruct (red_root u);
    destruct f as [p cp kp vp pr|p cp pl kp vp];
    injection Hbody as <- <-;
    destruct Hf as [Hf0 Hf1]; destruct Hg as [Hg0 Hg1];
    (split; [|auto]);
    cbn [plug fill set_frame_red]; apply lookup_plug_congr;
    cbn [lookup_tree]; rewrite ?Hf0, ?Hf1, ?Hg0, ?Hg1;
    try reflexivity;
    destruct (compare_keys k kn =? 0); try reflexivity;
    destruct (compare_keys k kn <? 0); try reflexivity;
    rewrite ?Hf0, ?Hf1, ?Hg0, ?Hg1; reflexivity.
Qed.

Lemma fix_loop_lookup k fuel t ctx t' ctx' :
  on_path k ctx \/ fix_cond ctx = false ->
  fix_loop fuel t ctx = Some (t', ctx') ->
  lookup_tree k (plug t' ctx') = lookup_tree k (plug t ctx).
Proof.
  revert t ctx. induction fuel as [|fuel IH]; intros t ctx Hpath;
    cbn [fix_loop]; [discriminate|].
  destruct (fix_cond ctx) eqn:Hcond.
  - destruct Hpath as [Hpath|?]; [|discriminate].
    destruct (fix_body t ctx) as [[t1 ctx1]|] eqn:Hbody; [|discriminate].
    destruct (fix_body_lookup k _ _ _ _ Hpath Hbody) as [Heq Hpath1].
    intros Hloop. rewrite <- Heq. by apply IH.
  - by intros [= <- <-].
Qed.

Theorem insert_tree_lookup fuel new k v t t' :
  insert_tree fuel new k v t = Some t' ->
  exists a, lookup_tree k t' = Some (a, v).
Proof.
  unfold insert_tree. destruct t as [|a c l kx vx r].
  - intros [= <-]. exists new. simpl. by rewrite compare_keys_refl.
  - pose proof (descend_on_path k (T a c l kx vx r) [] (Forall_nil_2 _))
      as Hpath.
    pose proof (descend_found k (T a c l kx vx r) []) as Hfound.
    destruct (descend k (T a c l kx vx r) []) as [[|a1 c1 l1 k1 v1 r1] ctx1];
      cbn [fst snd] in *.
    + destruct (fix_loop _ _ _) as [[t2 ctx2]|] eqn:Hloop; [|discriminate].
      intros [= <-]. exists new.
      rewrite lookup_blacken.
      rewrite (fix_loop_lookup k _ _ _ _ _ (or_introl Hpath) Hloop).
      rewrite (lookup_plug_path _ _ _ Hpath).
      simpl. by rewrite compare_keys_refl.
    + intros [= <-]. exists a1.
      rewrite (lookup_plug_path _ _ _ Hpath).
      simpl. by rewrite (Hfound _ _ _ _ _ _ _ eq_refl).
Qed.

(** ** get against the abstract tree *)

Lemma height_le_addrs t : (height t <= length (addrs t))%nat.
Proof.
  induction t as [|a c l IHl k v r IHr]; simpl; [lia|].
  rewrite length_app. simpl. lia.
Qed.

Lemma NoDup_bounded_length (l : list nat) (n : nat) :
  NoDup l -> (forall x, x ∈ l -> (x < n)%nat) -> (length l <= n)%nat.
Proof.
  intros Hnd Hlt.
  replace n with (length (seq 0 n)) at 1 by apply length_seq.
  apply submseteq_length, NoDup_submseteq; [exact Hnd|].
  intros x Hx. apply elem_of_seq. specialize (Hlt x Hx). lia.
Qed.

Lemma represents_height s t :
  represents s t -> (height t <= length (heap s))%nat.
Proof.
  unfold represents. repz_unfold. intros (Hrep & _ & _ & Hnd).
  rewrite app_nil_r in Hnd.
  etrans; [apply height_le_addrs|].
  apply NoDup_bounded_length; [exact Hnd|].
  intros x Hx. eapply rep_lt; eauto.
Qed.

Lemma get_spec fuel s k out t :
  represents s t -> (height t <= fuel)%nat ->
  get fuel k out s =
  Ok (match lookup_tree k t with
      | Some (_, v) => (true, v)
      | None => (false, out)
      end).
Proof.
  intros Hrep Hfuel. unfold get.
  rewrite (repz_root _ _ Hrep).
  rewrite (find_node_spec fuel s k t [] Hrep Hfuel). cbn [bind].
  rewrite (lookup_tree_descend k t []).
  pose proof (descend_repz s k t [] Hrep) as Hd.
  destruct (descend k t []) as [[|a c l kx vx r] ctx]; cbn [fst snd] in *.
  - reflexivity.
  - cbn [ptr_of is_null].
    rewrite (get_value_ok _ _ _ (repz_lookup _ _ _ _ _ _ _ _ Hd)).
    reflexivity.
Qed.

(** ** More fuel does not change a result *)

Lemma find_node_mono fuel fuel' s p k r :
  find_node fuel s p k = Ok r -> (fuel <= fuel')%nat ->
  find_node fuel' s p k = Ok r.
Proof.
  revert fuel' p. induction fuel as [|fuel IH]; intros fuel' p H Hle.
  - destruct p; [discriminate|]. by destruct fuel'.
  - destruct fuel' as [|fuel']; [lia|].
    destruct p as [a|]; [|exact H].
    cbn [find_node] in *.
    destruct (get_key s (Some a)) as [nk| |]; cbn [bind] in *; try discriminate.
    destruct (compare_keys k nk =? 0); [exact H|].
    destruct (compare_keys k nk <? 0).
    + destruct (get_left s (Some a)) as [l| |]; cbn [bind] in *;
        try discriminate. apply IH; [exact H|lia].
    + destruct (get_right s (Some a)) as [l| |]; cbn [bind] in *;
        try discriminate. apply IH; [exact H|lia].
Qed.

Lemma put_descend_mono fuel fuel' s k v par p r :
  put_descend fuel s k v par p = Ok r -> (fuel <= fuel')%nat ->
  put_descend fuel' s k v par p = Ok r.
Proof.
  revert fuel' par p. induction fuel as [|fuel IH]; intros fuel' par p H Hle.
  - destruct p; [discriminate|]. by destruct fuel'.
  - destruct fuel' as [|fuel']; [lia|].
    destruct p as [a|]; [|exact H].
    cbn [put_descend] in *.
    destruct (get_key s (Some a)) as [nk| |]; cbn [bind] in *; try discriminate.
    destruct (compare_keys k nk =? 0); [exact H|].
    destruct (compare_keys k nk <? 0).
    + destruct (get_left s (Some a)) as [l| |]; cbn [bind] in *;
        try discriminate. apply IH; [exact H|lia].
    + destruct (get_right s (Some a)) as [l| |]; cbn [bind] in *;
        try discriminate. apply IH; [exact H|lia].
Qed.

Lemma fix_insert_loop_mono fuel fuel' s node r :
  fix_insert_loop fuel s node = Ok r -> (fuel <= fuel')%nat ->
  fix_insert_loop fuel' s node = Ok r.
Proof.
  revert fuel' s node. induction fuel as [|fuel IH]; intros fuel' s node H Hle.
  - discriminate.
  - destruct fuel' as [|fuel']; [lia|].
    cbn [fix_insert_loop] in *.
    destruct (fix_insert_cond s node) as [[|]| |]; cbn [bind] in *;
      try discriminate; [|exact H].
    destruct (fix_insert_body s node) as [[s1 n1]| |]; cbn [bind] in *;
      try discriminate.
    apply IH; [exact H|lia].
Qed.

Lemma fix_insert_mono fuel fuel' s node r :
  fix_insert fuel s node = Ok r -> (fuel <= fuel')%nat ->
  fix_insert fuel' s node = Ok r.
Proof.
  unfold fix_insert. intros H Hle.
  destruct (fix_insert_loop fuel s node) as [s1| |] eqn:Hloop;
    cbn [bind] in *; try discriminate.
  by rewrite (fix_insert_loop_mono _ _ _ _ _ Hloop Hle).
Qed.

Lemma put_mono fuel fuel' k v s r :
  put fuel k v s = Ok r -> (fuel <= fuel')%nat -> put fuel' k v s = Ok r.
Proof.
  unfold put. intros H Hle.
  destruct (is_null (root s)); [exact H|].
  destruct (put_descend fuel s k v None (root s)) as [d| |] eqn:Hd;
    cbn [bind] in *; try discriminate.
  rewrite (put_descend_mono _ _ _ _ _ _ _ _ Hd Hle). cbn [bind].
  destruct d as [s1|par]; [exact H|].
  destruct (put_attach s k v par) as [sn| |]; cbn [bind] in *;
    try discriminate.
  by apply (fix_insert_mono fuel).
Qed.

Lemma get_mono fuel fuel' k out s r :
  get fuel k out s = Ok r -> (fuel <= fuel')%nat -> get fuel' k out s = Ok r.
Proof.
  unfold get. intros H Hle.
  destruct (find_node fuel s (root s) k) as [n| |] eqn:Hf;
    cbn [bind] in *; try discriminate.
  by rewrite (find_node_mono _ _ _ _ _ _ Hf Hle).
Qed.

(** ** [put] on a well-formed state *)

Lemma put_wf fuel k v s t :
  represents s t -> red_black t -> (length (heap s) < fuel)%nat ->
  exists s' t', put fuel k v s = Ok s'
    /\ insert_tree fuel (length (heap s)) k v t = Some t'
    /\ represents s' t' /\ red_black t'.
Proof.
  intros Hrep Hrb Hfuel.
  pose proof (represents_height s t Hrep) as Hh.
  destruct (insert_tree_red_black fuel (length (heap s)) k v t Hrb)
    as (t' & Hins & Hrb'); [lia|].
  destruct (put_spec fuel s k v t t' Hrep) as (s' & Hput & Hrep');
    [lia|exact Hins|].
  eauto 10.
Qed.

Lemma put_wf_any fuel k v s s' t :
  represents s t -> red_black t -> put fuel k v s = Ok s' ->
  exists fuel' t', insert_tree fuel' (length (heap s)) k v t = Some t'
    /\ represents s' t' /\ red_black t'.
Proof.
  intros Hrep Hrb Hput.
  destruct (put_wf (Nat.max fuel (S (length (heap s)))) k v s t Hrep Hrb)
    as (s1 & t' & Hput1 & Hins & Hrep' & Hrb'); [lia|].
  rewrite (put_mono _ _ _ _ _ _ Hput) in Hput1 by lia.
  injection Hput1 as <-. eauto 10.
Qed.

Lemma empty_tree_wf : wf empty_tree.
Proof.
  exists E. split.
  - unfold represents, empty_tree. repz_unfold. repeat split; constructor.
  - unfold red_black. simpl. repeat split. by exists O.
Qed.

Lemma reachable_wf s : reachable s -> wf s.
Proof.
  induction 1 as [|s fuel k v s' _ (t & Hrep & Hrb) Hput].
  - apply empty_tree_wf.
  - destruct (put_wf_any _ _ _ _ _ _ Hrep Hrb Hput)
      as (fuel' & t' & _ & Hrep' & Hrb').
    by exists t'.
Qed.

(** ** The loop states of fix_insert *)

Lemma loop_inv_nonempty t ctx : loop_inv t ctx -> t <> E.
Proof. intros (Hred & _) ->. discriminate. Qed.

Lemma depth_spec fuel s t ctx :
  repz s t ctx -> t <> E -> (length ctx < fuel)%nat ->
  depth fuel s (ptr_of t) = Ok (length ctx).
Proof.
  revert s t ctx. induction fuel as [|fuel IH]; intros s t ctx Hrep Ht Hfuel;
    [lia|].
  destruct t as [|a c l k v r]; [done|].
  cbn [depth ptr_of].
  rewrite (get_parent_ok _ _ _ (repz_lookup _ _ _ _ _ _ _ _ Hrep)).
  cbn [bind parent].
  destruct ctx as [|f ctx]; [reflexivity|].
  cbn [ctx_ptr is_null].
  apply repz_fill in Hrep.
  assert (Hf : ptr_of (fill f (T a c l k v r)) = Some (frame_addr f))
    by (by destruct f).
  rewrite <- Hf, (IH s _ ctx Hrep); [reflexivity| by destruct f |simpl in *; lia].
Qed.

Lemma height_plug t ctx : (length ctx + height t <= height (plug t ctx))%nat.
Proof.
  revert t. induction ctx as [|f ctx IH]; intros t; simpl; [lia|].
  etrans; [|apply IH]. destruct f; simpl; lia.
Qed.

Lemma repz_depth_bound s t ctx :
  repz s t ctx -> t <> E -> (length ctx < length (heap s))%nat.
Proof.
  intros Hrep Ht. apply repz_plug in Hrep.
  pose proof (represents_height _ _ Hrep).
  pose proof (height_plug t ctx).
  destruct t; [done|]. simpl in *. lia.
Qed.

Lemma loop_state_depth s node :
  loop_state s node ->
  exists t ctx, repz s t ctx /\ ptr_of t = node /\ loop_inv t ctx
    /\ depth (S (length (heap s))) s node = Ok (length ctx).
Proof.
  intros (t & ctx & Hrep & Hptr & Hinv). exists t, ctx.
  split; [exact Hrep|]. split; [exact Hptr|]. split; [exact Hinv|].
  pose proof (loop_inv_nonempty _ _ Hinv) as Ht.
  pose proof (repz_depth_bound _ _ _ Hrep Ht).
  rewrite <- Hptr. apply depth_spec; [assumption..|lia].
Qed.

Lemma loop_state_cond s node :
  loop_state s node ->
  exists t ctx, repz s t ctx /\ ptr_of t = node /\ loop_inv t ctx
    /\ fix_insert_cond s node = Ok (fix_cond ctx).
Proof.
  intros (t & ctx & Hrep & Hptr & Hinv). exists t, ctx.
  split; [exact Hrep|]. split; [exact Hptr|]. split; [exact Hinv|].
  pose proof (loop_inv_nonempty _ _ Hinv) as Ht.
  destruct t as [|a c l k v r]; [done|]. rewrite <- Hptr.
  eapply fix_insert_cond_spec, Hrep.
Qed.

Lemma loop_state_step s node :
  loop_state s node -> fix_insert_cond s node = Ok true ->
  exists s' node', fix_insert_body s node = Ok (s', node')
    /\ loop_state s' node'
    /\ (fix_insert_cond s' node' = Ok false
        \/ exists d, depth (S (length (heap s'))) s' node' = Ok d
             /\ depth (S (length (heap s))) s node = Ok (d + 2)%nat).
Proof.
  intros Hst Hcond.
  destruct (loop_state_depth _ _ Hst) as (t & ctx & Hrep & Hptr & Hinv & Hd).
  destruct (loop_state_cond _ _ Hst) as (t0 & ctx0 & Hrep0 & Hptr0 & Hinv0 & Hc).
  assert (Hcond' : fix_cond ctx = true).
  { destruct t as [|a c l k v r]; [by destruct (loop_inv_nonempty _ _ Hinv)|].
    simpl in Hptr. subst node.
    rewrite (fix_insert_cond_spec _ _ _ _ _ _ _ _ Hrep) in Hcond. congruence. }
  destruct (fix_body_inv t ctx Hinv Hcond')
    as (t' & ctx' & Hbody & Hinv' & Hlen).
  destruct (fix_insert_body_spec _ _ _ _ _ Hrep Hbody) as (s' & Hs' & Hrep').
  rewrite Hptr in Hs'.
  exists s', (ptr_of t'). split; [exact Hs'|].
  assert (Hst' : loop_state s' (ptr_of t')) by (exists t', ctx'; auto).
  split; [exact Hst'|].
  destruct Hlen as [Hlen|[Hcond1 Hlen]].
  - right. exists (length ctx').
    destruct (loop_state_depth _ _ Hst') as (t1 & ctx1 & Hrep1 & Hptr1 & _ & Hd1).
    pose proof (loop_inv_nonempty _ _ Hinv') as Ht'.
    pose proof (repz_depth_bound _ _ _ Hrep' Ht').
    rewrite (depth_spec _ _ _ _ Hrep' Ht') by lia.
    split; [reflexivity|]. rewrite Hd. f_equal. lia.
  - left. pose proof (loop_inv_nonempty _ _ Hinv') as Ht'.
    destruct t' as [|a c l k v r]; [done|]. cbn [ptr_of].
    rewrite (fix_insert_cond_spec _ _ _ _ _ _ _ _ Hrep'). by rewrite Hcond1.
Qed.

Lemma loop_state_rtc x y :
  rtc fix_iter x y -> loop_state (fst x) (snd x) -> loop_state (fst y) (snd y).
Proof.
  induction 1 as [|x y z [Hcond Hbody] _ IH]; [done|].
  intros Hst. apply IH.
  destruct (loop_state_step _ _ Hst Hcond) as (s' & node' & Hb & Hst' & _).
  rewrite Hbody in Hb. injection Hb as ->. exact Hst'.
Qed.

Lemma top_ptr_in a ctx b :
  top_ptr (Some a) ctx = Some b -> b = a \/ b ∈ ctx_addrs ctx.
Proof.
  revert a. induction ctx as [|f ctx IH]; intros a; simpl.
  - intros [= ->]. by left.
  - intros H. right. apply elem_of_app.
    destruct (IH _ H) as [->|Hin]; [left|by right].
    destruct f; simpl; left.
Qed.

Lemma loop_state_grandparent s node :
  loop_state s node -> fix_insert_cond s node = Ok true ->
  exists p g,
    get_parent s node = Ok (Some p)
    /\ get_is_red s (Some p) = Ok true
    /\ root s <> Some p
    /\ get_grandparent s node = Ok (Some g)
    /\ is_Some (heap s !! g).
Proof.
  intros Hst Hcond.
  destruct (loop_state_cond _ _ Hst) as (t & ctx & Hrep & Hptr & Hinv & Hc).
  assert (Hcond' : fix_cond ctx = true) by congruence.
  destruct (loop_inv_grandparent t ctx Hinv Hcond')
    as (f & g & ctx2 & -> & Hf & Hg).
  destruct t as [|n c l k v r]; [by destruct (loop_inv_nonempty _ _ Hinv)|].
  simpl in Hptr. subst node.
  exists (frame_addr f), (frame_addr g).
  destruct s as [h rt]. revert Hrep.
  destruct f as [p pc pk pv pr|p pc pl pk pv];
    destruct g as [ga gc gk gv u|ga gc u gk gv];
    repz_unfold; intros H; sep_split; simpl in Hf; subst pc;
    unfold get_grandparent; repeat heap_step.
  all: repeat split; eauto.
  all: intros Hroot; cbn [root] in Hroot;
    match goal with
    | H : _ = top_ptr _ _ |- _ =>
        rewrite Hroot in H; symmetry in H; apply top_ptr_in in H as [->|Hin]
    end; try done;
    repeat match goal with
           | H : ?a ∉ ?l, H' : ?a ∈ ?l |- _ => destruct (H H')
           end.
Qed.

Lemma attach_loop_state fuel k v s s1 new_node :
  wf s -> put_calls_fix_insert fuel k v s s1 new_node ->
  loop_state s1 new_node.
Proof.
  intros (t & Hrep & Hrb) (Hroot & par & Hd & Hat).
  unfold represents in Hrep.
  rewrite (repz_root _ _ Hrep) in Hroot, Hd.
  pose proof (put_descend_spec (Nat.max fuel (height t)) s k v t [] Hrep) as Hspec.
  pose proof (descend_repz s k t [] Hrep) as Hrepd.
  pose proof (zip_inv_descend k t [] (zip_inv_root _ Hrb)) as Hz.
  pose proof (descend_on_path k t [] (Forall_nil_2 _)) as Hpath.
  pose proof (descend_slot k t []) as Hslot.
  cbn [ctx_ptr] in Hspec.
  apply (put_descend_mono _ (Nat.max fuel (height t))) in Hd; [|lia].
  destruct (descend k t []) as [[|a c l kx vx r] ctx1]; cbn [fst snd] in *.
  - rewrite Hspec in Hd by lia. injection Hd as <-.
    destruct (Hslot ctx1 eq_refl) as [[-> _]|Hne]; [discriminate|].
    destruct ctx1 as [|f ctx1]; [done|].
    apply Forall_cons in Hpath as [Hf _].
    destruct (put_attach_spec s k v f ctx1 Hrepd Hf) as (s' & Hs' & Hrep').
    rewrite Hat in Hs'. injection Hs' as <- ->.
    eexists _, _. split; [exact Hrep'|]. split; [reflexivity|].
    by apply zip_inv_new.
  - destruct Hspec as (s' & Hs' & _); [lia|]. congruence.
Qed.

Lemma loop_state_exit s node :
  loop_state s node -> fix_insert_cond s node = Ok false ->
  exists s' t', set_is_red s (root s) false = Ok s'
    /\ represents s' t' /\ red_black t'.
Proof.
  intros Hst Hcond.
  destruct (loop_state_cond _ _ Hst) as (t & ctx & Hrep & Hptr & Hinv & Hc).
  assert (Hcond' : fix_cond ctx = false) by congruence.
  destruct (blacken_root_spec s t ctx Hrep (loop_inv_nonempty _ _ Hinv))
    as (s' & Hs' & Hrep').
  exists s', (blacken (plug t ctx)). split; [exact Hs'|].
  split; [exact Hrep'|]. by apply loop_exit.
Qed.

Lemma loop_state_total fuel s node :
  loop_state s node ->
  (fix_insert fuel s node = OutOfFuel
   \/ exists s', fix_insert fuel s node = Ok s' /\ wf s')
  /\ forall d, depth (S (length (heap s))) s node = Ok d ->
       (d + 2 <= 2 * fuel)%nat ->
       exists s', fix_insert fuel s node = Ok s' /\ wf s'.
Proof.
  unfold fix_insert.
  revert s node. induction fuel as [|fuel IH]; intros s node Hst.
  - split; [by left|]. intros; lia.
  - cbn [fix_insert_loop].
    destruct (loop_state_cond _ _ Hst) as (t & ctx & Hrep & Hptr & Hinv & Hc).
    destruct (fix_cond ctx) eqn:Hcond.
    + destruct (loop_state_step _ _ Hst Hc)
        as (s' & node' & Hbody & Hst' & Hmeasure).
      rewrite Hc, Hbody. cbn [bind fst snd].
      destruct (IH s' node' Hst') as [IH1 IH2].
      split; [exact IH1|].
      intros d Hd Hfuel.
      destruct Hmeasure as [Hexit|(d' & Hd' & Hd2)].
      * destruct fuel as [|fuel].
        { destruct (loop_state_depth _ _ Hst)
            as (t1 & ctx1 & Hrep1 & Hptr1 & Hinv1 & Hd1).
          destruct (loop_inv_grandparent t ctx Hinv Hcond)
            as (f & g & ctx2 & -> & _).
          assert (Hdd : depth (S (length (heap s))) s node
                        = Ok (length (f :: g :: ctx2))).
          { rewrite <- Hptr. apply depth_spec; [exact Hrep| |].
            - by apply (loop_inv_nonempty _ _ Hinv).
            - pose proof (repz_depth_bound _ _ _ Hrep
                            (loop_inv_nonempty _ _ Hinv)). lia. }
          rewrite Hdd in Hd. injection Hd as <-. simpl in Hfuel. lia. }
        cbn [fix_insert_loop]. rewrite Hexit. cbn [bind].
        destruct (loop_state_exit _ _ Hst' Hexit) as (s2 & t2 & Hs2 & Hr2 & Hb2).
        exists s2. split; [exact Hs2|]. by exists t2.
      * apply (IH2 d' Hd'). rewrite Hd2 in Hd. injection Hd as <-. lia.
    + rewrite Hc. cbn [bind].
      destruct (loop_state_exit _ _ Hst Hc) as (s2 & t2 & Hs2 & Hr2 & Hb2).
      assert (exists s', set_is_red s (root s) false = Ok s' /\ wf s')
        by (exists s2; split; [exact Hs2|by exists t2]).
      split; [by right|]. auto.
Qed.

Lemma has_bh_black_counts t n :
  has_bh t n -> Forall (fun m => m = n) (black_counts t).
Proof.
  revert n. induction t as [|a c l IHl k v r IHr]; intros n; simpl.
  - intros ->. by constructor.
  - destruct c.
    + intros [Hl Hr]. apply Forall_map, Forall_app. split; auto.
    + destruct n as [|m]; [done|]. intros [Hl Hr].
      apply Forall_map, Forall_app.
      split; (eapply Forall_impl; [eauto|]); simpl; intros; congruence.
Qed.

(** ** C1 *)

(** C1: on every well-formed state, [put k v] returns, and whenever it has
    returned a state, [get k] on that state returns [true] and stores
    exactly [v] in the output buffer. *)
Theorem put_then_get (s : State) (k v : list byte) :
  wf s ->
  (exists s', put (S (length (heap s))) k v s = Ok s')
  /\ forall fuel s',
       put fuel k v s = Ok s' ->
       forall fuel' out_value,
         (length (heap s') <= fuel')%nat ->
         get fuel' k out_value s' = Ok (true, v).
Proof.
  intros (t & Hrep & Hrb). split.
  - destruct (put_wf (S (length (heap s))) k v s t Hrep Hrb)
      as (s' & _ & Hput & _); [lia|]. eauto.
  - intros fuel s' Hput fuel' out_value Hfuel.
    destruct (put_wf_any _ _ _ _ _ _ Hrep Hrb Hput)
      as (fuel0 & t' & Hins & Hrep' & _).
    destruct (insert_tree_lookup _ _ _ _ _ _ Hins) as (a & Hlook).
    rewrite (get_spec fuel' s' k out_value t' Hrep').
    + by rewrite Hlook.
    + pose proof (represents_height _ _ Hrep'). lia.
Qed.

(** ** C2 *)

(** C2: every state reachable from the empty tree by calls of [put] holds a
    tree whose root is black, in which no red node has a red child, and in
    which all paths from the root to an empty position count the same
    number of black nodes. *)
Theorem reachable_red_black (s : State) :
  reachable s ->
  exists t, represents s t
    /\ red_root t = false
    /\ no_red_red t
    /\ exists n, Forall (fun m => m = n) (black_counts t).
Proof.
  intros Hreach. destruct (reachable_wf s Hreach) as (t & Hrep & Hroot & Hnrr & n & Hn).
  exists t. split; [exact Hrep|]. split; [exact Hroot|]. split; [exact Hnrr|].
  exists n. by apply has_bh_black_counts.
Qed.

(** ** C9 *)

(** C9: when [get] returns [false], the output buffer is what it was before
    the call. *)
Theorem get_miss_keeps_out_value (fuel : nat) (k out_value : list byte)
    (s : State) (out' : list byte) :
  get fuel k out_value s = Ok (false, out') -> out' = out_value.
Proof.
  unfold get.
  destruct (find_node fuel s (root s) k) as [[a|]| |]; cbn [bind is_null];
    try discriminate.
  - destruct (get_value s (Some a)); cbn [bind]; discriminate.
  - by intros [= <-].
Qed.

(** ** C8 and C10 *)

(** C8: when [put] calls [fix_insert] on a well-formed state, at every
    iteration of the loop whose test succeeds the parent of [node] is a red
    node that is not the root and the grandparent is a node of the heap, and
    [fix_insert] never dereferences a null pointer. *)
Theorem fix_insert_grandparent_exists (s : State) (fuel : nat)
    (k v : list byte) (s1 : State) (new_node : ptr) :
  wf s ->
  put_calls_fix_insert fuel k v s s1 new_node ->
  (forall s' node,
     rtc fix_iter (s1, new_node) (s', node) ->
     fix_insert_cond s' node = Ok true ->
     exists p g,
       get_parent s' node = Ok (Some p)
       /\ get_is_red s' (Some p) = Ok true
       /\ root s' <> Some p
       /\ get_grandparent s' node = Ok (Some g)
       /\ is_Some (heap s' !! g))
  /\ forall fuel', fix_insert fuel' s1 new_node <> Fault.
Proof.
  intros Hwf Hcall.
  pose proof (attach_loop_state _ _ _ _ _ _ Hwf Hcall) as Hst.
  split.
  - intros s' node Hrtc Hcond.
    apply loop_state_grandparent; [|exact Hcond].
    exact (loop_state_rtc _ _ Hrtc Hst).
  - intros fuel'.
    destruct (loop_state_total fuel' _ _ Hst) as [[H|(s' & H & _)] _];
      rewrite H; discriminate.
Qed.

(** C10: when [put] calls [fix_insert] on a well-formed state, the call
    returns once the fuel exceeds half the depth of the new node by one;
    and every pass through the loop body either is followed by a failing
    loop test or leaves [node] two levels closer to the root. *)
Theorem fix_insert_terminates (s : State) (fuel : nat)
    (k v : list byte) (s1 : State) (new_node : ptr) :
  wf s ->
  put_calls_fix_insert fuel k v s s1 new_node ->
  (exists d,
     depth (S (length (heap s1))) s1 new_node = Ok d
     /\ forall fuel', (d + 2 <= 2 * fuel')%nat ->
          exists s', fix_insert fuel' s1 new_node = Ok s')
  /\ forall s' node,
       rtc fix_iter (s1, new_node) (s', node) ->
       fix_insert_cond s' node = Ok true ->
       exists s'' node',
         fix_insert_body s' node = Ok (s'', node')
         /\ (fix_insert_cond s'' node' = Ok false
             \/ exists d',
                  depth (S (length (heap s''))) s'' node' = Ok d'
                  /\ depth (S (length (heap s'))) s' node = Ok (d' + 2)%nat).
Proof.
  intros Hwf Hcall.
  pose proof (attach_loop_state _ _ _ _ _ _ Hwf Hcall) as Hst.
  split.
  - destruct (loop_state_depth _ _ Hst) as (t & ctx & _ & _ & _ & Hd).
    exists (length ctx). split; [exact Hd|].
    intros fuel' Hfuel.
    destruct (loop_state_total fuel' _ _ Hst) as [_ H].
    destruct (H _ Hd Hfuel) as (s' & Hs' & _). eauto.
  - intros s' node Hrtc Hcond.
    pose proof (loop_state_rtc _ _ Hrtc Hst) as Hst'.
    destruct (loop_state_step _ _ Hst' Hcond) as (s2 & n2 & Hb & _ & Hm).
    eauto.
Qed.

(** ** Replacing the value of a key that the lookup finds *)

Lemma load_inv s p n :
  load s p = Ok n -> exists a, p = Some a /\ heap s !! a = Some n.
Proof.
  unfold load. destruct p as [a|]; [|discriminate].
  destruct (heap s !! a) as [x|] eqn:Hx; [|discriminate].
  intros [= <-]. eauto.
Qed.

Lemma load_replace_value s a node v p :
  heap s !! a = Some node ->
  load (replace_value s a node v) p =
  if ptr_eqb p (Some a) then Ok (with_value v node) else load s p.
Proof.
  intros Ha. unfold load, replace_value. cbn [heap].
  destruct p as [b|]; [|reflexivity]. cbn [ptr_eqb].
  destruct (Nat.eqb_spec b a) as [->|Hne].
  - rewrite insert_lookup_same by eauto. reflexivity.
  - rewrite list_lookup_insert_ne by auto. reflexivity.
Qed.

Lemma get_key_replace_value s a node v p :
  heap s !! a = Some node ->
  get_key (replace_value s a node v) p = get_key s p.
Proof.
  intros Ha. unfold get_key. rewrite (load_replace_value _ _ _ _ _ Ha).
  destruct (ptr_eqb p (Some a)) eqn:E; [|reflexivity].
  destruct p as [b|]; [|discriminate]. apply Nat.eqb_eq in E as ->.
  by rewrite (load_ok _ _ _ Ha).
Qed.

Lemma get_left_replace_value s a node v p :
  heap s !! a = Some node ->
  get_left (replace_value s a node v) p = get_left s p.
Proof.
  intros Ha. unfold get_left. rewrite (load_replace_value _ _ _ _ _ Ha).
  destruct (ptr_eqb p (Some a)) eqn:E; [|reflexivity].
  destruct p as [b|]; [|discriminate]. apply Nat.eqb_eq in E as ->.
  by rewrite (load_ok _ _ _ Ha).
Qed.

Lemma get_right_replace_value s a node v p :
  heap s !! a = Some node ->
  get_right (replace_value s a node v) p = get_right s p.
Proof.
  intros Ha. unfold get_right. rewrite (load_replace_value _ _ _ _ _ Ha).
  destruct (ptr_eqb p (Some a)) eqn:E; [|reflexivity].
  destruct p as [b|]; [|discriminate]. apply Nat.eqb_eq in E as ->.
  by rewrite (load_ok _ _ _ Ha).
Qed.

Lemma find_node_replace_value fuel s a node v p k :
  heap s !! a = Some node ->
  find_node fuel (replace_value s a node v) p k = find_node fuel s p k.
Proof.
  intros Ha. revert p. induction fuel as [|fuel IH]; intros p; [reflexivity|].
  destruct p as [b|]; [|reflexivity]. cbn [find_node].
  rewrite (get_key_replace_value _ _ _ _ _ Ha).
  rewrite (get_left_replace_value _ _ _ _ _ Ha).
  rewrite (get_right_replace_value _ _ _ _ _ Ha).
  destruct (get_key s (Some b)) as [nk| |]; cbn [bind]; try reflexivity.
  destruct (compare_keys k nk =? 0); [reflexivity|].
  destruct (compare_keys k nk <? 0).
  - destruct (get_left s (Some b)); cbn [bind]; auto.
  - destruct (get_right s (Some b)); cbn [bind]; auto.
Qed.

Lemma put_descend_found fuel s k v par p a :
  find_node fuel s p k = Ok (Some a) ->
  exists node,
    heap s !! a = Some node
    /\ put_descend fuel s k v par p = Ok (Replaced (replace_value s a node v)).
Proof.
  revert par p. induction fuel as [|fuel IH]; intros par p.
  - destruct p; discriminate.
  - destruct p as [b|]; [|discriminate]. cbn [find_node put_descend].
    unfold get_key at 1 2.
    destruct (load s (Some b)) as [n| |] eqn:Hload; cbn [bind];
      try discriminate.
    destruct (load_inv _ _ _ Hload) as (b' & [= <-] & Hb).
    destruct (compare_keys k (key n) =? 0).
    + intros [= <-]. exists n. split; [exact Hb|].
      unfold set_value. rewrite (store_ok _ _ _ _ Hb). reflexivity.
    + destruct (compare_keys k (key n) <? 0).
      * destruct (get_left s (Some b)); cbn [bind]; try discriminate.
        apply IH.
      * destruct (get_right s (Some b)); cbn [bind]; try discriminate.
        apply IH.
Qed.

(** When the lookup of [k] succeeds, [put k v2] returns from inside the
    descent loop (so [fix_insert] is not called) in the state that differs
    from the old one only in the [value] field of the node the lookup found:
    same addresses, keys, links and colours, same number of nodes, same
    root; and [get k] then returns [true] with [v2]. *)
Theorem put_existing_key_replaces_value (s : State) (fuel : nat)
    (k v1 v2 out_value : list byte) :
  get fuel k out_value s = Ok (true, v1) ->
  exists a node,
    find_node fuel s (root s) k = Ok (Some a)
    /\ heap s !! a = Some node
    /\ value node = v1
    /\ put_descend fuel s k v2 None (root s)
       = Ok (Replaced (replace_value s a node v2))
    /\ put fuel k v2 s = Ok (replace_value s a node v2)
    /\ length (heap (replace_value s a node v2)) = length (heap s)
    /\ root (replace_value s a node v2) = root s
    /\ (forall b, b <> a ->
          heap (replace_value s a node v2) !! b = heap s !! b)
    /\ heap (replace_value s a node v2) !! a
       = Some (mkNode (key node) v2 (left node) (right node) (parent node)
                 (is_red node))
    /\ get fuel k out_value (replace_value s a node v2) = Ok (true, v2).
Proof.
  unfold get.
  destruct (find_node fuel s (root s) k) as [[a|]| |] eqn:Hfind;
    cbn [bind is_null]; try discriminate.
  unfold get_value.
  destruct (load s (Some a)) as [n| |] eqn:Hload; cbn [bind]; try discriminate.
  destruct (load_inv _ _ _ Hload) as (a' & [= <-] & Ha).
  intros [= <-].
  destruct (put_descend_found fuel s k v2 None _ _ Hfind) as (node & Ha' & Hd).
  rewrite Ha in Ha'. injection Ha' as <-.
  exists a, n. split; [reflexivity|]. split; [exact Ha|].
  split; [reflexivity|]. split; [exact Hd|].
  assert (Hroot : is_null (root s) = false).
  { destruct (root s); [reflexivity|]. by destruct fuel. }
  split.
  { unfold put. rewrite Hroot, Hd. reflexivity. }
  split; [apply length_insert|]. split; [reflexivity|].
  split.
  { intros b Hb. cbn [replace_value heap]. by apply list_lookup_insert_ne. }
  split.
  { cbn [replace_value heap]. rewrite insert_lookup_same by eauto. reflexivity. }
  cbn [replace_value root].
  change (mkState (<[a:=with_value v2 n]> (heap s)) (root s))
    with (replace_value s a n v2).
  rewrite (find_node_replace_value _ _ _ _ _ _ _ Ha), Hfind.
  cbn [bind is_null].
  rewrite (load_replace_value _ _ _ _ _ Ha), ptr_eqb_refl. reflexivity.
Qed.

(** ** The comparator below and above 2^31 bytes *)

Lemma to_int_small m : 0 <= m < 2 ^ 31 -> to_int m = m.
Proof.
  intros H. unfold to_int.
  rewrite Z.mod_small; [lia|]. change (2 ^ 32) with 4294967296.
  change (2 ^ 31) with 2147483648 in *. lia.
Qed.

Lemma to_int_huge m : 2 ^ 31 <= m < 2 ^ 32 -> to_int m = m - 2 ^ 32.
Proof.
  intros H. unfold to_int.
  change (2 ^ 32) with 4294967296 in *.
  change (2 ^ 31) with 2147483648 in *.
  replace (m + 2147483648) with ((m - 2147483648) + 1 * 4294967296) by lia.
  rewrite Z.mod_add by lia. rewrite Z.mod_small; lia.
Qed.

Lemma to_int_le m : 0 <= m -> to_int m <= m.
Proof.
  intros H. unfold to_int.
  pose proof (Z.mod_le (m + 2 ^ 31) (2 ^ 32)) as Hle.
  change (2 ^ 32) with 4294967296 in *.
  change (2 ^ 31) with 2147483648 in *. lia.
Qed.

Lemma at_index_drop (a : list byte) (j : nat) x rest :
  drop j a = x :: rest -> at_index a (Z.of_nat j) = x.
Proof.
  intros H. unfold at_index. rewrite Nat2Z.id.
  rewrite nth_lookup.
  assert (a !! j = Some x) as ->; [|reflexivity].
  rewrite <- (Nat.add_0_r j), <- lookup_drop, H. reflexivity.
Qed.

Lemma drop_cons_next (a : list byte) (j : nat) x rest :
  drop j a = x :: rest -> drop (S j) a = rest.
Proof.
  intros H. rewrite <- (Nat.add_1_l j), Nat.add_comm, <- drop_drop, H.
  reflexivity.
Qed.

Lemma compare_loop_spec fuel j (a b : list byte) :
  (fuel + j = Nat.min (length a) (length b))%nat ->
  match compare_loop fuel (Z.of_nat j)
          (Z.of_nat (Nat.min (length a) (length b))) a b with
  | Some r => r
  | None => compare_sizes a b
  end = spec_compare (drop j a) (drop j b).
Proof.
  revert j. induction fuel as [|fuel IH]; intros j Hj.
  - cbn [compare_loop]. unfold compare_sizes, size.
    pose proof (length_drop a j) as Ha. pose proof (length_drop b j) as Hb.
    destruct (drop j a) as [|x a'], (drop j b) as [|y b']; simpl in *.
    + assert (length a = length b) as -> by lia. by rewrite Z.ltb_irrefl.
    + destruct (Z.ltb_spec (Z.of_nat (length a)) (Z.of_nat (length b)));
        [done|lia].
    + destruct (Z.ltb_spec (Z.of_nat (length a)) (Z.of_nat (length b)));
        [lia|].
      destruct (Z.ltb_spec (Z.of_nat (length b)) (Z.of_nat (length a)));
        [done|lia].
    + lia.
  - cbn [compare_loop].
    destruct (Z.ltb_spec (Z.of_nat j)
                (Z.of_nat (Nat.min (length a) (length b)))); [|lia].
    pose proof (length_drop a j) as Ha. pose proof (length_drop b j) as Hb.
    destruct (drop j a) as [|x a'] eqn:Ea; [simpl in Ha; lia|].
    destruct (drop j b) as [|y b'] eqn:Eb; [simpl in Hb; lia|].
    rewrite (at_index_drop _ _ _ _ Ea), (at_index_drop _ _ _ _ Eb).
    cbn [spec_compare].
    destruct (byte_lt x y); [reflexivity|].
    destruct (byte_lt y x); [reflexivity|].
    replace (Z.of_nat j + 1) with (Z.of_nat (S j)) by lia.
    rewrite (IH (S j)) by lia.
    by rewrite (drop_cons_next _ _ _ _ Ea), (drop_cons_next _ _ _ _ Eb).
Qed.

Lemma min_size_length (a b : list byte) :
  (if size a <? size b then size a else size b)
  = Z.of_nat (Nat.min (length a) (length b)).
Proof.
  unfold size.
  destruct (Z.ltb_spec (Z.of_nat (length a)) (Z.of_nat (length b))); lia.
Qed.

(** Where the conversion to [int] keeps the shorter size, the loop and the
    size tests after it compute the reference comparison. *)
Lemma compare_keys_no_wrap (a b : list byte) :
  to_int (Z.of_nat (Nat.min (length a) (length b)))
  = Z.of_nat (Nat.min (length a) (length b)) ->
  compare_keys a b = spec_compare a b.
Proof.
  intros Hint. unfold compare_keys. cbv zeta.
  rewrite min_size_length, Hint, Nat2Z.id.
  apply (compare_loop_spec _ O a b). lia.
Qed.

Lemma compare_keys_spec_compare (a b : list byte) :
  Z.min (size a) (size b) < 2 ^ 31 ->
  compare_keys a b = spec_compare a b.
Proof.
  intros Hmin. apply compare_keys_no_wrap, to_int_small.
  unfold size in Hmin. lia.
Qed.

(** Two keys of at least 2^31 and fewer than 2^32 bytes are compared by
    their sizes alone: the [int] that receives the shorter size is
    negative, and the loop is not entered. *)
Lemma compare_keys_huge (a b : list byte) :
  2 ^ 31 <= size a < 2 ^ 32 -> 2 ^ 31 <= size b < 2 ^ 32 ->
  compare_keys a b = compare_sizes a b.
Proof.
  intros Ha Hb. unfold compare_keys. cbv zeta.
  assert (Hneg : to_int (if size a <? size b then size a else size b) < 0).
  { destruct (size a <? size b); rewrite to_int_huge by assumption; lia. }
  destruct (to_int _) as [|p|p]; try lia.
  reflexivity.
Qed.

Lemma size_bytes_of x n : 0 <= n -> size (bytes_of x n) = n.
Proof.
  intros Hn. unfold size, bytes_of. rewrite repeat_length. lia.
Qed.

Lemma bytes_of_cons x n : 0 < n -> bytes_of x n = x :: bytes_of x (n - 1).
Proof.
  intros Hn. unfold bytes_of.
  replace (Z.to_nat n) with (S (Z.to_nat (n - 1))) by lia.
  reflexivity.
Qed.

(** From here on [bytes_of] is never unfolded by a tactic: its unary length
    is far too large to be computed. *)
#[global] Opaque bytes_of.

(** ** C5 *)

(** C5, at two keys of 2^31 bytes that differ in every byte:
    [compare_keys] returns 0 (equal), the reference comparison -1 (less). *)
Theorem compare_keys_equates_distinct_keys :
  compare_keys (bytes_of x00 2147483648) (bytes_of x01 2147483648) = 0
  /\ spec_compare (bytes_of x00 2147483648) (bytes_of x01 2147483648) = -1
  /\ bytes_of x00 2147483648 <> bytes_of x01 2147483648.
Proof.
  split; [|split].
  - rewrite compare_keys_huge.
    + unfold compare_sizes. rewrite !size_bytes_of by lia. reflexivity.
    + rewrite size_bytes_of by lia. split; [reflexivity|reflexivity].
    + rewrite size_bytes_of by lia. split; [reflexivity|reflexivity].
  - rewrite (bytes_of_cons x00), (bytes_of_cons x01) by lia.
    cbn [spec_compare]. reflexivity.
  - rewrite (bytes_of_cons x00), (bytes_of_cons x01) by lia.
    discriminate.
Qed.

(** ** Keys of 2^31 bytes and more *)

Arguments with_value v !n /.
Arguments with_left p !n /.
Arguments with_right p !n /.
Arguments with_parent p !n /.
Arguments with_is_red c !n /.

Lemma put_all_stuck fuel kvs (r : result State) s' :
  (forall s, r <> Ok s) ->
  fold_left (fun r kv => let* s := r in put fuel (fst kv) (snd kv) s) kvs r
  <> Ok s'.
Proof.
  revert r. induction kvs as [|kv kvs IH]; intros r Hr; simpl; [apply Hr|].
  apply IH. intros s. destruct r as [s0| |]; [by destruct (Hr s0)|done..].
Qed.

Lemma put_all_reachable fuel kvs s s' :
  reachable s -> put_all fuel kvs s = Ok s' -> reachable s'.
Proof.
  unfold put_all. revert s. induction kvs as [|[k v] kvs IH]; intros s Hs; simpl.
  - by intros [= <-].
  - destruct (put fuel k v s) as [s1| |] eqn:Hput.
    + apply IH. by apply (reachable_put s fuel k v).
    + intros H. by destruct (put_all_stuck fuel kvs Fault s').
    + intros H. by destruct (put_all_stuck fuel kvs OutOfFuel s').
Qed.

Lemma rep_unique h par1 par2 t1 t2 :
  rep h par1 t1 -> rep h par2 t2 -> ptr_of t1 = ptr_of t2 -> t1 = t2.
Proof.
  revert par1 par2 t2.
  induction t1 as [|a c l IHl k v r IHr]; intros par1 par2 t2 H1 H2 Hp.
  - by destruct t2.
  - destruct t2 as [|a' c' l' k' v' r']; [discriminate|].
    simpl in Hp. injection Hp as <-.
    destruct H1 as (Ha & Hl & Hr). destruct H2 as (Ha' & Hl' & Hr').
    rewrite Ha in Ha'. injection Ha' as <- <- Hpl Hpr _ <-.
    f_equal; eauto.
Qed.

Lemma represents_unique s t1 t2 :
  represents s t1 -> represents s t2 -> t1 = t2.
Proof.
  intros H1 H2.
  pose proof (repz_root _ _ H1) as R1. pose proof (repz_root _ _ H2) as R2.
  destruct H1 as (H1 & _). destruct H2 as (H2 & _).
  eapply rep_unique; eauto. congruence.
Qed.

Section CyclicComparisons.
Variables A C b1 b2 b3 b4 b5 b6 : list byte.
Hypothesis HCA : compare_keys C A = -1.
Hypothesis H1A : compare_keys b1 A = 1.
Hypothesis H2A : compare_keys b2 A = 1.
Hypothesis H3A : compare_keys b3 A = 1.
Hypothesis H4A : compare_keys b4 A = 1.
Hypothesis H5A : compare_keys b5 A = 1.
Hypothesis H6A : compare_keys b6 A = 1.
Hypothesis H21 : compare_keys b2 b1 = 1.
Hypothesis H31 : compare_keys b3 b1 = 1.
Hypothesis H32 : compare_keys b3 b2 = 1.
Hypothesis H41 : compare_keys b4 b1 = 1.
Hypothesis H42 : compare_keys b4 b2 = 1.
Hypothesis H43 : compare_keys b4 b3 = 1.
Hypothesis H51 : compare_keys b5 b1 = 1.
Hypothesis H52 : compare_keys b5 b2 = 1.
Hypothesis H53 : compare_keys b5 b3 = 1.
Hypothesis H54 : compare_keys b5 b4 = 1.
Hypothesis H61 : compare_keys b6 b1 = 1.
Hypothesis H62 : compare_keys b6 b2 = 1.
Hypothesis H63 : compare_keys b6 b3 = 1.
Hypothesis H64 : compare_keys b6 b4 = 1.
Hypothesis H65 : compare_keys b6 b5 = 1.
Hypothesis HC1 : compare_keys C b1 = 1.
Hypothesis HC2 : compare_keys C b2 = 1.
Hypothesis HC3 : compare_keys C b3 = 1.
Hypothesis HC4 : compare_keys C b4 = 1.
Hypothesis HC5 : compare_keys C b5 = 1.
Hypothesis HC6 : compare_keys C b6 = 1.

Lemma cyclic_puts_run :
  put_all 10 (cyclic_puts A C b1 b2 b3 b4 b5 b6) empty_tree
  = Ok (cyclic_state A C b1 b2 b3 b4 b5 b6).
Proof.
  unfold put_all, cyclic_puts. cbn [fold_left fst snd bind].
  repeat (progress
            (cbn -[compare_keys];
             rewrite ?HCA, ?H1A, ?H2A, ?H3A, ?H4A, ?H5A, ?H6A, ?H21, ?H31,
               ?H32, ?H41, ?H42, ?H43, ?H51, ?H52, ?H53, ?H54, ?H61, ?H62,
               ?H63, ?H64, ?H65, ?HC1, ?HC2, ?HC3, ?HC4, ?HC5, ?HC6)).
  reflexivity.
Qed.

Lemma cyclic_state_represents :
  represents (cyclic_state A C b1 b2 b3 b4 b5 b6)
    (cyclic_tree A C b1 b2 b3 b4 b5 b6).
Proof.
  unfold represents, cyclic_state, cyclic_tree. repz_unfold.
  repeat split. compute_done.
Qed.

Lemma cyclic_tree_not_ordered :
  ~ bst_ordered (cyclic_tree A C b1 b2 b3 b4 b5 b6).
Proof.
  intros (Hl & _). cbn in Hl. apply Forall_cons in Hl as [Hc _].
  rewrite HC2 in Hc. lia.
Qed.

Lemma cyclic_tree_duplicate :
  keys_inorder (cyclic_tree A C b1 b2 b3 b4 b5 b6)
  = [C; A; b1; b2; b3; b4; b5; b6; C].
Proof. reflexivity. Qed.
End CyclicComparisons.

Lemma compare_keys_short_long_lt x y n :
  0 < n -> byte_lt x y = true -> compare_keys [x] (bytes_of y n) = -1.
Proof.
  intros Hn Hlt. rewrite compare_keys_spec_compare.
  - rewrite bytes_of_cons by exact Hn. cbn [spec_compare]. by rewrite Hlt.
  - change (size [x]) with 1. change (2 ^ 31) with 2147483648. lia.
Qed.

Lemma compare_keys_short_long_gt x y n :
  0 < n -> byte_lt x y = false -> byte_lt y x = true ->
  compare_keys [x] (bytes_of y n) = 1.
Proof.
  intros Hn Hlt Hgt. rewrite compare_keys_spec_compare.
  - rewrite bytes_of_cons by exact Hn. cbn [spec_compare]. by rewrite Hlt, Hgt.
  - change (size [x]) with 1. change (2 ^ 31) with 2147483648. lia.
Qed.

Lemma compare_keys_long_long x y n m :
  2 ^ 31 <= m -> m < n -> n < 2 ^ 32 ->
  compare_keys (bytes_of x n) (bytes_of y m) = 1.
Proof.
  intros Hm Hmn Hn. change (2 ^ 31) with 2147483648 in Hm.
  rewrite compare_keys_huge.
  - unfold compare_sizes. rewrite !size_bytes_of by lia.
    destruct (Z.ltb_spec n m); [lia|].
    destruct (Z.ltb_spec m n); [reflexivity|lia].
  - rewrite size_bytes_of by lia. change (2 ^ 31) with 2147483648. lia.
  - rewrite size_bytes_of by lia. change (2 ^ 31) with 2147483648. lia.
Qed.

Lemma NoDup_first_last (x : list byte) (l : list (list byte)) :
  ~ NoDup (x :: l ++ [x]).
Proof.
  intros H. apply NoDup_cons in H as [Hx _]. apply Hx.
  apply elem_of_app. right. left.
Qed.

Ltac long_key_compare :=
  lazymatch goal with
  | |- compare_keys [_] (bytes_of _ _) = -1 =>
      apply compare_keys_short_long_lt; [lia | reflexivity]
  | |- compare_keys [_] (bytes_of _ _) = 1 =>
      apply compare_keys_short_long_gt; [lia | reflexivity | reflexivity]
  | |- compare_keys (bytes_of _ _) (bytes_of _ _) = 1 =>
      apply compare_keys_long_long;
      [ change (2 ^ 31) with 2147483648; lia
      | lia
      | change (2 ^ 32) with 4294967296; lia ]
  end.

(** ** C3 *)

(** C3, at nine calls of [put] with a key of one byte and keys of 2^31
    bytes and more: all calls return, the resulting state is reachable, and
    the tree it holds has the key [short_80] twice in its in-order
    traversal and [short_80] in the left subtree of the root although it
    compares greater than the root's key. *)
Theorem long_keys_break_bst_order :
  put_all 10 long_key_puts empty_tree = Ok long_key_state
  /\ reachable long_key_state
  /\ represents long_key_state long_key_tree
  /\ keys_inorder long_key_tree
     = [short_80; long_ff; long_00 1; long_00 2; long_00 3; long_00 4;
        long_00 5; long_00 6; short_80]
  /\ ~ NoDup (keys_inorder long_key_tree)
  /\ forall t, represents long_key_state t -> ~ bst_ordered t.
Proof.
  assert (Hrun : put_all 10 long_key_puts empty_tree = Ok long_key_state).
  { unfold long_key_puts, long_key_state, long_ff, short_80, long_00.
    apply cyclic_puts_run; long_key_compare. }
  assert (Hrep : represents long_key_state long_key_tree)
    by apply cyclic_state_represents.
  split; [exact Hrun|].
  split; [exact (put_all_reachable _ _ _ _ reachable_empty Hrun)|].
  split; [exact Hrep|].
  split; [reflexivity|].
  split.
  - exact (NoDup_first_last short_80
             [long_ff; long_00 1; long_00 2; long_00 3; long_00 4;
              long_00 5; long_00 6]).
  - intros t Ht. rewrite (represents_unique _ _ _ Ht Hrep).
    apply cyclic_tree_not_ordered.
    unfold short_80, long_00. long_key_compare.
Qed.

(** ** C6 *)

Lemma single_put_then_get (A B v : list byte) :
  compare_keys B A = 0 ->
  put 1 A v empty_tree
  = Ok (mkState [mkNode A v None None None false] (Some O))
  /\ get 1 B [] (mkState [mkNode A v None None None false] (Some O))
     = Ok (true, v).
Proof.
  intros H. split; [reflexivity|].
  unfold get. cbn -[compare_keys]. rewrite H. reflexivity.
Qed.

(** C6, at a key of 2^31 bytes that was never put: after [put] of another
    key of 2^31 bytes, [get] returns [true] with the value of that other
    key. *)
Theorem get_finds_key_never_put :
  long_01 <> bytes_of x00 2147483648
  /\ put 1 (bytes_of x00 2147483648) [x2a] empty_tree
     = Ok (mkState [mkNode (bytes_of x00 2147483648) [x2a] None None None false]
             (Some O))
  /\ get 1 long_01 []
       (mkState [mkNode (bytes_of x00 2147483648) [x2a] None None None false]
          (Some O))
     = Ok (true, [x2a]).
Proof.
  split.
  - unfold long_01. rewrite (bytes_of_cons x00), (bytes_of_cons x01) by lia.
    discriminate.
  - apply single_put_then_get. unfold long_01.
    rewrite compare_keys_huge.
    + unfold compare_sizes. rewrite !size_bytes_of by lia. reflexivity.
    + rewrite size_bytes_of by lia. split; reflexivity.
    + rewrite size_bytes_of by lia. split; reflexivity.
Qed.

(** ** C4 *)

Section PresentKey.
Variables A C b1 b2 b3 b4 b5 b6 v1 v2 : list byte.
Hypothesis HCA : compare_keys C A = -1.
Hypothesis H1A : compare_keys b1 A = 1.
Hypothesis H2A : compare_keys b2 A = 1.
Hypothesis H3A : compare_keys b3 A = 1.
Hypothesis H4A : compare_keys b4 A = 1.
Hypothesis H5A : compare_keys b5 A = 1.
Hypothesis H6A : compare_keys b6 A = 1.
Hypothesis H21 : compare_keys b2 b1 = 1.
Hypothesis H31 : compare_keys b3 b1 = 1.
Hypothesis H32 : compare_keys b3 b2 = 1.
Hypothesis H41 : compare_keys b4 b1 = 1.
Hypothesis H42 : compare_keys b4 b2 = 1.
Hypothesis H43 : compare_keys b4 b3 = 1.
Hypothesis H51 : compare_keys b5 b1 = 1.
Hypothesis H52 : compare_keys b5 b2 = 1.
Hypothesis H53 : compare_keys b5 b3 = 1.
Hypothesis H54 : compare_keys b5 b4 = 1.
Hypothesis H61 : compare_keys b6 b1 = 1.
Hypothesis H62 : compare_keys b6 b2 = 1.
Hypothesis H63 : compare_keys b6 b3 = 1.
Hypothesis H64 : compare_keys b6 b4 = 1.
Hypothesis H65 : compare_keys b6 b5 = 1.
Hypothesis HC2 : compare_keys C b2 = 1.
Hypothesis HC4 : compare_keys C b4 = 1.
Hypothesis HC5 : compare_keys C b5 = 1.
Hypothesis HC6 : compare_keys C b6 = 1.

Ltac present_step :=
  repeat (progress
            (cbn -[compare_keys];
             rewrite ?HCA, ?H1A, ?H2A, ?H3A, ?H4A, ?H5A, ?H6A, ?H21, ?H31,
               ?H32, ?H41, ?H42, ?H43, ?H51, ?H52, ?H53, ?H54, ?H61, ?H62,
               ?H63, ?H64, ?H65, ?HC2, ?HC4, ?HC5, ?HC6)).

Lemma present_puts_run :
  put_all 10 (present_puts A C b1 b2 b3 b4 b5 b6 v1) empty_tree
  = Ok (present_state A C b1 b2 b3 b4 b5 b6 v1).
Proof.
  unfold put_all, present_puts. cbn [fold_left fst snd bind].
  present_step. reflexivity.
Qed.

Lemma present_state_represents :
  represents (present_state A C b1 b2 b3 b4 b5 b6 v1)
    (present_tree A C b1 b2 b3 b4 b5 b6 v1).
Proof.
  unfold represents, present_state, present_tree. repz_unfold.
  repeat split. compute_done.
Qed.

Lemma present_get_misses out :
  get 10 C out (present_state A C b1 b2 b3 b4 b5 b6 v1) = Ok (false, out).
Proof. unfold get, present_state. present_step. reflexivity. Qed.

Lemma present_put_calls_fix_insert :
  put_calls_fix_insert 10 C v2 (present_state A C b1 b2 b3 b4 b5 b6 v1)
    (present_state_attached A C b1 b2 b3 b4 b5 b6 v1 v2) (Some 8%nat).
Proof.
  split; [reflexivity|]. exists (Some 7%nat). unfold present_state. split.
  - present_step. reflexivity.
  - unfold put_attach. present_step. reflexivity.
Qed.

Lemma present_put_again :
  put 10 C v2 (present_state A C b1 b2 b3 b4 b5 b6 v1)
  = Ok (present_state_after A C b1 b2 b3 b4 b5 b6 v1 v2).
Proof. unfold put, present_state. present_step. reflexivity. Qed.

Lemma present_get_after out :
  get 10 C out (present_state_after A C b1 b2 b3 b4 b5 b6 v1 v2)
  = Ok (true, v2).
Proof.
  unfold get, present_state_after. present_step.
  rewrite compare_keys_refl. reflexivity.
Qed.
End PresentKey.

(** C4, at the key [short_80]: after eight calls of [put] on the empty tree
    the key is in the tree with the value [0x11], yet [get] misses it, and
    [put] of it with the value [0x22] does not replace that value: it
    allocates a ninth node, enters the loop of [fix_insert], recolours the
    node of [long_00 5] and rotates there. *)
Theorem put_present_key_allocates :
  put_all 10 present_key_puts empty_tree = Ok present_key_state
  /\ reachable present_key_state
  /\ represents present_key_state present_key_tree
  /\ (short_80, [x11]) ∈ bindings present_key_tree
  /\ get 10 short_80 [] present_key_state = Ok (false, [])
  /\ put_calls_fix_insert 10 short_80 [x22] present_key_state
       present_key_state_attached (Some 8%nat)
  /\ fix_insert_cond present_key_state_attached (Some 8%nat) = Ok true
  /\ put 10 short_80 [x22] present_key_state = Ok present_key_state_after
  /\ length (heap present_key_state) = 8%nat
  /\ length (heap present_key_state_after) = 9%nat
  /\ heap present_key_state_after !! 1%nat
     = Some (mkNode short_80 [x11] None None (Some 0%nat) false)
  /\ heap present_key_state_after !! 8%nat
     = Some (mkNode short_80 [x22] None None (Some 7%nat) true)
  /\ get_right present_key_state (Some 5%nat) = Ok (Some 6%nat)
  /\ get_right present_key_state_after (Some 5%nat) = Ok (Some 7%nat)
  /\ get_is_red present_key_state (Some 6%nat) = Ok false
  /\ get_is_red present_key_state_after (Some 6%nat) = Ok true
  /\ get 10 short_80 [] present_key_state_after = Ok (true, [x22]).
Proof.
  assert (Hrun : put_all 10 present_key_puts empty_tree = Ok present_key_state).
  { unfold present_key_puts, present_key_state, long_ff, short_80, long_00.
    apply present_puts_run; long_key_compare. }
  split; [exact Hrun|].
  split; [exact (put_all_reachable _ _ _ _ reachable_empty Hrun)|].
  split; [apply present_state_represents|].
  split; [unfold present_key_tree, present_tree; cbn [bindings app]; left|].
  split.
  { unfold present_key_state, long_ff, short_80, long_00.
    apply present_get_misses; long_key_compare. }
  split.
  { unfold present_key_state, present_key_state_attached, long_ff, short_80,
      long_00.
    apply present_put_calls_fix_insert; long_key_compare. }
  split; [reflexivity|].
  split.
  { unfold present_key_state, present_key_state_after, long_ff, short_80,
      long_00.
    apply present_put_again; long_key_compare. }
  split; [reflexivity|]. split; [reflexivity|].
  split; [reflexivity|]. split; [reflexivity|].
  split; [reflexivity|]. split; [reflexivity|].
  split; [reflexivity|]. split; [reflexivity|].
  unfold present_key_state_after, long_ff, short_80, long_00.
  apply present_get_after; long_key_compare.
Qed.

(** ** The reference comparison is a strict total order *)

Lemma to_N_inj x y : Byte.to_N x = Byte.to_N y -> x = y.
Proof.
  intros H. pose proof (Byte.of_to_N x) as Hx. rewrite H, Byte.of_to_N in Hx.
  by injection Hx.
Qed.

Lemma byte_lt_trans x y z :
  byte_lt x y = true -> byte_lt y z = true -> byte_lt x z = true.
Proof. unfold byte_lt. rewrite !N.ltb_lt. lia. Qed.

Lemma byte_lt_asym x y : byte_lt x y = true -> byte_lt y x = false.
Proof. unfold byte_lt. rewrite N.ltb_lt, N.ltb_ge. lia. Qed.

Lemma byte_lt_total x y : byte_lt x y = false -> byte_lt y x = false -> x = y.
Proof. unfold byte_lt. rewrite !N.ltb_ge. intros. apply to_N_inj. lia. Qed.

Lemma spec_compare_range a b :
  spec_compare a b = -1 \/ spec_compare a b = 0 \/ spec_compare a b = 1.
Proof.
  revert b. induction a as [|x a IH]; intros [|y b]; simpl; auto.
  destruct (byte_lt x y); auto. destruct (byte_lt y x); auto.
Qed.

Lemma spec_compare_eq a b : spec_compare a b = 0 <-> a = b.
Proof.
  revert b. induction a as [|x a IH]; intros [|y b]; simpl; try done.
  destruct (byte_lt x y) eqn:Hxy.
  - split; [done|]. intros [= -> _]. by rewrite byte_lt_irrefl in Hxy.
  - destruct (byte_lt y x) eqn:Hyx.
    + split; [done|]. intros [= -> _]. by rewrite byte_lt_irrefl in Hyx.
    + rewrite IH. rewrite (byte_lt_total _ _ Hxy Hyx). split; congruence.
Qed.

Lemma spec_compare_antisym a b : spec_compare b a = - spec_compare a b.
Proof.
  revert b. induction a as [|x a IH]; intros [|y b]; simpl; try done.
  destruct (byte_lt x y) eqn:Hxy.
  - by rewrite (byte_lt_asym _ _ Hxy).
  - destruct (byte_lt y x); [done|]. apply IH.
Qed.

Lemma spec_compare_trans a b c :
  spec_compare a b < 0 -> spec_compare b c < 0 -> spec_compare a c < 0.
Proof.
  revert b c. induction a as [|x a IH]; intros [|y b] [|z c]; simpl;
    try lia.
  destruct (byte_lt x y) eqn:Hxy.
  - intros _. destruct (byte_lt y z) eqn:Hyz.
    + intros _. by rewrite (byte_lt_trans _ _ _ Hxy Hyz).
    + destruct (byte_lt z y) eqn:Hzy; [lia|].
      rewrite <- (byte_lt_total _ _ Hyz Hzy), Hxy. done.
  - destruct (byte_lt y x) eqn:Hyx; [lia|].
    rewrite (byte_lt_total _ _ Hxy Hyx).
    destruct (byte_lt y z); [done|]. destruct (byte_lt z y); [lia|].
    apply IH.
Qed.

Lemma compare_keys_short_l a b :
  short_key a -> compare_keys a b = spec_compare a b.
Proof. intros H. apply compare_keys_spec_compare. unfold short_key in H. lia. Qed.

Lemma compare_keys_short_r a b :
  short_key b -> compare_keys a b = spec_compare a b.
Proof. intros H. apply compare_keys_spec_compare. unfold short_key in H. lia. Qed.

(** The empty sequence is the minimum of the reference order. *)
Lemma spec_compare_nil b : spec_compare [] b <= 0.
Proof. destruct b; simpl; lia. Qed.

(** ** The in-order keys under the fixup *)

Lemma keys_plug t ctx :
  keys_inorder (plug t ctx)
  = keys_before ctx ++ keys_inorder t ++ keys_after ctx.
Proof.
  revert t. induction ctx as [|f ctx IH]; intros t; simpl.
  - by rewrite app_nil_r.
  - rewrite IH. destruct f; simpl; by rewrite <- ?app_assoc.
Qed.

Lemma keys_blacken t : keys_inorder (blacken t) = keys_inorder t.
Proof. by destruct t. Qed.

Lemma keys_fix_body t ctx t' ctx' :
  fix_body t ctx = Some (t', ctx') ->
  keys_inorder (plug t' ctx') = keys_inorder (plug t ctx).
Proof.
  intros Hbody.
  destruct t as [|n cn l kn vn r]; [discriminate|].
  destruct ctx as [|f [|g ctx2]];
    try discriminate; try (destruct f; discriminate).
  destruct g as [g cg kg vg u|g cg u kg vg]; cbn [fix_body] in Hbody;
    destruct (red_root u);
    destruct f as [p cp kp vp pr|p cp pl kp vp];
    injection Hbody as <- <-;
    rewrite !keys_plug; simpl; rewrite ?keys_blacken;
    repeat (rewrite <- ?app_assoc; simpl); reflexivity.
Qed.

Lemma keys_fix_loop fuel t ctx t' ctx' :
  fix_loop fuel t ctx = Some (t', ctx') ->
  keys_inorder (plug t' ctx') = keys_inorder (plug t ctx).
Proof.
  revert t ctx. induction fuel as [|fuel IH]; intros t ctx; cbn [fix_loop];
    [discriminate|].
  destruct (fix_cond ctx).
  - destruct (fix_body t ctx) as [[t1 ctx1]|] eqn:Hbody; [|discriminate].
    intros Hloop. rewrite (IH _ _ Hloop). by apply keys_fix_body.
  - by intros [= <- <-].
Qed.

(** The descent splits the keys of the tree around the position it ends
    at; in a sorted tree of short keys the key searched for lies between the
    two parts. *)
Lemma descend_keys k t ctx0 t' ctx :
  descend k t ctx0 = (t', ctx) ->
  exists L R,
    keys_inorder t = L ++ keys_inorder t' ++ R
    /\ keys_before ctx = keys_before ctx0 ++ L
    /\ keys_after ctx = R ++ keys_after ctx0
    /\ (short_key k ->
        StronglySorted key_lt (keys_inorder t) ->
        Forall (fun x => key_lt x k) L /\ (t' = E -> Forall (key_lt k) R)).
Proof.
  revert ctx0. induction t as [|a c l IHl kx vx r IHr]; intros ctx0; simpl.
  - intros [= <- <-]. exists [], []. simpl. rewrite app_nil_r.
    split; [done|]. split; [done|]. split; [done|]. intros _ _. by split.
  - destruct (compare_keys k kx =? 0) eqn:E0.
    { intros [= <- <-]. exists [], []. simpl. rewrite !app_nil_r.
      split; [done|]. split; [done|]. split; [done|]. intros _ _. by split. }
    destruct (compare_keys k kx <? 0) eqn:E1; intros Hd.
    + destruct (IHl _ Hd) as (L & R & Hk & Hb & Ha & Hs).
      exists L, (R ++ kx :: keys_inorder r).
      split; [by rewrite Hk, <- !app_assoc|].
      split; [exact Hb|].
      split; [by rewrite Ha; simpl; rewrite <- !app_assoc|].
      intros Hshort Hsorted.
      apply StronglySorted_app in Hsorted as (Hlr & Hsl & Hsr).
      apply StronglySorted_cons in Hsr as [Hr _].
      destruct (Hs Hshort Hsl) as [HL HR].
      split; [exact HL|]. intros ->. apply Forall_app.
      split; [by apply HR|].
      rewrite (compare_keys_short_l _ _ Hshort) in E1.
      apply Z.ltb_lt in E1.
      constructor; [exact E1|].
      eapply Forall_impl; [exact Hr|]. intros y Hy.
      by apply (spec_compare_trans k kx y).
    + destruct (IHr _ Hd) as (L & R & Hk & Hb & Ha & Hs).
      exists (keys_inorder l ++ kx :: L), R.
      split; [by rewrite Hk, <- !app_assoc|].
      split; [by rewrite Hb; simpl; rewrite <- !app_assoc|].
      split; [exact Ha|].
      intros Hshort Hsorted.
      apply StronglySorted_app in Hsorted as (Hlr & Hsl & Hsr).
      apply StronglySorted_cons in Hsr as [Hr Hsr].
      destruct (Hs Hshort Hsr) as [HL HR].
      split; [|exact HR].
      rewrite (compare_keys_short_l _ _ Hshort) in E0, E1.
      apply Z.ltb_ge in E1. apply Z.eqb_neq in E0.
      assert (Hkx : key_lt kx k).
      { unfold key_lt. rewrite spec_compare_antisym. lia. }
      apply Forall_app. split; [|constructor; [exact Hkx|exact HL]].
      apply Forall_forall. intros x Hx.
      apply (spec_compare_trans x kx k); [|exact Hkx].
      apply (Hlr x kx); [exact Hx|]. left.
Qed.

Lemma StronglySorted_insert (k : list byte) (L R : list (list byte)) :
  StronglySorted key_lt (L ++ R) ->
  Forall (fun x => key_lt x k) L -> Forall (key_lt k) R ->
  StronglySorted key_lt (L ++ k :: R).
Proof.
  intros Hs HL HR.
  apply StronglySorted_app in Hs as (Hlr & HsL & HsR).
  apply StronglySorted_app. split; [|split; [exact HsL|]].
  - intros x y Hx Hy. apply elem_of_cons in Hy as [->|Hy].
    + by apply (proj1 (Forall_forall _ _) HL).
    + by apply Hlr.
  - apply StronglySorted_cons. by split.
Qed.

Lemma insert_tree_keys fuel new k v t t' :
  insert_tree fuel new k v t = Some t' ->
  (forall x, x ∈ keys_inorder t' -> x = k \/ x ∈ keys_inorder t)
  /\ (short_key k ->
      StronglySorted key_lt (keys_inorder t) ->
      StronglySorted key_lt (keys_inorder t')).
Proof.
  unfold insert_tree. destruct t as [|a c l kx vx r].
  - intros [= <-]. simpl. split.
    + intros x Hx. left. by apply list_elem_of_singleton in Hx.
    + intros _ _. repeat constructor.
  - pose proof (descend_keys k (T a c l kx vx r) []) as Hkeys.
    pose proof (descend_plug k (T a c l kx vx r) []) as Hplug.
    destruct (descend k (T a c l kx vx r) []) as [[|a1 c1 l1 k1 v1 r1] ctx1];
      cbn [fst snd] in *.
    + destruct (fix_loop _ _ _) as [[t2 ctx2]|] eqn:Hloop; [|discriminate].
      intros [= <-].
      destruct (Hkeys _ _ eq_refl) as (L & R & Hk & Hb & Ha & Hs).
      assert (Hkt : keys_inorder (blacken (plug t2 ctx2)) = L ++ k :: R).
      { rewrite keys_blacken, (keys_fix_loop _ _ _ _ _ Hloop), keys_plug.
        rewrite Hb, Ha. simpl. by rewrite app_nil_r. }
      rewrite Hkt, Hk. rewrite Hk in Hs. cbn [keys_inorder app] in *. split.
      * intros x Hx. apply elem_of_app in Hx as [Hx|Hx].
        -- right. apply elem_of_app. by left.
        -- apply elem_of_cons in Hx as [->|Hx]; [by left|].
           right. apply elem_of_app. by right.
      * intros Hshort Hsorted.
        destruct (Hs Hshort Hsorted) as [HL HR].
        apply StronglySorted_insert; auto.
    + intros [= <-].
      assert (Hkt : keys_inorder (plug (T a1 c1 l1 k1 v r1) ctx1)
                    = keys_inorder (T a c l kx vx r)).
      { cbn [plug] in Hplug. rewrite <- Hplug, !keys_plug. reflexivity. }
      rewrite Hkt. split; [by right|done].
Qed.

Lemma put_history_inv ks s :
  put_history ks s ->
  exists t, represents s t /\ red_black t
    /\ (forall x, x ∈ keys_inorder t -> x ∈ ks)
    /\ (Forall short_key ks -> StronglySorted key_lt (keys_inorder t)).
Proof.
  induction 1 as [|ks s fuel k v s' _ (t & Hrep & Hrb & Hsub & Hsorted) Hput].
  - exists E.
    split; [unfold represents, empty_tree; repz_unfold;
            repeat split; constructor|].
    split; [unfold red_black; simpl; split; [done|split; [done|by exists O]]|].
    split; [intros x Hx; inversion Hx|intros _; constructor].
  - destruct (put_wf_any _ _ _ _ _ _ Hrep Hrb Hput)
      as (fuel' & t' & Hins & Hrep' & Hrb').
    destruct (insert_tree_keys _ _ _ _ _ _ Hins) as [Hk Hs].
    exists t'. split; [exact Hrep'|]. split; [exact Hrb'|]. split.
    + intros x Hx. destruct (Hk x Hx) as [->|Hx']; [left|right; auto].
    + intros Hshort. apply Forall_cons in Hshort as [Hsk Hsks]. auto.
Qed.

Lemma key_lt_irrefl x : ~ key_lt x x.
Proof.
  unfold key_lt. rewrite (proj2 (spec_compare_eq x x) eq_refl). lia.
Qed.

Lemma StronglySorted_key_lt_NoDup l : StronglySorted key_lt l -> NoDup l.
Proof.
  induction 1 as [|x l Hs IH Hx]; constructor; [|exact IH].
  intros Hin. apply (key_lt_irrefl x).
  by apply (proj1 (Forall_forall _ _) Hx).
Qed.

Lemma StronglySorted_compare_keys l :
  Forall short_key l -> StronglySorted key_lt l ->
  StronglySorted (fun a b => compare_keys a b < 0) l.
Proof.
  intros Hshort. induction 1 as [|x l Hs IH Hx]; constructor.
  - apply IH. by apply Forall_cons in Hshort as [_ ?].
  - apply Forall_cons in Hshort as [Hsx _].
    eapply Forall_impl; [exact Hx|]. intros y Hy.
    by rewrite (compare_keys_short_l _ _ Hsx).
Qed.

Lemma sorted_bst_ordered t :
  Forall short_key (keys_inorder t) ->
  StronglySorted key_lt (keys_inorder t) ->
  bst_ordered t.
Proof.
  induction t as [|a c l IHl k v r IHr]; simpl; [done|].
  intros Hshort Hsorted.
  apply Forall_app in Hshort as [Hsl Hsr].
  apply Forall_cons in Hsr as [Hsk Hsr].
  apply StronglySorted_app in Hsorted as (Hlr & Hl & Hr).
  apply StronglySorted_cons in Hr as [Hkr Hr].
  split; [|split; [|split; auto]].
  - apply Forall_forall. intros x Hx.
    rewrite (compare_keys_short_r _ _ Hsk). apply (Hlr x k Hx). left.
  - eapply Forall_impl; [exact Hkr|]. intros y Hy. simpl.
    rewrite (compare_keys_short_r _ _ Hsk), spec_compare_antisym.
    unfold key_lt in Hy. lia.
Qed.

(** With every key put so far shorter than 2^31 bytes, the tree is ordered
    as invariant 1 says: per node, along the in-order traversal, and without
    duplicate keys. *)
Theorem short_keys_bst_ordered (ks : list (list byte)) (s : State) :
  put_history ks s ->
  Forall short_key ks ->
  exists t, represents s t
    /\ bst_ordered t
    /\ StronglySorted (fun a b => compare_keys a b < 0) (keys_inorder t)
    /\ NoDup (keys_inorder t).
Proof.
  intros Hh Hshort.
  destruct (put_history_inv _ _ Hh) as (t & Hrep & _ & Hsub & Hsorted).
  specialize (Hsorted Hshort).
  assert (Hst : Forall short_key (keys_inorder t)).
  { apply Forall_forall. intros x Hx.
    apply (proj1 (Forall_forall _ _) Hshort), Hsub, Hx. }
  exists t. split; [exact Hrep|].
  split; [by apply sorted_bst_ordered|].
  split; [by apply StronglySorted_compare_keys|].
  by apply StronglySorted_key_lt_NoDup.
Qed.

Lemma lookup_tree_Some k t a v :
  lookup_tree k t = Some (a, v) ->
  exists kx, kx ∈ keys_inorder t /\ compare_keys k kx = 0.
Proof.
  induction t as [|b c l IHl kx vx r IHr]; simpl; [discriminate|].
  destruct (compare_keys k kx =? 0) eqn:E0.
  - intros _. exists kx. split; [|by apply Z.eqb_eq].
    apply elem_of_app. right. left.
  - destruct (compare_keys k kx <? 0); intros H.
    + destruct (IHl H) as (x & Hx & Hc). exists x. split; [|exact Hc].
      apply elem_of_app. by left.
    + destruct (IHr H) as (x & Hx & Hc). exists x. split; [|exact Hc].
      apply elem_of_app. right. by right.
Qed.

(** A key shorter than 2^31 bytes that was never put is not found, and the
    output buffer is left alone. *)
Theorem short_key_never_put_is_missed (ks : list (list byte)) (s : State)
    (k : list byte) :
  put_history ks s ->
  short_key k ->
  k ∉ ks ->
  forall fuel out_value,
    (length (heap s) <= fuel)%nat ->
    get fuel k out_value s = Ok (false, out_value).
Proof.
  intros Hh Hshort Hk fuel out_value Hfuel.
  destruct (put_history_inv _ _ Hh) as (t & Hrep & _ & Hsub & _).
  rewrite (get_spec fuel s k out_value t Hrep).
  - destruct (lookup_tree k t) as [[a v]|] eqn:Hl; [|reflexivity].
    destruct (lookup_tree_Some _ _ _ _ Hl) as (kx & Hx & Hc).
    rewrite (compare_keys_short_l _ _ Hshort) in Hc.
    apply spec_compare_eq in Hc as ->. destruct (Hk (Hsub _ Hx)).
  - pose proof (represents_height _ _ Hrep). lia.
Qed.

(** On keys shorter than 2^31 bytes [compare_keys] is a strict total order
    with the empty sequence as its minimum. *)
Theorem compare_keys_short_total_order (a b c : list byte) :
  short_key a -> short_key b -> short_key c ->
  (compare_keys a b = 0 <-> a = b)
  /\ compare_keys b a = - compare_keys a b
  /\ (compare_keys a b < 0 -> compare_keys b c < 0 -> compare_keys a c < 0)
  /\ compare_keys [] a <= 0.
Proof.
  intros Ha Hb Hc.
  rewrite !(compare_keys_short_l a), !(compare_keys_short_l b) by assumption.
  rewrite (compare_keys_short_r [] a) by assumption.
  split; [apply spec_compare_eq|].
  split; [apply spec_compare_antisym|].
  split; [apply spec_compare_trans|apply spec_compare_nil].
Qed.

(** ** Worked examples for C1, C2, C8, C9, C10 and the replaced value *)

Lemma example_state_reachable : reachable example_state.
Proof.
  apply (put_all_reachable 10
           [([x01], [x0a]); ([x02], [x0b]); ([x03], [x0c])] empty_tree).
  - exact reachable_empty.
  - vm_compute. reflexivity.
Qed.

Lemma example_state_wf : wf example_state.
Proof.
  exists example_tree. split.
  - unfold represents, example_state, example_tree. repz_unfold.
    repeat split. compute_done.
  - unfold red_black, example_tree.
    split; [reflexivity|]. split; [simpl; intuition congruence|].
    exists 1%nat. simpl. auto.
Qed.

Lemma example_put_calls_fix_insert :
  put_calls_fix_insert 10 [x04] [x0d] example_state example_attached
    (Some 3%nat).
Proof.
  split; [reflexivity|]. exists (Some 2%nat). split; vm_compute; reflexivity.
Qed.

Lemma put_then_get_witness :
  wf example_state
  /\ ((exists s',
         put (S (length (heap example_state))) [x04] [x0d] example_state
         = Ok s')
      /\ forall fuel s',
           put fuel [x04] [x0d] example_state = Ok s' ->
           forall fuel' out_value,
             (length (heap s') <= fuel')%nat ->
             get fuel' [x04] out_value s' = Ok (true, [x0d])).
Proof.
  split; [exact example_state_wf|].
  apply (put_then_get example_state [x04] [x0d]). exact example_state_wf.
Defined.

Lemma reachable_red_black_witness :
  reachable example_state
  /\ exists t, represents example_state t
       /\ red_root t = false
       /\ no_red_red t
       /\ exists n, Forall (fun m => m = n) (black_counts t).
Proof.
  split; [exact example_state_reachable|].
  apply (reachable_red_black example_state). exact example_state_reachable.
Defined.

Lemma put_existing_key_replaces_value_witness :
  get 10 [x02] [] example_state = Ok (true, [x0b])
  /\ exists a node,
       find_node 10 example_state (root example_state) [x02] = Ok (Some a)
       /\ heap example_state !! a = Some node
       /\ value node = [x0b]
       /\ put_descend 10 example_state [x02] [x63] None (root example_state)
          = Ok (Replaced (replace_value example_state a node [x63]))
       /\ put 10 [x02] [x63] example_state
          = Ok (replace_value example_state a node [x63])
       /\ length (heap (replace_value example_state a node [x63]))
          = length (heap example_state)
       /\ root (replace_value example_state a node [x63]) = root example_state
       /\ (forall b, b <> a ->
             heap (replace_value example_state a node [x63]) !! b
             = heap example_state !! b)
       /\ heap (replace_value example_state a node [x63]) !! a
          = Some (mkNode (key node) [x63] (left node) (right node)
                    (parent node) (is_red node))
       /\ get 10 [x02] [] (replace_value example_state a node [x63])
          = Ok (true, [x63]).
Proof.
  split; [vm_compute; reflexivity|].
  apply (put_existing_key_replaces_value example_state 10 [x02] [x0b] [x63] []).
  vm_compute. reflexivity.
Defined.

Lemma get_miss_keeps_out_value_witness :
  get 5 [x09] [x07] example_state = Ok (false, [x07]) /\ [x07] = [x07].
Proof.
  split; [vm_compute; reflexivity|].
  apply (get_miss_keeps_out_value 5 [x09] [x07] example_state [x07]).
  vm_compute. reflexivity.
Defined.

Lemma fix_insert_grandparent_exists_witness :
  wf example_state
  /\ put_calls_fix_insert 10 [x04] [x0d] example_state example_attached
       (Some 3%nat)
  /\ (forall s' node,
        rtc fix_iter (example_attached, Some 3%nat) (s', node) ->
        fix_insert_cond s' node = Ok true ->
        exists p g,
          get_parent s' node = Ok (Some p)
          /\ get_is_red s' (Some p) = Ok true
          /\ root s' <> Some p
          /\ get_grandparent s' node = Ok (Some g)
          /\ is_Some (heap s' !! g))
  /\ forall fuel', fix_insert fuel' example_attached (Some 3%nat) <> Fault.
Proof.
  split; [exact example_state_wf|].
  split; [exact example_put_calls_fix_insert|].
  apply (fix_insert_grandparent_exists example_state 10 [x04] [x0d]
           example_attached (Some 3%nat)).
  - exact example_state_wf.
  - exact example_put_calls_fix_insert.
Defined.

Lemma fix_insert_terminates_witness :
  wf example_state
  /\ put_calls_fix_insert 10 [x04] [x0d] example_state example_attached
       (Some 3%nat)
  /\ (exists d,
        depth (S (length (heap example_attached))) example_attached
          (Some 3%nat) = Ok d
        /\ forall fuel', (d + 2 <= 2 * fuel')%nat ->
             exists s', fix_insert fuel' example_attached (Some 3%nat) = Ok s')
  /\ forall s' node,
       rtc fix_iter (example_attached, Some 3%nat) (s', node) ->
       fix_insert_cond s' node = Ok true ->
       exists s'' node',
         fix_insert_body s' node = Ok (s'', node')
         /\ (fix_insert_cond s'' node' = Ok false
             \/ exists d',
                  depth (S (length (heap s''))) s'' node' = Ok d'
                  /\ depth (S (length (heap s'))) s' node = Ok (d' + 2)%nat).
Proof.
  split; [exact example_state_wf|].
  split; [exact example_put_calls_fix_insert|].
  apply (fix_insert_terminates example_state 10 [x04] [x0d]
           example_attached (Some 3%nat)).
  - exact example_state_wf.
  - exact example_put_calls_fix_insert.
Defined.

(** ** Further properties, with worked examples *)

Lemma put_all_history fuel kvs s ks s' :
  put_history ks s -> put_all fuel kvs s = Ok s' ->
  put_history (rev (map fst kvs) ++ ks) s'.
Proof.
  unfold put_all. revert s ks.
  induction kvs as [|[k v] kvs IH]; intros s ks Hs; simpl.
  - by intros [= <-].
  - rewrite <- app_assoc. simpl.
    destruct (put fuel k v s) as [s1| |] eqn:Hput.
    + intros H. apply (IH s1 (k :: ks)); [|exact H].
      exact (history_put ks s fuel k v s1 Hs Hput).
    + intros H. by destruct (put_all_stuck fuel kvs Fault s').
    + intros H. by destruct (put_all_stuck fuel kvs OutOfFuel s').
Qed.

Lemma example_state_history :
  put_history [[x03]; [x02]; [x01]] example_state.
Proof.
  apply (put_all_history 10
           [([x01], [x0a]); ([x02], [x0b]); ([x03], [x0c])] empty_tree []).
  - exact history_empty.
  - vm_compute. reflexivity.
Qed.

(** [compare_keys] is the reference comparison of section 4.1 as long as
    the shorter key has fewer than 2^31 bytes. *)
Theorem compare_keys_bounded (a b : list byte) :
  Z.min (size a) (size b) < 2 ^ 31 ->
  compare_keys a b = spec_compare a b.
Proof.
  intros Hmin. apply compare_keys_no_wrap.
  assert (Hlen : 0 <= Z.of_nat (Nat.min (length a) (length b)) < 2 ^ 31).
  { unfold size in Hmin. lia. }
  exact (to_int_small _ Hlen).
Qed.

(** [put] returns on every well-formed state, with a well-formed state
    that has at most one node more. *)
Theorem put_keeps_wf (s : State) (fuel : nat) (k v : list byte) :
  wf s -> (length (heap s) < fuel)%nat ->
  exists s', put fuel k v s = Ok s' /\ wf s'.
Proof.
  intros (t & Hrep & Hrb) Hfuel.
  destruct (put_wf fuel k v s t Hrep Hrb Hfuel)
    as (s' & t' & Hput & _ & Hrep' & Hrb').
  exists s'. split; [exact Hput|]. by exists t'.
Qed.

(** [get] returns on every well-formed state once the fuel covers the
    number of nodes: it reports a hit or a miss and never dereferences a null
    pointer. *)
Theorem get_returns (s : State) (fuel : nat) (k out_value : list byte) :
  wf s ->
  (length (heap s) <= fuel)%nat ->
  exists found out, get fuel k out_value s = Ok (found, out).
Proof.
  intros (t & Hrep & _) Hfuel.
  rewrite (get_spec fuel s k out_value t Hrep).
  - destruct (lookup_tree k t) as [[a v]|]; eauto.
  - pose proof (represents_height _ _ Hrep). lia.
Qed.

(** [rotate_left] at a node with a right child turns the subtree
    [x (a, y (b, c))] into [y (x (a, b), c)], leaves the rest of the tree and
    every colour, key and value as they were, and keeps the in-order sequence
    of keys. *)
Theorem rotate_left_keeps_inorder (s : State) (x : nat) (cx : bool)
    (a : tree) (kx vx : list byte) (y : nat) (cy : bool) (b : tree)
    (ky vy : list byte) (c : tree) (ctx : list frame) :
  repz s (T x cx a kx vx (T y cy b ky vy c)) ctx ->
  exists s',
    rotate_left s (Some x) = Ok s'
    /\ repz s' (T y cy (T x cx a kx vx b) ky vy c) ctx
    /\ keys_inorder (plug (T y cy (T x cx a kx vx b) ky vy c) ctx)
       = keys_inorder (plug (T x cx a kx vx (T y cy b ky vy c)) ctx).
Proof.
  intros Hrep.
  destruct (rotate_left_spec _ _ _ _ _ _ _ _ _ _ _ _ _ Hrep) as (s' & Hs' & Hr).
  exists s'. split; [exact Hs'|]. split; [exact Hr|].
  rewrite !keys_plug. simpl.
  repeat (rewrite <- ?app_assoc; simpl). reflexivity.
Qed.

(** [rotate_right] is the mirror image. *)
Theorem rotate_right_keeps_inorder (s : State) (y : nat) (cy : bool)
    (x : nat) (cx : bool) (a : tree) (kx vx : list byte) (b : tree)
    (ky vy : list byte) (c : tree) (ctx : list frame) :
  repz s (T y cy (T x cx a kx vx b) ky vy c) ctx ->
  exists s',
    rotate_right s (Some y) = Ok s'
    /\ repz s' (T x cx a kx vx (T y cy b ky vy c)) ctx
    /\ keys_inorder (plug (T x cx a kx vx (T y cy b ky vy c)) ctx)
       = keys_inorder (plug (T y cy (T x cx a kx vx b) ky vy c) ctx).
Proof.
  intros Hrep.
  destruct (rotate_right_spec _ _ _ _ _ _ _ _ _ _ _ _ _ Hrep) as (s' & Hs' & Hr).
  exists s'. split; [exact Hs'|]. split; [exact Hr|].
  rewrite !keys_plug. simpl.
  repeat (rewrite <- ?app_assoc; simpl). reflexivity.
Qed.

Lemma example_attached_focus :
  repz example_attached
    (T 2 true E [x03] [x0c] (T 3 true E [x04] [x0d] E))
    [InRight 1 false (T 0 true E [x01] [x0a] E) [x02] [x0b]].
Proof. unfold example_attached. repz_unfold. repeat split. compute_done. Qed.

Lemma example_state_focus :
  repz example_state example_tree [].
Proof.
  unfold example_state, example_tree. repz_unfold. repeat split. compute_done.
Qed.

Lemma compare_keys_bounded_witness :
  Z.min (size [x01; x02]) (size [x01]) < 2 ^ 31
  /\ compare_keys [x01; x02] [x01] = spec_compare [x01; x02] [x01].
Proof.
  split; [reflexivity|].
  apply (compare_keys_bounded [x01; x02] [x01]). reflexivity.
Defined.

Lemma compare_keys_short_total_order_witness :
  short_key [x01] /\ short_key [x01; x02] /\ short_key [x02]
  /\ (compare_keys [x01] [x01; x02] = 0 <-> [x01] = [x01; x02])
  /\ compare_keys [x01; x02] [x01] = - compare_keys [x01] [x01; x02]
  /\ (compare_keys [x01] [x01; x02] < 0 ->
      compare_keys [x01; x02] [x02] < 0 ->
      compare_keys [x01] [x02] < 0)
  /\ compare_keys [] [x01] <= 0.
Proof.
  split; [reflexivity|]. split; [reflexivity|]. split; [reflexivity|].
  apply (compare_keys_short_total_order [x01] [x01; x02] [x02]); reflexivity.
Defined.

Lemma short_keys_bst_ordered_witness :
  put_history [[x03]; [x02]; [x01]] example_state
  /\ Forall short_key [[x03]; [x02]; [x01]]
  /\ exists t, represents example_state t
       /\ bst_ordered t
       /\ StronglySorted (fun a b => compare_keys a b < 0) (keys_inorder t)
       /\ NoDup (keys_inorder t).
Proof.
  assert (Hs : Forall short_key [[x03]; [x02]; [x01]])
    by (repeat constructor).
  split; [exact example_state_history|]. split; [exact Hs|].
  apply (short_keys_bst_ordered [[x03]; [x02]; [x01]] example_state).
  - exact example_state_history.
  - exact Hs.
Defined.

Lemma short_key_never_put_is_missed_witness :
  put_history [[x03]; [x02]; [x01]] example_state
  /\ short_key [x09]
  /\ ([x09] ∉ [[x03]; [x02]; [x01]])
  /\ forall fuel out_value,
       (length (heap example_state) <= fuel)%nat ->
       get fuel [x09] out_value example_state = Ok (false, out_value).
Proof.
  assert (Hn : [x09] ∉ [[x03]; [x02]; [x01]]).
  { intros H. repeat (apply elem_of_cons in H as [H|H]; [discriminate|]).
    inversion H. }
  split; [exact example_state_history|]. split; [reflexivity|].
  split; [exact Hn|].
  apply (short_key_never_put_is_missed [[x03]; [x02]; [x01]] example_state
           [x09]).
  - exact example_state_history.
  - reflexivity.
  - exact Hn.
Defined.

Lemma put_keeps_wf_witness :
  wf example_state
  /\ (length (heap example_state) < 10)%nat
  /\ exists s', put 10 [x04] [x0d] example_state = Ok s' /\ wf s'.
Proof.
  split; [exact example_state_wf|]. split; [vm_compute; lia|].
  apply (put_keeps_wf example_state 10 [x04] [x0d]).
  - exact example_state_wf.
  - vm_compute. lia.
Defined.

Lemma rotate_left_keeps_inorder_witness :
  repz example_attached
    (T 2 true E [x03] [x0c] (T 3 true E [x04] [x0d] E))
    [InRight 1 false (T 0 true E [x01] [x0a] E) [x02] [x0b]]
  /\ exists s',
       rotate_left example_attached (Some 2%nat) = Ok s'
       /\ repz s' (T 3 true (T 2 true E [x03] [x0c] E) [x04] [x0d] E)
            [InRight 1 false (T 0 true E [x01] [x0a] E) [x02] [x0b]]
       /\ keys_inorder
            (plug (T 3 true (T 2 true E [x03] [x0c] E) [x04] [x0d] E)
               [InRight 1 false (T 0 true E [x01] [x0a] E) [x02] [x0b]])
          = keys_inorder
              (plug (T 2 true E [x03] [x0c] (T 3 true E [x04] [x0d] E))
                 [InRight 1 false (T 0 true E [x01] [x0a] E) [x02] [x0b]]).
Proof.
  split; [exact example_attached_focus|].
  apply (rotate_left_keeps_inorder example_attached 2 true E [x03] [x0c]
           3 true E [x04] [x0d] E
           [InRight 1 false (T 0 true E [x01] [x0a] E) [x02] [x0b]]).
  exact example_attached_focus.
Defined.

Lemma rotate_right_keeps_inorder_witness :
  repz example_state example_tree []
  /\ exists s',
       rotate_right example_state (Some 1%nat) = Ok s'
       /\ repz s'
            (T 0 true E [x01] [x0a]
               (T 1 false E [x02] [x0b] (T 2 true E [x03] [x0c] E))) []
       /\ keys_inorder
            (plug (T 0 true E [x01] [x0a]
                     (T 1 false E [x02] [x0b] (T 2 true E [x03] [x0c] E))) [])
          = keys_inorder
              (plug (T 1 false (T 0 true E [x01] [x0a] E) [x02] [x0b]
                       (T 2 true E [x03] [x0c] E)) []).
Proof.
  split; [exact example_state_focus|].
  apply (rotate_right_keeps_inorder example_state 1 false 0 true E
           [x01] [x0a] E [x02] [x0b] (T 2 true E [x03] [x0c] E) []).
  exact example_state_focus.
Defined.

Lemma get_returns_witness :
  wf example_state
  /\ (length (heap example_state) <= 3)%nat
  /\ exists found out, get 3 [x02] [] example_state = Ok (found, out).
Proof.
  split; [exact example_state_wf|]. split; [simpl; lia|].
  apply (get_returns example_state 3 [x02] []).
  - exact example_state_wf.
  - simpl. lia.
Defined.

(** ** compare_keys on all keys *)


Lemma compare_loop_antisym fuel i m a b :
  compare_loop fuel i m b a
  = match compare_loop fuel i m a b with Some r => Some (- r) | None => None end.
Proof.
  revert i. induction fuel as [|fuel IH]; intros i; simpl; [done|].
  destruct (i <? m); [|done].
  destruct (byte_lt (at_index a i) (at_index b i)) eqn:Hab.
  - by rewrite (byte_lt_asym _ _ Hab).
  - destruct (byte_lt (at_index b i) (at_index a i)); [done|]. apply IH.
Qed.

Lemma compare_loop_range fuel i m a b r :
  compare_loop fuel i m a b = Some r -> r = -1 \/ r = 1.
Proof.
  revert i. induction fuel as [|fuel IH]; intros i; simpl; [done|].
  destruct (i <? m); [|done].
  destruct (byte_lt (at_index a i) (at_index b i)); [intros [= <-]; by left|].
  destruct (byte_lt (at_index b i) (at_index a i)); [intros [= <-]; by right|].
  apply IH.
Qed.

(** For all keys, of any length: swapping the arguments of [compare_keys]
    negates the result, the result is -1, 0 or 1, and a key compares equal
    to itself. *)
Theorem compare_keys_antisymmetric (a b : list byte) :
  compare_keys b a = - compare_keys a b
  /\ -1 <= compare_keys a b <= 1
  /\ compare_keys a a = 0.
Proof.
  assert (Hanti : forall x y, compare_keys y x = - compare_keys x y).
  { intros x y. unfold compare_keys. cbv zeta.
    assert (Hmin : (if size y <? size x then size y else size x)
                   = (if size x <? size y then size x else size y)).
    { destruct (Z.ltb_spec (size y) (size x)), (Z.ltb_spec (size x) (size y)); lia. }
    rewrite Hmin, compare_loop_antisym.
    destruct (compare_loop _ _ _ x y); [done|].
    destruct (Z.ltb_spec (size y) (size x)), (Z.ltb_spec (size x) (size y)); lia. }
  split; [apply Hanti|]. split.
  - unfold compare_keys. cbv zeta.
    destruct (compare_loop _ _ _ a b) as [r|] eqn:Hl.
    + destruct (compare_loop_range _ _ _ _ _ _ Hl); lia.
    + destruct (size a <? size b); [lia|]. destruct (size b <? size a); lia.
  - pose proof (Hanti a a). lia.
Qed.

Lemma compare_loop_prefix fuel j n (a b : list byte) :
  (fuel + j = n)%nat -> (n <= length a)%nat -> (n <= length b)%nat ->
  compare_loop fuel (Z.of_nat j) (Z.of_nat n) a b
  = (let r := spec_compare (take (n - j) (drop j a)) (take (n - j) (drop j b)) in
     if r =? 0 then None else Some r).
Proof.
  revert j. induction fuel as [|fuel IH]; intros j Hj Ha Hb.
  - replace (n - j)%nat with O by lia. reflexivity.
  - cbn [compare_loop].
    destruct (Z.ltb_spec (Z.of_nat j) (Z.of_nat n)); [|lia].
    pose proof (length_drop a j) as Hla. pose proof (length_drop b j) as Hlb.
    destruct (drop j a) as [|x a'] eqn:Ea; [simpl in Hla; lia|].
    destruct (drop j b) as [|y b'] eqn:Eb; [simpl in Hlb; lia|].
    rewrite (at_index_drop _ _ _ _ Ea), (at_index_drop _ _ _ _ Eb).
    replace (n - j)%nat with (S (n - S j)) by lia.
    cbn [take spec_compare]. cbv zeta.
    destruct (byte_lt x y); [reflexivity|].
    destruct (byte_lt y x); [reflexivity|].
    replace (Z.of_nat j + 1) with (Z.of_nat (S j)) by lia.
    rewrite (IH (S j)) by lia.
    by rewrite (drop_cons_next _ _ _ _ Ea), (drop_cons_next _ _ _ _ Eb).
Qed.

(** For all keys, of any length: [compare_keys] compares the first
    [compared_prefix a b] bytes of both keys lexicographically and, when
    they agree, the sizes. *)
Theorem compare_keys_compares_prefix (a b : list byte) :
  compare_keys a b
  = (let r := spec_compare (take (compared_prefix a b) a)
                           (take (compared_prefix a b) b) in
     if r =? 0 then compare_sizes a b else r).
Proof.
  unfold compare_keys, compared_prefix. cbv zeta.
  assert (Hmin : (if size a <? size b then size a else size b)
                 = Z.min (size a) (size b)).
  { destruct (Z.ltb_spec (size a) (size b)); lia. }
  rewrite Hmin.
  pose proof (to_int_le (Z.min (size a) (size b))) as Hle.
  set (m := to_int (Z.min (size a) (size b))) in *.
  unfold size in Hle.
  destruct (Z.le_gt_cases m 0) as [Hm|Hm].
  - replace (Z.to_nat m) with O by lia. reflexivity.
  - replace m with (Z.of_nat (Z.to_nat m)) at 2 by lia.
    rewrite (compare_loop_prefix (Z.to_nat m) O (Z.to_nat m)) by lia.
    rewrite Nat.sub_0_r, !drop_0. cbv zeta.
    destruct (spec_compare _ _ =? 0); reflexivity.
Qed.


(** ** Heap sizes *)


Lemma bind_Ok {A B} (m : result A) (k : A -> result B) y :
  bind m k = Ok y -> exists x, m = Ok x /\ k x = Ok y.
Proof. destruct m; simpl; [eauto|discriminate|discriminate]. Qed.

Lemma store_length s p f s' :
  store s p f = Ok s' -> length (heap s') = length (heap s).
Proof.
  unfold store. destruct p as [a|]; [|discriminate].
  destruct (heap s !! a); [|discriminate].
  intros [= <-]. simpl. apply length_insert.
Qed.

Lemma store_root s p f s' : store s p f = Ok s' -> root s' = root s.
Proof.
  unfold store. destruct p as [a|]; [|discriminate].
  destruct (heap s !! a); [|discriminate].
  by intros [= <-].
Qed.

Ltac length_step :=
  match goal with
  | H : bind _ _ = Ok _ |- _ =>
      let x := fresh "x" in let Hx := fresh "Hx" in
      apply bind_Ok in H as (x & Hx & H)
  | H : (if ?c then _ else _) = Ok _ |- _ => destruct c
  | H : store _ _ _ = Ok _ |- _ => apply store_length in H
  | H : set_left _ _ _ = Ok _ |- _ => apply store_length in H
  | H : set_right _ _ _ = Ok _ |- _ => apply store_length in H
  | H : set_parent _ _ _ = Ok _ |- _ => apply store_length in H
  | H : set_is_red _ _ _ = Ok _ |- _ => apply store_length in H
  | H : set_value _ _ _ = Ok _ |- _ => apply store_length in H
  | H : Ok _ = Ok _ |- _ => injection H as H; try subst
  | H : (_, _) = (_, _) |- _ => injection H as ? ?; try subst
  end.

Lemma rotate_left_length s node s' :
  rotate_left s node = Ok s' -> length (heap s') = length (heap s).
Proof.
  unfold rotate_left. intros H. repeat length_step; simpl in *; congruence.
Qed.

Lemma rotate_right_length s node s' :
  rotate_right s node = Ok s' -> length (heap s') = length (heap s).
Proof.
  unfold rotate_right. intros H. repeat length_step; simpl in *; congruence.
Qed.

Lemma fix_insert_body_length s node s' node' :
  fix_insert_body s node = Ok (s', node') ->
  length (heap s') = length (heap s).
Proof.
  unfold fix_insert_body. intros H.
  repeat (first [length_step
                |match goal with
                 | H : rotate_left _ _ = Ok _ |- _ => apply rotate_left_length in H
                 | H : rotate_right _ _ = Ok _ |- _ => apply rotate_right_length in H
                 end]); simpl in *; congruence.
Qed.

Lemma fix_insert_loop_length fuel s node s' :
  fix_insert_loop fuel s node = Ok s' -> length (heap s') = length (heap s).
Proof.
  revert s node. induction fuel as [|fuel IH]; intros s node; simpl;
    [discriminate|].
  intros H. apply bind_Ok in H as (c & _ & H). destruct c.
  - apply bind_Ok in H as ([s1 n1] & Hb & H). simpl in H.
    apply IH in H. apply fix_insert_body_length in Hb. congruence.
  - by injection H as <-.
Qed.

Lemma fix_insert_length fuel s node s' :
  fix_insert fuel s node = Ok s' -> length (heap s') = length (heap s).
Proof.
  unfold fix_insert. intros H. apply bind_Ok in H as (s1 & Hl & H).
  apply fix_insert_loop_length in Hl. apply store_length in H. congruence.
Qed.

Lemma put_attach_length s k v p s' n :
  put_attach s k v p = Ok (s', n) -> length (heap s') = S (length (heap s)).
Proof.
  unfold put_attach. intros H.
  apply bind_Ok in H as (s1 & H1 & H). apply store_length in H1.
  apply bind_Ok in H as (s2 & H2 & H). injection H as <- <-.
  assert (length (heap s2) = length (heap s1)) as ->.
  { destruct (is_null p); [by injection H2 as <-|].
    apply bind_Ok in H2 as (pk & _ & H2).
    destruct (_ <? 0); by apply store_length in H2. }
  rewrite H1. unfold new_Node. simpl. rewrite length_app. simpl. lia.
Qed.

Lemma put_descend_Replaced_length fuel s k v par p s' :
  put_descend fuel s k v par p = Ok (Replaced s') ->
  length (heap s') = length (heap s).
Proof.
  revert par p. induction fuel as [|fuel IH]; intros par p; simpl.
  - destruct p; discriminate.
  - destruct p as [a|]; [|discriminate].
    intros H. apply bind_Ok in H as (ck & _ & H).
    destruct (compare_keys k ck =? 0).
    + apply bind_Ok in H as (s1 & Hs & H). injection H as <-.
      exact (store_length _ _ _ _ Hs).
    + destruct (compare_keys k ck <? 0);
        apply bind_Ok in H as (q & _ & H); by apply IH in H.
Qed.

Lemma addrs_fill_length f t :
  length (addrs (fill f t)) = (length (addrs t) + length (frame_addrs f))%nat.
Proof. destruct f; simpl; rewrite ?length_app; simpl; lia. Qed.

Lemma addrs_plug_length t ctx :
  length (addrs (plug t ctx))
  = (length (addrs t) + length (ctx_addrs ctx))%nat.
Proof.
  revert t. induction ctx as [|f ctx IH]; intros t; simpl; [lia|].
  rewrite IH, addrs_fill_length, length_app. lia.
Qed.

Lemma addrs_blacken t : addrs (blacken t) = addrs t.
Proof. by destruct t. Qed.

Lemma addrs_fix_body_length t ctx t' ctx' :
  fix_body t ctx = Some (t', ctx') ->
  length (addrs (plug t' ctx')) = length (addrs (plug t ctx)).
Proof.
  intros Hbody.
  destruct t as [|n cn l kn vn r]; [discriminate|].
  destruct ctx as [|f [|g ctx2]];
    try discriminate; try (destruct f; discriminate).
  destruct g as [g cg kg vg u|g cg u kg vg]; cbn [fix_body] in Hbody;
    destruct (red_root u);
    destruct f as [p cp kp vp pr|p cp pl kp vp];
    injection Hbody as <- <-;
    rewrite !addrs_plug_length; simpl; rewrite ?addrs_blacken;
    repeat (rewrite ?length_app; simpl); lia.
Qed.

Lemma addrs_fix_loop_length fuel t ctx t' ctx' :
  fix_loop fuel t ctx = Some (t', ctx') ->
  length (addrs (plug t' ctx')) = length (addrs (plug t ctx)).
Proof.
  revert t ctx. induction fuel as [|fuel IH]; intros t ctx; cbn [fix_loop];
    [discriminate|].
  destruct (fix_cond ctx).
  - destruct (fix_body t ctx) as [[t1 ctx1]|] eqn:Hbody; [|discriminate].
    intros Hloop. rewrite (IH _ _ Hloop). by apply addrs_fix_body_length.
  - by intros [= <- <-].
Qed.

Lemma insert_tree_length fuel new k v t t' :
  insert_tree fuel new k v t = Some t' ->
  length (addrs t') = (length (addrs t) + allocated k t)%nat.
Proof.
  unfold insert_tree, allocated. destruct t as [|a c l kx vx r].
  - by intros [= <-].
  - rewrite (lookup_tree_descend k (T a c l kx vx r) []).
    pose proof (descend_plug k (T a c l kx vx r) []) as Hplug.
    destruct (descend k (T a c l kx vx r) []) as [[|a1 c1 l1 k1 v1 r1] ctx1];
      cbn [fst snd plug] in *.
    + destruct (fix_loop _ _ _) as [[t2 ctx2]|] eqn:Hloop; [|discriminate].
      intros [= <-].
      rewrite addrs_blacken, (addrs_fix_loop_length _ _ _ _ _ Hloop).
      rewrite <- Hplug, !addrs_plug_length. simpl. lia.
    + intros [= <-]. rewrite <- Hplug, !addrs_plug_length. simpl.
      rewrite !length_app. simpl. lia.
Qed.

Lemma put_heap_length fuel k v s s' t :
  represents s t -> put fuel k v s = Ok s' ->
  length (heap s') = (length (heap s) + allocated k t)%nat.
Proof.
  intros Hrep Hput. unfold allocated.
  pose proof (repz_root _ _ Hrep) as Hroot.
  unfold put in Hput. rewrite Hroot in Hput.
  destruct t as [|a c l kx vx r]; cbn [ptr_of is_null] in Hput.
  - unfold new_Node, set_root in Hput. cbn [fst snd] in Hput.
    apply store_length in Hput. simpl in Hput.
    rewrite length_app in Hput. simpl in *. lia.
  - apply bind_Ok in Hput as (d & Hd & Hput).
    pose proof (represents_height _ _ Hrep) as Hh.
    apply (put_descend_mono _ (Nat.max fuel (length (heap s)))) in Hd; [|lia].
    pose proof (put_descend_spec (Nat.max fuel (length (heap s))) s k v
                  (T a c l kx vx r) [] Hrep) as Hspec.
    rewrite (lookup_tree_descend k (T a c l kx vx r) []).
    destruct (descend k (T a c l kx vx r) []) as [[|a1 c1 l1 k1 v1 r1] ctx1];
      cbn [fst snd].
    + cbn [ctx_ptr ptr_of] in Hspec, Hd. rewrite Hspec in Hd by lia.
      injection Hd as <-.
      apply bind_Ok in Hput as ([s1 n1] & Ha & Hput). cbn [fst snd] in Hput.
      apply put_attach_length in Ha. apply fix_insert_length in Hput. lia.
    + destruct Hspec as (s1 & Hs1 & _); [lia|].
      cbn [ctx_ptr ptr_of] in Hs1, Hd. rewrite Hs1 in Hd. injection Hd as <-.
      injection Hput as <-.
      apply put_descend_Replaced_length in Hs1. lia.
Qed.

Lemma reachable_no_garbage s : reachable s -> exists t, no_garbage s t.
Proof.
  induction 1 as [|s fuel k v s' _ (t & Hrep & Hrb & Hlen) Hput].
  - destruct empty_tree_wf as (t & Hrep & Hrb). exists t.
    split; [exact Hrep|]. split; [exact Hrb|].
    pose proof (represents_height _ _ Hrep) as Hh. simpl in Hh.
    destruct t; [done|simpl in Hh; lia].
  - destruct (put_wf_any _ _ _ _ _ _ Hrep Hrb Hput)
      as (fuel' & t' & Hins & Hrep' & Hrb').
    exists t'. split; [exact Hrep'|]. split; [exact Hrb'|].
    rewrite (insert_tree_length _ _ _ _ _ _ Hins).
    rewrite (put_heap_length _ _ _ _ _ _ Hrep Hput). lia.
Qed.


(** ** The destructor and the height of the tree *)

Lemma postorder_elem a t : a ∈ postorder t <-> a ∈ addrs t.
Proof.
  induction t as [|b c l IHl k v r IHr]; simpl; [done|].
  rewrite !elem_of_app, list_elem_of_singleton, elem_of_cons, IHl, IHr. tauto.
Qed.

Lemma postorder_length t : length (postorder t) = length (addrs t).
Proof.
  induction t as [|b c l IHl k v r IHr]; simpl; [done|].
  rewrite !length_app, IHl, IHr. simpl. lia.
Qed.

Lemma postorder_NoDup t : NoDup (addrs t) -> NoDup (postorder t).
Proof.
  induction t as [|b c l IHl k v r IHr]; simpl; [constructor|].
  rewrite NoDup_app, NoDup_cons. intros (Hl & Hlr & Hb & Hr).
  apply NoDup_app. split; [auto|]. split.
  - intros x Hx Hx'. apply postorder_elem in Hx.
    apply elem_of_app in Hx' as [Hx'|Hx'].
    + apply postorder_elem in Hx'. apply (Hlr x Hx). by right.
    + apply list_elem_of_singleton in Hx' as ->. apply (Hlr b Hx). by left.
  - apply NoDup_app. split; [auto|]. split; [|apply NoDup_singleton].
    intros x Hx Hx'. apply postorder_elem in Hx.
    by apply list_elem_of_singleton in Hx' as ->.
Qed.

Lemma load_live_ok s freed a n :
  heap s !! a = Some n -> a ∉ freed -> load_live s freed (Some a) = Ok n.
Proof.
  intros Hn Ha. unfold load_live. rewrite bool_decide_eq_false_2 by exact Ha.
  by apply load_ok.
Qed.

Lemma delete_tree_spec fuel s par t freed :
  rep (heap s) par t -> NoDup (addrs t) ->
  (forall a, a ∈ addrs t -> a ∉ freed) ->
  (height t <= fuel)%nat ->
  delete_tree fuel s freed (ptr_of t) = Ok (freed ++ postorder t).
Proof.
  revert fuel par freed.
  induction t as [|a c l IHl k v r IHr]; intros fuel par freed.
  - intros _ _ _ _. destruct fuel; simpl; by rewrite app_nil_r.
  - intros (Ha & Hl & Hr) Hnd Hfresh Hfuel.
    simpl in Hnd. apply NoDup_app in Hnd as (Hndl & Hlr & Hnd).
    apply NoDup_cons in Hnd as [Har Hndr].
    destruct fuel as [|fuel]; [simpl in Hfuel; lia|].
    simpl in Hfuel.
    assert (Hal : a ∉ addrs l).
    { intros Hx. apply (Hlr a Hx). by left. }
    cbn [ptr_of delete_tree].
    rewrite (load_live_ok _ _ _ _ Ha); [|apply Hfresh; simpl; set_solver].
    cbn [bind left].
    rewrite (IHl fuel (Some a) freed Hl Hndl); [|intros x Hx; apply Hfresh; simpl; set_solver|lia].
    cbn [bind].
    rewrite (load_live_ok _ _ _ _ Ha).
    2:{ rewrite elem_of_app, postorder_elem. intros [Hx|Hx]; [|done].
        revert Hx. apply Hfresh. simpl. set_solver. }
    cbn [bind right].
    rewrite (IHr fuel (Some a) (freed ++ postorder l) Hr Hndr); [| |lia].
    2:{ intros x Hx. rewrite elem_of_app, postorder_elem. intros [Hx'|Hx'].
        - revert Hx'. apply Hfresh. simpl. set_solver.
        - apply (Hlr x Hx'). by right. }
    cbn [bind delete_Node].
    rewrite (load_live_ok _ _ _ _ Ha).
    2:{ rewrite !elem_of_app, !postorder_elem. intros [[Hx|Hx]|Hx]; [|done|done].
        revert Hx. apply Hfresh. simpl. set_solver. }
    cbn [bind]. by rewrite <- !app_assoc.
Qed.

(** On every state reachable by calls of [put] the destructor returns, does
    not read a deleted node, and deletes every allocated node exactly
    once. *)
Theorem destructor_frees_every_node (s : State) (fuel : nat) :
  reachable s ->
  (length (heap s) <= fuel)%nat ->
  exists freed,
    destroy fuel s = Ok freed
    /\ NoDup freed
    /\ forall a, a ∈ freed <-> (a < length (heap s))%nat.
Proof.
  intros Hreach Hfuel.
  destruct (reachable_no_garbage s Hreach) as (t & Hrep & _ & Hlen).
  pose proof (represents_height _ _ Hrep) as Hh.
  destruct Hrep as (Hrep & _ & Hroot & Hnd).
  simpl in Hroot, Hnd. rewrite app_nil_r in Hnd.
  exists (postorder t). unfold destroy. rewrite Hroot.
  rewrite (delete_tree_spec fuel s None t [] Hrep Hnd); [|intros a _; apply not_elem_of_nil|lia].
  split; [reflexivity|]. split; [by apply postorder_NoDup|].
  intros a. rewrite postorder_elem. split.
  - intros Ha. by apply (rep_lt _ _ _ _ Hrep).
  - intros Ha.
    assert (Hperm : addrs t ≡ₚ seq 0 (length (heap s))).
    { apply submseteq_length_Permutation.
      - apply NoDup_submseteq; [exact Hnd|].
        intros x Hx. apply elem_of_seq. split; [lia|].
        simpl. by apply (rep_lt _ _ _ _ Hrep).
      - rewrite length_seq. lia. }
    rewrite Hperm. apply elem_of_seq. lia.
Qed.

Lemma has_bh_size t n : has_bh t n -> (2 ^ n <= S (length (addrs t)))%nat.
Proof.
  revert n. induction t as [|a c l IHl k v r IHr]; intros n; simpl.
  - intros ->. simpl. lia.
  - rewrite length_app. simpl. destruct c.
    + intros [Hl _]. specialize (IHl _ Hl). lia.
    + destruct n as [|m]; [done|]. intros [Hl Hr].
      specialize (IHl _ Hl). specialize (IHr _ Hr).
      rewrite Nat.pow_succ_r'. lia.
Qed.

Lemma has_bh_height t n :
  no_red_red t -> has_bh t n ->
  (height t <= 2 * n + (if red_root t then 1 else 0))%nat.
Proof.
  revert n. induction t as [|a c l IHl k v r IHr]; intros n; simpl.
  - lia.
  - intros (Hc & Hnl & Hnr). destruct c.
    + destruct (Hc eq_refl) as [Hrl Hrr]. intros [Hl Hr].
      specialize (IHl _ Hnl Hl). specialize (IHr _ Hnr Hr).
      rewrite Hrl in IHl. rewrite Hrr in IHr. lia.
    + destruct n as [|m]; [done|]. intros [Hl Hr].
      specialize (IHl _ Hnl Hl). specialize (IHr _ Hnr Hr).
      destruct (red_root l), (red_root r); lia.
Qed.

Lemma red_black_height t :
  red_black t -> (height t <= 2 * Nat.log2 (S (length (addrs t))))%nat.
Proof.
  intros (Hroot & Hnrr & n & Hbh).
  pose proof (has_bh_height t n Hnrr Hbh) as Hh. rewrite Hroot in Hh.
  pose proof (has_bh_size t n Hbh) as Hs.
  apply Nat.log2_le_pow2 in Hs; lia.
Qed.

(** On a state reachable by calls of [put], with n nodes, [get] returns
    within 2 * log2 (n + 1) iterations of the loop of [find_node], and [put]
    returns with one iteration more as the bound of each of its loops. *)
Theorem reachable_logarithmic_height (s : State) (fuel : nat)
    (k v out_value : list byte) :
  reachable s ->
  (2 * Nat.log2 (S (length (heap s))) <= fuel)%nat ->
  (exists found out, get fuel k out_value s = Ok (found, out))
  /\ exists s', put (S fuel) k v s = Ok s'.
Proof.
  intros Hreach Hfuel.
  destruct (reachable_no_garbage s Hreach) as (t & Hrep & Hrb & Hlen).
  pose proof (red_black_height t Hrb) as Hh. rewrite Hlen in Hh.
  split.
  - rewrite (get_spec fuel s k out_value t Hrep) by lia.
    destruct (lookup_tree k t) as [[a x]|]; eauto.
  - destruct (insert_tree_red_black (S fuel) (length (heap s)) k v t Hrb)
      as (t' & Hins & _); [lia|].
    destruct (put_spec (S fuel) s k v t t' Hrep) as (s' & Hput & _);
      [lia|exact Hins|]. eauto.
Qed.


(** ** get after a sequence of puts *)

Lemma keys_bindings t : keys_inorder t = (bindings t).*1.
Proof.
  induction t as [|a c l IHl k v r IHr]; simpl; [done|].
  by rewrite fmap_app, IHl, IHr.
Qed.

Lemma keys_before_bindings ctx : keys_before ctx = (bindings_before ctx).*1.
Proof.
  induction ctx as [|[a c k v r|a c l k v] ctx IH]; simpl; [done|done|].
  by rewrite !fmap_app, IH, keys_bindings.
Qed.

Lemma keys_after_bindings ctx : keys_after ctx = (bindings_after ctx).*1.
Proof.
  induction ctx as [|[a c k v r|a c l k v] ctx IH]; simpl; [done| |done].
  by rewrite !fmap_app, IH, keys_bindings.
Qed.

Lemma bindings_plug t ctx :
  bindings (plug t ctx)
  = bindings_before ctx ++ bindings t ++ bindings_after ctx.
Proof.
  revert t. induction ctx as [|f ctx IH]; intros t; simpl.
  - by rewrite app_nil_r.
  - rewrite IH. destruct f; simpl; by rewrite <- ?app_assoc.
Qed.

Lemma bindings_blacken t : bindings (blacken t) = bindings t.
Proof. by destruct t. Qed.

Lemma bindings_fix_body t ctx t' ctx' :
  fix_body t ctx = Some (t', ctx') ->
  bindings (plug t' ctx') = bindings (plug t ctx).
Proof.
  intros Hbody.
  destruct t as [|n cn l kn vn r]; [discriminate|].
  destruct ctx as [|f [|g ctx2]];
    try discriminate; try (destruct f; discriminate).
  destruct g as [g cg kg vg u|g cg u kg vg]; cbn [fix_body] in Hbody;
    destruct (red_root u);
    destruct f as [p cp kp vp pr|p cp pl kp vp];
    injection Hbody as <- <-;
    rewrite !bindings_plug; simpl; rewrite ?bindings_blacken;
    repeat (rewrite <- ?app_assoc; simpl); reflexivity.
Qed.

Lemma bindings_fix_loop fuel t ctx t' ctx' :
  fix_loop fuel t ctx = Some (t', ctx') ->
  bindings (plug t' ctx') = bindings (plug t ctx).
Proof.
  revert t ctx. induction fuel as [|fuel IH]; intros t ctx; cbn [fix_loop];
    [discriminate|].
  destruct (fix_cond ctx).
  - destruct (fix_body t ctx) as [[t1 ctx1]|] eqn:Hbody; [|discriminate].
    intros Hloop. rewrite (IH _ _ Hloop). by apply bindings_fix_body.
  - by intros [= <- <-].
Qed.

Lemma descend_bindings k t ctx0 t' ctx :
  descend k t ctx0 = (t', ctx) ->
  exists L R,
    bindings t = L ++ bindings t' ++ R
    /\ bindings_before ctx = bindings_before ctx0 ++ L
    /\ bindings_after ctx = R ++ bindings_after ctx0.
Proof.
  revert ctx0. induction t as [|a c l IHl kx vx r IHr]; intros ctx0; simpl.
  - intros [= <- <-]. exists [], []. simpl. by rewrite app_nil_r.
  - destruct (compare_keys k kx =? 0).
    { intros [= <- <-]. exists [], []. simpl. by rewrite !app_nil_r. }
    destruct (compare_keys k kx <? 0); intros Hd.
    + destruct (IHl _ Hd) as (L & R & Hk & Hb & Ha).
      exists L, (R ++ (kx, vx) :: bindings r).
      split; [by rewrite Hk, <- !app_assoc|].
      split; [exact Hb|].
      by rewrite Ha; simpl; rewrite <- !app_assoc.
    + destruct (IHr _ Hd) as (L & R & Hk & Hb & Ha).
      exists (bindings l ++ (kx, vx) :: L), R.
      split; [by rewrite Hk, <- !app_assoc|].
      split; [|exact Ha].
      by rewrite Hb; simpl; rewrite <- !app_assoc.
Qed.

Lemma assoc_app k L M :
  assoc k (L ++ M)
  = match assoc k L with Some v => Some v | None => assoc k M end.
Proof.
  induction L as [|[k' v] L IH]; simpl; [done|].
  destruct (decide (k = k')); [done|exact IH].
Qed.

Lemma assoc_None k L : k ∉ L.*1 -> assoc k L = None.
Proof.
  induction L as [|[k' v] L IH]; simpl; [done|].
  intros Hk. apply not_elem_of_cons in Hk as [Hne Hk].
  destruct (decide (k = k')); [done|auto].
Qed.

Lemma assoc_insert L R k v k' :
  k ∉ L.*1 ->
  assoc k' (L ++ (k, v) :: R)
  = if decide (k' = k) then Some v else assoc k' (L ++ R).
Proof.
  intros Hk. rewrite !assoc_app. simpl.
  destruct (decide (k' = k)) as [->|Hne]; [|done].
  by rewrite (assoc_None _ _ Hk).
Qed.

Lemma assoc_update L R k v v0 k' :
  k ∉ L.*1 ->
  assoc k' (L ++ (k, v) :: R)
  = if decide (k' = k) then Some v else assoc k' (L ++ (k, v0) :: R).
Proof.
  intros Hk. rewrite !assoc_app. simpl.
  destruct (decide (k' = k)) as [->|Hne]; [|done].
  by rewrite (assoc_None _ _ Hk).
Qed.

Lemma key_lt_ne x y : key_lt x y -> x <> y.
Proof. intros H ->. by apply (key_lt_irrefl y). Qed.

Lemma insert_tree_assoc fuel new k v t t' :
  insert_tree fuel new k v t = Some t' ->
  short_key k ->
  StronglySorted key_lt (keys_inorder t) ->
  forall k', assoc k' (bindings t')
             = if decide (k' = k) then Some v else assoc k' (bindings t).
Proof.
  unfold insert_tree. destruct t as [|a c l kx vx r].
  - intros [= <-] _ _ k'. simpl. by destruct (decide (k' = k)).
  - pose proof (descend_keys k (T a c l kx vx r) []) as Hkeys.
    pose proof (descend_bindings k (T a c l kx vx r) []) as Hbind.
    pose proof (descend_plug k (T a c l kx vx r) []) as Hplug.
    pose proof (descend_found k (T a c l kx vx r) []) as Hfound.
    set (t0 := T a c l kx vx r) in *.
    destruct (descend k t0 []) as [[|a1 c1 l1 k1 v1 r1] ctx1];
      cbn [fst snd plug] in *.
    + destruct (fix_loop _ _ _) as [[t2 ctx2]|] eqn:Hloop; [|discriminate].
      intros [= <-] Hshort Hsorted k'.
      destruct (Hkeys _ _ eq_refl) as (Lk & Rk & Hk & Hkb & Hka & Hs).
      destruct (Hbind _ _ eq_refl) as (L & R & Hb & Hbb & Hba).
      destruct (Hs Hshort Hsorted) as [HL _].
      simpl in Hkb, Hka, Hbb, Hba. rewrite app_nil_r in Hka, Hba.
      rewrite keys_before_bindings, Hbb in Hkb. subst Lk.
      rewrite bindings_blacken, (bindings_fix_loop _ _ _ _ _ Hloop).
      rewrite bindings_plug, Hbb, Hba, Hb. simpl.
      apply assoc_insert. intros Hin.
      by apply (key_lt_ne k k); [apply (proj1 (Forall_forall _ _) HL)|].
    + intros [= <-] Hshort Hsorted k'.
      specialize (Hfound _ _ _ _ _ _ _ eq_refl).
      rewrite (compare_keys_short_l _ _ Hshort) in Hfound.
      apply Z.eqb_eq, spec_compare_eq in Hfound as <-.
      rewrite <- Hplug in Hsorted |- *.
      rewrite keys_bindings in Hsorted.
      rewrite !bindings_plug in *. cbn [bindings] in *.
      assert (Hshape : forall w,
                bindings_before ctx1 ++ (bindings l1 ++ (k, w) :: bindings r1)
                  ++ bindings_after ctx1
                = (bindings_before ctx1 ++ bindings l1)
                    ++ (k, w) :: (bindings r1 ++ bindings_after ctx1)).
      { intros w. by rewrite <- !app_assoc. }
      rewrite !Hshape in *.
      apply (assoc_update _ _ k v v1 k').
      apply StronglySorted_key_lt_NoDup in Hsorted.
      rewrite fmap_app in Hsorted. apply NoDup_app in Hsorted as (_ & Hd & _).
      intros Hin. apply (Hd k Hin). simpl. left.
Qed.

Lemma lookup_tree_assoc k t :
  Forall short_key (keys_inorder t) ->
  StronglySorted key_lt (keys_inorder t) ->
  snd <$> lookup_tree k t = assoc k (bindings t).
Proof.
  induction t as [|a c l IHl kx vx r IHr]; simpl; [done|].
  intros Hshort Hsorted.
  apply Forall_app in Hshort as [Hsl Hsr].
  apply Forall_cons in Hsr as [Hsk Hsr].
  apply StronglySorted_app in Hsorted as (Hlr & Hl & Hr).
  apply StronglySorted_cons in Hr as [Hkr Hr].
  rewrite (compare_keys_short_r _ _ Hsk), assoc_app. simpl.
  assert (Hlk : forall x, x ∈ keys_inorder l -> key_lt x kx).
  { intros x Hx. apply (Hlr x kx Hx). left. }
  destruct (Z.eqb_spec (spec_compare k kx) 0) as [He|Hne].
  - apply spec_compare_eq in He as ->.
    rewrite assoc_None.
    + destruct (decide (kx = kx)); [reflexivity|congruence].
    + rewrite <- keys_bindings. intros Hin.
      by apply (key_lt_irrefl kx), Hlk.
  - assert (k <> kx) by (intros ->; apply Hne, spec_compare_eq; done).
    destruct (decide (k = kx)); [done|].
    destruct (Z.ltb_spec (spec_compare k kx) 0) as [Hlt|Hge].
    + rewrite (IHl Hsl Hl).
      destruct (assoc k (bindings l)); [done|].
      symmetry. apply assoc_None. rewrite <- keys_bindings. intros Hin.
      apply (key_lt_irrefl k).
      apply (spec_compare_trans k kx k); [exact Hlt|].
      by apply (proj1 (Forall_forall _ _) Hkr).
    + rewrite (IHr Hsr Hr), (assoc_None k (bindings l)); [done|].
      rewrite <- keys_bindings. intros Hin.
      apply (key_lt_irrefl k).
      apply (spec_compare_trans k kx k); [by apply Hlk|].
      pose proof (spec_compare_antisym k kx). unfold key_lt in *. lia.
Qed.

Lemma put_trace_inv h s :
  put_trace h s -> Forall short_key h.*1 ->
  exists t, represents s t /\ red_black t
    /\ Forall short_key (keys_inorder t)
    /\ StronglySorted key_lt (keys_inorder t)
    /\ forall k, assoc k (bindings t) = assoc k h.
Proof.
  induction 1 as [|h s fuel k v s' _ IH Hput]; intros Hshort.
  - destruct empty_tree_wf as (t & Hrep & Hrb).
    pose proof (represents_height _ _ Hrep) as Hh. simpl in Hh.
    destruct t; [|simpl in Hh; lia].
    exists E. split; [exact Hrep|]. split; [exact Hrb|].
    split; [constructor|]. split; [constructor|done].
  - rewrite fmap_cons in Hshort. apply Forall_cons in Hshort as [Hsk Hsh].
    destruct (IH Hsh) as (t & Hrep & Hrb & Hst & Hsorted & Hassoc).
    destruct (put_wf_any _ _ _ _ _ _ Hrep Hrb Hput)
      as (fuel' & t' & Hins & Hrep' & Hrb').
    destruct (insert_tree_keys _ _ _ _ _ _ Hins) as [Hk Hs].
    exists t'. split; [exact Hrep'|]. split; [exact Hrb'|]. split.
    { apply Forall_forall. intros x Hx. destruct (Hk x Hx) as [->|Hx'].
      - exact Hsk.
      - by apply (proj1 (Forall_forall _ _) Hst). }
    split; [by apply Hs|].
    intros k'. rewrite (insert_tree_assoc _ _ _ _ _ _ Hins Hsk Hsorted).
    simpl. destruct (decide (k' = k)); [done|apply Hassoc].
Qed.

(** After any sequence of calls of [put] with keys shorter than 2^31 bytes,
    [get k] returns [true] with the value of the most recent call for [k],
    and [false] with the output buffer unchanged if there was none. *)
Theorem get_returns_last_put (h : list (list byte * list byte)) (s : State)
    (fuel : nat) (k out_value : list byte) :
  put_trace h s ->
  Forall short_key h.*1 ->
  (length (heap s) <= fuel)%nat ->
  get fuel k out_value s
  = Ok (match assoc k h with
        | Some v => (true, v)
        | None => (false, out_value)
        end).
Proof.
  intros Htrace Hshort Hfuel.
  destruct (put_trace_inv h s Htrace Hshort)
    as (t & Hrep & _ & Hst & Hsorted & Hassoc).
  rewrite (get_spec fuel s k out_value t Hrep).
  - rewrite <- Hassoc, <- (lookup_tree_assoc k t Hst Hsorted).
    by destruct (lookup_tree k t) as [[a v]|].
  - pose proof (represents_height _ _ Hrep). lia.
Qed.


(** ** put again, rotations back, allocation *)


Lemma replace_value_same s a n :
  heap s !! a = Some n -> replace_value s a n (value n) = s.
Proof.
  intros Ha. unfold replace_value. destruct s as [h rt]. simpl in *.
  f_equal. apply list_insert_id. rewrite Ha. by destruct n.
Qed.

Lemma get_hit_inv fuel k out s v :
  get fuel k out s = Ok (true, v) ->
  exists a n, find_node fuel s (root s) k = Ok (Some a)
    /\ heap s !! a = Some n /\ value n = v.
Proof.
  unfold get.
  destruct (find_node fuel s (root s) k) as [[a|]| |] eqn:Hfind;
    cbn [bind is_null]; try discriminate.
  unfold get_value.
  destruct (load s (Some a)) as [n| |] eqn:Hload; cbn [bind]; try discriminate.
  destruct (load_inv _ _ _ Hload) as (a' & [= <-] & Ha).
  intros [= <-]. eauto.
Qed.

(** On any heap: if [get k] returns [true] with [v], then [put k v] returns
    the state unchanged. *)
Theorem put_stored_value_is_identity (s : State) (fuel : nat)
    (k v out_value : list byte) :
  get fuel k out_value s = Ok (true, v) ->
  put fuel k v s = Ok s.
Proof.
  intros Hget.
  destruct (get_hit_inv _ _ _ _ _ Hget) as (a & n & Hfind & Ha & <-).
  destruct (put_descend_found fuel s k (value n) None _ _ Hfind)
    as (node & Ha' & Hd).
  rewrite Ha in Ha'. injection Ha' as <-.
  rewrite (replace_value_same _ _ _ Ha) in Hd.
  assert (Hroot : is_null (root s) = false).
  { destruct (root s); [reflexivity|]. by destruct fuel. }
  unfold put. rewrite Hroot, Hd. reflexivity.
Qed.

(** On a well-formed state, a second call [put k v] leaves the state the
    first call returned unchanged. *)
Theorem put_is_idempotent (s s' : State) (fuel fuel' : nat)
    (k v : list byte) :
  wf s ->
  put fuel k v s = Ok s' ->
  (length (heap s') <= fuel')%nat ->
  put fuel' k v s' = Ok s'.
Proof.
  intros (t & Hrep & Hrb) Hput Hfuel.
  destruct (put_wf_any _ _ _ _ _ _ Hrep Hrb Hput)
    as (fuel0 & t' & Hins & Hrep' & _).
  destruct (insert_tree_lookup _ _ _ _ _ _ Hins) as (a & Hlook).
  pose proof (represents_height _ _ Hrep') as Hh.
  assert (Hget : get fuel' k [] s' = Ok (true, v)).
  { rewrite (get_spec fuel' s' k [] t' Hrep') by lia. by rewrite Hlook. }
  destruct (get_hit_inv _ _ _ _ _ Hget) as (b & n & Hfind & Hb & <-).
  destruct (put_descend_found fuel' s' k (value n) None _ _ Hfind)
    as (node & Hb' & Hd).
  rewrite Hb in Hb'. injection Hb' as <-.
  rewrite (replace_value_same _ _ _ Hb) in Hd.
  unfold put. rewrite Hd.
  destruct (root s'); [reflexivity|]. by destruct fuel'.
Qed.

(** [rotate_right] at the node that [rotate_left] has lifted restores the
    tree: the two calls return and the state holds the tree it held before,
    in the same number of cells. *)
Theorem rotate_left_then_right (s : State) (x : nat) (cx : bool)
    (a : tree) (kx vx : list byte) (y : nat) (cy : bool) (b : tree)
    (ky vy : list byte) (c : tree) (ctx : list frame) :
  repz s (T x cx a kx vx (T y cy b ky vy c)) ctx ->
  exists s1 s2,
    rotate_left s (Some x) = Ok s1
    /\ rotate_right s1 (Some y) = Ok s2
    /\ repz s2 (T x cx a kx vx (T y cy b ky vy c)) ctx
    /\ length (heap s2) = length (heap s).
Proof.
  intros Hrep.
  destruct (rotate_left_spec _ _ _ _ _ _ _ _ _ _ _ _ _ Hrep)
    as (s1 & Hs1 & Hr1).
  destruct (rotate_right_spec _ _ _ _ _ _ _ _ _ _ _ _ _ Hr1)
    as (s2 & Hs2 & Hr2).
  exists s1, s2. split; [exact Hs1|]. split; [exact Hs2|].
  split; [exact Hr2|].
  rewrite (rotate_right_length _ _ _ Hs2). by apply rotate_left_length in Hs1.
Qed.

(** [rotate_left] at the node that [rotate_right] has lifted restores the
    tree. *)
Theorem rotate_right_then_left (s : State) (y : nat) (cy : bool) (x : nat)
    (cx : bool) (a : tree) (kx vx : list byte) (b : tree)
    (ky vy : list byte) (c : tree) (ctx : list frame) :
  repz s (T y cy (T x cx a kx vx b) ky vy c) ctx ->
  exists s1 s2,
    rotate_right s (Some y) = Ok s1
    /\ rotate_left s1 (Some x) = Ok s2
    /\ repz s2 (T y cy (T x cx a kx vx b) ky vy c) ctx
    /\ length (heap s2) = length (heap s).
Proof.
  intros Hrep.
  destruct (rotate_right_spec _ _ _ _ _ _ _ _ _ _ _ _ _ Hrep)
    as (s1 & Hs1 & Hr1).
  destruct (rotate_left_spec _ _ _ _ _ _ _ _ _ _ _ _ _ Hr1)
    as (s2 & Hs2 & Hr2).
  exists s1, s2. split; [exact Hs1|]. split; [exact Hs2|].
  split; [exact Hr2|].
  rewrite (rotate_left_length _ _ _ Hs2). by apply rotate_right_length in Hs1.
Qed.

(** On a well-formed state [put] allocates exactly one node if [get] misses
    the key, and none if [get] finds it. *)
Theorem put_allocates_on_miss (s s' : State) (fuel fuel' : nat)
    (k v out_value : list byte) (found : bool) (out : list byte) :
  wf s ->
  put fuel k v s = Ok s' ->
  get fuel' k out_value s = Ok (found, out) ->
  length (heap s') = (length (heap s) + if found then 0 else 1)%nat.
Proof.
  intros (t & Hrep & _) Hput Hget.
  rewrite (put_heap_length _ _ _ _ _ _ Hrep Hput). unfold allocated.
  pose proof (represents_height _ _ Hrep) as Hh.
  apply (get_mono _ (Nat.max fuel' (length (heap s)))) in Hget; [|lia].
  rewrite (get_spec _ s k out_value t Hrep) in Hget by lia.
  destruct (lookup_tree k t) as [[a x]|]; by injection Hget as <- _.
Qed.

Lemma bindings_length t : length (bindings t) = length (addrs t).
Proof.
  induction t as [|a c l IHl k v r IHr]; simpl; [done|].
  rewrite !length_app. simpl. lia.
Qed.

Lemma assoc_Some_elem k L : k ∈ L.*1 -> is_Some (assoc k L).
Proof.
  induction L as [|[k' v] L IH]; simpl; [by intros ?%elem_of_nil|].
  intros Hk. destruct (decide (k = k')); [eauto|].
  apply elem_of_cons in Hk as [?|Hk]; [done|auto].
Qed.

(** After calls of [put] with keys shorter than 2^31 bytes the heap holds
    exactly one node for each distinct key. *)
Theorem one_node_per_key (h : list (list byte * list byte)) (s : State) :
  put_trace h s ->
  Forall short_key h.*1 ->
  length (heap s) = length (remove_dups h.*1).
Proof.
  intros Htrace Hshort.
  destruct (put_trace_inv h s Htrace Hshort)
    as (t & Hrep & _ & _ & Hsorted & Hassoc).
  assert (Hreach : reachable s).
  { clear -Htrace. induction Htrace; [constructor|econstructor; eauto]. }
  destruct (reachable_no_garbage s Hreach) as (t1 & Hrep1 & _ & Hlen).
  rewrite (represents_unique _ _ _ Hrep1 Hrep) in Hlen.
  rewrite <- Hlen, <- bindings_length, <- (length_fmap fst), <- keys_bindings.
  apply Permutation_length, NoDup_Permutation.
  - by apply StronglySorted_key_lt_NoDup.
  - apply NoDup_remove_dups.
  - intros x. rewrite elem_of_remove_dups, keys_bindings. split; intros Hx.
    + destruct (assoc x h) as [w|] eqn:Hw.
      * destruct (decide (x ∈ h.*1)) as [|Hn]; [done|].
        by rewrite (assoc_None _ _ Hn) in Hw.
      * apply assoc_Some_elem in Hx. rewrite Hassoc, Hw in Hx.
        by destruct Hx.
    + destruct (decide (x ∈ (bindings t).*1)) as [|Hn]; [done|].
      apply assoc_Some_elem in Hx. rewrite <- Hassoc in Hx.
      rewrite (assoc_None _ _ Hn) in Hx. by destruct Hx.
Qed.


(** ** The wrapper and the test programs *)

Lemma find_node_sound fuel s p k a :
  find_node fuel s p k = Ok (Some a) ->
  exists n, heap s !! a = Some n /\ compare_keys k (key n) = 0.
Proof.
  revert p. induction fuel as [|fuel IH]; intros p; simpl.
  - destruct p; discriminate.
  - destruct p as [b|]; [|discriminate].
    unfold get_key, get_left, get_right.
    destruct (load s (Some b)) as [n| |] eqn:Hload; cbn [bind]; try discriminate.
    destruct (load_inv _ _ _ Hload) as (b' & [= <-] & Hb).
    destruct (Z.eqb_spec (compare_keys k (key n)) 0) as [He|Hne].
    + intros [= <-]. eauto.
    + destruct (compare_keys k (key n) <? 0); apply IH.
Qed.

(** On any heap: when [get k] returns [true] with [v], some node holds the
    value [v] under a key that [compare_keys] reports equal to [k]. *)
Theorem get_hit_sound (s : State) (fuel : nat) (k out_value v : list byte) :
  get fuel k out_value s = Ok (true, v) ->
  exists a n,
    heap s !! a = Some n /\ compare_keys k (key n) = 0 /\ value n = v.
Proof.
  intros Hget.
  destruct (get_hit_inv _ _ _ _ _ Hget) as (a & n & Hfind & Ha & Hv).
  destruct (find_node_sound _ _ _ _ _ Hfind) as (n' & Ha' & Hc).
  rewrite Ha in Ha'. injection Ha' as <-. eauto.
Qed.

Lemma concurrent_put_free fuel k v t :
  concurrent_put fuel k v (mkConcurrent t Free)
  = let* t' := put fuel k v t in Ok (mkConcurrent t' Free).
Proof. unfold concurrent_put. simpl. by destruct (put fuel k v t). Qed.

Lemma concurrent_get_shared fuel k out t m :
  m <> Exclusive ->
  concurrent_get fuel k out (mkConcurrent t m)
  = let* r := get fuel k out t in Ok (r, m).
Proof.
  intros Hm. unfold concurrent_get.
  destruct m as [|n|]; simpl; [| |done]; by destruct (get fuel k out t).
Qed.

(** Called with the mutex free on a well-formed tree, the wrapper's [put]
    returns and leaves the mutex free; the wrapper's [get] of the same key
    then returns [true] with the value put, and leaves the mutex free. *)
Theorem concurrent_put_then_get (c : ConcurrentRedBlackTree) (k v : list byte) :
  wf (inner_tree c) ->
  mutex c = Free ->
  exists c',
    concurrent_put (S (length (heap (inner_tree c)))) k v c = Ok c'
    /\ mutex c' = Free
    /\ forall fuel out_value,
         (length (heap (inner_tree c')) <= fuel)%nat ->
         concurrent_get fuel k out_value c' = Ok ((true, v), Free).
Proof.
  destruct c as [t m]. simpl. intros (tr & Hrep & Hrb) ->.
  destruct (put_wf (S (length (heap t))) k v t tr Hrep Hrb)
    as (t' & tr' & Hput & Hins & Hrep' & _); [lia|].
  exists (mkConcurrent t' Free).
  rewrite concurrent_put_free, Hput. split; [reflexivity|].
  split; [reflexivity|].
  intros fuel out_value Hfuel. simpl in Hfuel.
  rewrite concurrent_get_shared by done.
  destruct (insert_tree_lookup _ _ _ _ _ _ Hins) as (a & Hlook).
  rewrite (get_spec fuel t' k out_value tr' Hrep').
  - by rewrite Hlook.
  - pose proof (represents_height _ _ Hrep'). lia.
Qed.

Lemma to_N_to_uint8 z : Byte.to_N (to_uint8 z) = Z.to_N (z mod 256).
Proof.
  unfold to_uint8. pose proof (Z.mod_pos_bound z 256 ltac:(lia)) as Hb.
  destruct (Byte.of_N (Z.to_N (z mod 256))) as [b|] eqn:Hof.
  - by apply Byte.to_of_N.
  - apply Byte.of_N_None_iff in Hof. lia.
Qed.

Lemma to_uint8_inj x y :
  to_uint8 x = to_uint8 y -> x mod 256 = y mod 256.
Proof.
  intros H. apply (f_equal Byte.to_N) in H. rewrite !to_N_to_uint8 in H.
  pose proof (Z.mod_pos_bound x 256 ltac:(lia)).
  pose proof (Z.mod_pos_bound y 256 ltac:(lia)). lia.
Qed.

Lemma split_bytes_inj i j :
  0 <= i < 65536 -> 0 <= j < 65536 ->
  to_uint8 (Z.shiftr i 8) = to_uint8 (Z.shiftr j 8) ->
  to_uint8 (Z.land i 255) = to_uint8 (Z.land j 255) ->
  i = j.
Proof.
  intros Hi Hj Hhi Hlo.
  apply to_uint8_inj in Hhi. apply to_uint8_inj in Hlo.
  rewrite !Z.shiftr_div_pow2 in Hhi by lia.
  change 255 with (Z.ones 8) in Hlo. rewrite !Z.land_ones in Hlo by lia.
  change (2 ^ 8) with 256 in *.
  rewrite !Z.mod_mod in Hlo by lia.
  assert (0 <= i / 256 < 256) by (split; [apply Z.div_pos; lia|apply Z.div_lt_upper_bound; lia]).
  assert (0 <= j / 256 < 256) by (split; [apply Z.div_pos; lia|apply Z.div_lt_upper_bound; lia]).
  rewrite !Z.mod_small in Hhi by lia.
  rewrite (Z.div_mod i 256), (Z.div_mod j 256) by lia. lia.
Qed.

Lemma read_key_inj i j :
  0 <= i < 65536 -> 0 <= j < 65536 -> read_key i = read_key j -> i = j.
Proof.
  intros Hi Hj [= Hhi Hlo]. by apply split_bytes_inj.
Qed.

Lemma write_key_inj t i t' i' :
  0 <= t < 256 -> 0 <= t' < 256 -> 0 <= i < 65536 -> 0 <= i' < 65536 ->
  write_key t i = write_key t' i' -> t = t' /\ i = i'.
Proof.
  intros Ht Ht' Hi Hi' [= Hth Hhi Hlo]. split; [|by apply split_bytes_inj].
  apply to_uint8_inj in Hth. rewrite !Z.mod_small in Hth by lia. exact Hth.
Qed.

Lemma assoc_NoDup k v L : NoDup L.*1 -> (k, v) ∈ L -> assoc k L = Some v.
Proof.
  induction L as [|[k' v'] L IH]; simpl; [by intros _ ?%elem_of_nil|].
  intros Hnd Hin. apply NoDup_cons in Hnd as [Hk' Hnd].
  apply elem_of_cons in Hin as [[= <- <-]|Hin].
  - by destruct (decide (k = k)).
  - destruct (decide (k = k')) as [<-|]; [|auto].
    destruct Hk'. apply list_elem_of_fmap. by exists (k, v).
Qed.

Lemma get_put_trace h s fuel k out_value v :
  put_trace h s -> Forall short_key h.*1 -> NoDup h.*1 -> (k, v) ∈ h ->
  (length (heap s) <= fuel)%nat ->
  get fuel k out_value s = Ok (true, v).
Proof.
  intros Htrace Hshort Hnd Hin Hfuel.
  destruct (put_trace_inv h s Htrace Hshort)
    as (t & Hrep & _ & Hst & Hsorted & Hassoc).
  rewrite (get_spec fuel s k out_value t Hrep).
  - pose proof (lookup_tree_assoc k t Hst Hsorted) as Hl.
    rewrite Hassoc, (assoc_NoDup _ _ _ Hnd Hin) in Hl.
    destruct (lookup_tree k t) as [[a x]|]; [|discriminate].
    by injection Hl as ->.
  - pose proof (represents_height _ _ Hrep). lia.
Qed.

Lemma prepopulate_stuck fuel l (r : result ConcurrentRedBlackTree) c :
  (forall x, r <> Ok x) ->
  fold_left
    (fun r i =>
       let* c := r in
       concurrent_put fuel (read_key (Z.of_nat i)) (read_value (Z.of_nat i)) c)
    l r <> Ok c.
Proof.
  revert r. induction l as [|i l IH]; intros r Hr; simpl; [apply Hr|].
  apply IH. intros x. destruct r as [c0| |]; [by destruct (Hr c0)|done..].
Qed.

Lemma prepopulate_trace fuel l t h c :
  put_trace h t ->
  fold_left
    (fun r i =>
       let* c := r in
       concurrent_put fuel (read_key (Z.of_nat i)) (read_value (Z.of_nat i)) c)
    l (Ok (mkConcurrent t Free)) = Ok c ->
  mutex c = Free /\ put_trace (rev (map read_call l) ++ h) (inner_tree c).
Proof.
  revert t h. induction l as [|i l IH]; intros t h Ht; simpl.
  - by intros [= <-].
  - rewrite concurrent_put_free.
    destruct (put fuel _ _ t) as [t1| |] eqn:Hput; cbn [bind].
    + intros H. rewrite <- app_assoc. simpl.
      apply (IH t1 (read_call i :: h)); [|exact H].
      exact (trace_put h t fuel _ _ t1 Ht Hput).
    + intros H. by destruct (prepopulate_stuck fuel l Fault c).
    + intros H. by destruct (prepopulate_stuck fuel l OutOfFuel c).
Qed.

Lemma prepopulate_returns fuel l t :
  wf t -> (length (heap t) + length l < fuel)%nat ->
  exists c,
    fold_left
      (fun r i =>
         let* c := r in
         concurrent_put fuel (read_key (Z.of_nat i)) (read_value (Z.of_nat i)) c)
      l (Ok (mkConcurrent t Free)) = Ok c
    /\ (length (heap (inner_tree c)) <= length (heap t) + length l)%nat.
Proof.
  revert t. induction l as [|i l IH]; intros t Hwf Hfuel; simpl.
  - exists (mkConcurrent t Free). split; [reflexivity|simpl; lia].
  - rewrite concurrent_put_free. simpl in Hfuel.
    destruct Hwf as (tr & Hrep & Hrb).
    destruct (put_wf fuel (read_key (Z.of_nat i)) (read_value (Z.of_nat i))
                t tr Hrep Hrb) as (t1 & tr1 & Hput & _ & Hrep1 & Hrb1); [lia|].
    rewrite Hput. cbn [bind].
    assert (Hlen : (length (heap t1) <= S (length (heap t)))%nat).
    { rewrite (put_heap_length _ _ _ _ _ _ Hrep Hput). unfold allocated.
      destruct (lookup_tree _ tr); lia. }
    destruct (IH t1) as (c & Hc & Hb); [by exists tr1|lia|].
    exists c. split; [exact Hc|lia].
Qed.

Lemma read_calls_NoDup n :
  Z.of_nat n <= 65536 -> NoDup (map read_call (seq 0 n)).*1.
Proof.
  intros Hn. rewrite <- list_fmap_compose.
  apply NoDup_fmap_2_strong; [|apply NoDup_seq].
  intros i j Hi Hj Heq. apply elem_of_seq in Hi, Hj. simpl in Heq.
  apply read_key_inj in Heq; lia.
Qed.

(** test_concurrent_reads: the pre-population loop returns with the mutex
    free, and every key a reader computes from non-negative [t] and [i]
    whose [int] expression [t * 7919 + i * 31] does not overflow is found,
    with the value stored for its index, also while other readers hold the
    mutex. *)
Theorem test_concurrent_reads_all_hit (num_keys fuel : nat) :
  (0 < num_keys)%nat -> Z.of_nat num_keys <= 65536 ->
  (num_keys < fuel)%nat ->
  exists c,
    prepopulate fuel num_keys concurrent_empty = Ok c
    /\ mutex c = Free
    /\ forall (t i : Z) (m : shared_mutex) (out_value : list byte),
         0 <= t -> 0 <= i -> t * 7919 + i * 31 < 2 ^ 31 ->
         m <> Exclusive ->
         concurrent_get fuel (read_key (reader_index num_keys t i)) out_value
           (mkConcurrent (inner_tree c) m)
         = Ok ((true, read_value (reader_index num_keys t i)), m).
Proof.
  intros Hn Hmax Hfuel. unfold prepopulate, concurrent_empty.
  destruct (prepopulate_returns fuel (seq 0 num_keys) empty_tree empty_tree_wf)
    as (c & Hc & Hlen); [rewrite length_seq; simpl; lia|].
  rewrite length_seq in Hlen. simpl in Hlen.
  exists c. split; [exact Hc|].
  destruct (prepopulate_trace _ _ _ [] _ trace_empty Hc) as [Hm Htrace].
  split; [exact Hm|].
  rewrite app_nil_r in Htrace.
  intros t i m out_value Ht Hi _ Hmx.
  rewrite concurrent_get_shared by exact Hmx.
  assert (Hidx : 0 <= reader_index num_keys t i < Z.of_nat num_keys).
  { unfold reader_index. apply Z.rem_bound_pos; lia. }
  rewrite (get_put_trace _ _ fuel _ out_value
             (read_value (reader_index num_keys t i)) Htrace); [done| | | |lia].
  - rewrite <- Permutation_rev.
    apply Forall_forall. intros x Hx.
    apply list_elem_of_fmap in Hx as ([k' v'] & -> & Hx).
    apply list_elem_of_fmap in Hx as (j & [= -> ->] & _).
    unfold short_key. simpl. reflexivity.
  - rewrite <- Permutation_rev. apply read_calls_NoDup. lia.
  - rewrite <- Permutation_rev. apply list_elem_of_fmap.
    exists (Z.to_nat (reader_index num_keys t i)). split.
    + unfold read_call. by rewrite Z2Nat.id by lia.
    + apply elem_of_seq. lia.
Qed.

Lemma all_writes_elem nt ops k v :
  (k, v) ∈ all_writes nt ops <->
  exists t i, (t < nt)%nat /\ (i < ops)%nat
    /\ k = write_key (Z.of_nat t) (Z.of_nat i)
    /\ v = write_value (Z.of_nat t) (Z.of_nat i).
Proof.
  unfold all_writes, writer_calls. rewrite list_elem_of_bind. split.
  - intros (t & Hin & Ht). apply elem_of_seq in Ht.
    apply list_elem_of_fmap in Hin as (i & [= -> ->] & Hi).
    apply elem_of_seq in Hi. exists t, i. repeat split; lia.
  - intros (t & i & Ht & Hi & -> & ->). exists t. split.
    + apply list_elem_of_fmap. exists i. split; [done|]. apply elem_of_seq. lia.
    + apply elem_of_seq. lia.
Qed.

Lemma fmap_list_bind {A B C} (g : B -> C) (f : A -> list B) (l : list A) :
  g <$> (l ≫= f) = l ≫= (fun x => g <$> f x).
Proof.
  induction l as [|x l IH]; csimpl; [done|]. by rewrite fmap_app, IH.
Qed.

Lemma all_writes_NoDup nt ops :
  Z.of_nat nt <= 256 -> Z.of_nat ops <= 65536 ->
  NoDup (all_writes nt ops).*1.
Proof.
  intros Hnt Hops. unfold all_writes. rewrite fmap_list_bind.
  apply NoDup_bind; [| |apply NoDup_seq].
  - intros t t' k Ht Ht' Hk Hk'. apply elem_of_seq in Ht, Ht'.
    unfold writer_calls in Hk, Hk'. simpl in Hk, Hk'.
    rewrite <- list_fmap_compose in Hk, Hk'.
    apply list_elem_of_fmap in Hk as (i & -> & Hi).
    apply list_elem_of_fmap in Hk' as (i' & Heq & Hi').
    apply elem_of_seq in Hi, Hi'. simpl in Heq.
    apply write_key_inj in Heq; lia.
  - intros t Ht. apply elem_of_seq in Ht. unfold writer_calls. simpl.
    rewrite <- list_fmap_compose.
    apply NoDup_fmap_2_strong; [|apply NoDup_seq].
    intros i i' Hi Hi' Heq. apply elem_of_seq in Hi, Hi'. simpl in Heq.
    apply write_key_inj in Heq; lia.
Qed.

(** test_concurrent_writes: in whatever order the writers' calls of [put]
    ran one after the other, every [get] of the verification loop returns
    [true], with the value written for its key. *)
Theorem test_concurrent_writes_verified (num_threads ops_per_thread : nat)
    (h : list (list byte * list byte)) (c : ConcurrentRedBlackTree) :
  Z.of_nat num_threads <= 256 ->
  Z.of_nat ops_per_thread <= 65536 ->
  put_trace h (inner_tree c) ->
  h ≡ₚ all_writes num_threads ops_per_thread ->
  mutex c = Free ->
  forall (t i fuel : nat) (out_value : list byte),
    (t < num_threads)%nat -> (i < ops_per_thread)%nat ->
    (length (heap (inner_tree c)) <= fuel)%nat ->
    concurrent_get fuel (write_key (Z.of_nat t) (Z.of_nat i)) out_value c
    = Ok ((true, write_value (Z.of_nat t) (Z.of_nat i)), Free).
Proof.
  intros Hnt Hops Htrace Hperm Hm t i fuel out_value Ht Hi Hfuel.
  destruct c as [tr m]. simpl in *. subst m.
  rewrite concurrent_get_shared by done.
  rewrite (get_put_trace _ _ fuel _ out_value
             (write_value (Z.of_nat t) (Z.of_nat i)) Htrace);
    [done| | | |exact Hfuel].
  - rewrite Hperm. apply Forall_forall. intros x Hx.
    apply list_elem_of_fmap in Hx as ([k' v'] & -> & Hx).
    apply all_writes_elem in Hx as (t' & i' & _ & _ & -> & _).
    unfold short_key. simpl. reflexivity.
  - rewrite Hperm. by apply all_writes_NoDup.
  - rewrite Hperm. apply all_writes_elem. eauto 10.
Qed.


(** ** fix_insert on its own *)


(** Where the red-black invariants hold except that the red node [node]
    may have a red parent, [fix_insert (node)] returns, the tree is
    red-black again, its keys and values are those of before in the same
    order, and no cell is allocated. *)
Theorem fix_insert_restores_red_black (s : State) (t : tree)
    (ctx : list frame) (fuel : nat) :
  repz s t ctx ->
  loop_inv t ctx ->
  (length ctx + 2 <= 2 * fuel)%nat ->
  exists s' t',
    fix_insert fuel s (ptr_of t) = Ok s'
    /\ represents s' t'
    /\ red_black t'
    /\ bindings t' = bindings (plug t ctx)
    /\ length (heap s') = length (heap s).
Proof.
  intros Hrep Hinv Hfuel.
  destruct (fix_loop_total fuel t ctx Hinv Hfuel)
    as (t1 & ctx1 & Hloop & Hinv1 & Hcond).
  destruct (fix_insert_spec fuel s t ctx t1 ctx1 Hrep) as (s' & Hfix & Hrep');
    [by apply loop_inv_nonempty in Hinv|exact Hloop|].
  exists s', (blacken (plug t1 ctx1)).
  split; [exact Hfix|]. split; [exact Hrep'|].
  split; [by apply loop_exit|].
  split; [by rewrite bindings_blacken, (bindings_fix_loop _ _ _ _ _ Hloop)|].
  by apply fix_insert_length in Hfix.
Qed.

Lemma fix_insert_restores_red_black_witness :
  repz example_attached (T 3 true E [x04] [x0d] E)
    [InRight 2 true E [x03] [x0c];
     InRight 1 false (T 0 true E [x01] [x0a] E) [x02] [x0b]]
  /\ loop_inv (T 3 true E [x04] [x0d] E)
       [InRight 2 true E [x03] [x0c];
        InRight 1 false (T 0 true E [x01] [x0a] E) [x02] [x0b]]
  /\ (2 + 2 <= 2 * 2)%nat
  /\ exists s' t',
       fix_insert 2 example_attached (Some 3%nat) = Ok s'
       /\ represents s' t'
       /\ red_black t'
       /\ bindings t'
          = bindings
              (plug (T 3 true E [x04] [x0d] E)
                 [InRight 2 true E [x03] [x0c];
                  InRight 1 false (T 0 true E [x01] [x0a] E) [x02] [x0b]])
       /\ length (heap s') = length (heap example_attached).
Proof.
  assert (Hrep : repz example_attached (T 3 true E [x04] [x0d] E)
                   [InRight 2 true E [x03] [x0c];
                    InRight 1 false (T 0 true E [x01] [x0a] E) [x02] [x0b]]).
  { unfold example_attached. repz_unfold. repeat split. compute_done. }
  assert (Hinv : loop_inv (T 3 true E [x04] [x0d] E)
                   [InRight 2 true E [x03] [x0c];
                    InRight 1 false (T 0 true E [x01] [x0a] E) [x02] [x0b]]).
  { unfold loop_inv. simpl. split; [done|]. split; [done|].
    split; [intuition congruence|]. split; [done|]. exists O. tauto. }
  split; [exact Hrep|]. split; [exact Hinv|]. split; [lia|].
  apply (fix_insert_restores_red_black example_attached
           (T 3 true E [x04] [x0d] E)
           [InRight 2 true E [x03] [x0c];
            InRight 1 false (T 0 true E [x01] [x0a] E) [x02] [x0b]] 2).
  - exact Hrep.
  - exact Hinv.
  - simpl. lia.
Defined.


(** ** Worked examples for the further properties *)

Lemma put_all_trace fuel kvs s h s' :
  put_trace h s -> put_all fuel kvs s = Ok s' ->
  put_trace (rev kvs ++ h) s'.
Proof.
  unfold put_all. revert s h.
  induction kvs as [|[k v] kvs IH]; intros s h Hs; simpl.
  - by intros [= <-].
  - rewrite <- app_assoc. simpl.
    destruct (put fuel k v s) as [s1| |] eqn:Hput.
    + intros H. apply (IH s1 ((k, v) :: h)); [|exact H].
      exact (trace_put h s fuel k v s1 Hs Hput).
    + intros H. by destruct (put_all_stuck fuel kvs Fault s').
    + intros H. by destruct (put_all_stuck fuel kvs OutOfFuel s').
Qed.

Lemma example_state_trace :
  put_trace [([x03], [x0c]); ([x02], [x0b]); ([x01], [x0a])] example_state.
Proof.
  apply (put_all_trace 10
           [([x01], [x0a]); ([x02], [x0b]); ([x03], [x0c])] empty_tree []).
  - exact trace_empty.
  - vm_compute. reflexivity.
Qed.

Lemma example_after_put_eq :
  put 10 [x04] [x0d] example_state = Ok example_after_put.
Proof. vm_compute. reflexivity. Qed.

Lemma example_writes_trace :
  put_trace (all_writes 2 2) example_writes_state.
Proof.
  apply (put_all_trace 10 (rev (all_writes 2 2)) empty_tree []).
  - exact trace_empty.
  - vm_compute. reflexivity.
Qed.

Lemma destructor_frees_every_node_witness :
  reachable example_state
  /\ (length (heap example_state) <= 3)%nat
  /\ exists freed,
       destroy 3 example_state = Ok freed
       /\ NoDup freed
       /\ forall a, a ∈ freed <-> (a < length (heap example_state))%nat.
Proof.
  split; [exact example_state_reachable|]. split; [simpl; lia|].
  apply (destructor_frees_every_node example_state 3).
  - exact example_state_reachable.
  - simpl. lia.
Defined.

Lemma reachable_logarithmic_height_witness :
  reachable example_state
  /\ (2 * Nat.log2 (S (length (heap example_state))) <= 4)%nat
  /\ (exists found out, get 4 [x09] [] example_state = Ok (found, out))
  /\ exists s', put 5 [x09] [x0e] example_state = Ok s'.
Proof.
  split; [exact example_state_reachable|]. split; [vm_compute; lia|].
  apply (reachable_logarithmic_height example_state 4 [x09] [x0e] []).
  - exact example_state_reachable.
  - vm_compute. lia.
Defined.

Lemma get_returns_last_put_witness :
  put_trace [([x03], [x0c]); ([x02], [x0b]); ([x01], [x0a])] example_state
  /\ Forall short_key [([x03], [x0c]); ([x02], [x0b]); ([x01], [x0a])].*1
  /\ (length (heap example_state) <= 3)%nat
  /\ get 3 [x02] [] example_state
     = Ok (match assoc [x02]
                   [([x03], [x0c]); ([x02], [x0b]); ([x01], [x0a])] with
           | Some v => (true, v)
           | None => (false, [])
           end).
Proof.
  assert (Hs : Forall short_key
                 [([x03], [x0c]); ([x02], [x0b]); ([x01], [x0a])].*1)
    by (repeat constructor).
  split; [exact example_state_trace|]. split; [exact Hs|].
  split; [simpl; lia|].
  apply (get_returns_last_put
           [([x03], [x0c]); ([x02], [x0b]); ([x01], [x0a])]
           example_state 3 [x02] []).
  - exact example_state_trace.
  - exact Hs.
  - simpl. lia.
Defined.

Lemma put_stored_value_is_identity_witness :
  get 3 [x02] [] example_state = Ok (true, [x0b])
  /\ put 3 [x02] [x0b] example_state = Ok example_state.
Proof.
  split; [reflexivity|].
  apply (put_stored_value_is_identity example_state 3 [x02] [x0b] []).
  reflexivity.
Defined.

Lemma put_is_idempotent_witness :
  wf example_state
  /\ put 10 [x04] [x0d] example_state = Ok example_after_put
  /\ (length (heap example_after_put) <= 4)%nat
  /\ put 4 [x04] [x0d] example_after_put = Ok example_after_put.
Proof.
  split; [exact example_state_wf|]. split; [exact example_after_put_eq|].
  split; [simpl; lia|].
  apply (put_is_idempotent example_state example_after_put 10 4 [x04] [x0d]).
  - exact example_state_wf.
  - exact example_after_put_eq.
  - simpl. lia.
Defined.

Lemma rotate_left_then_right_witness :
  repz example_attached
    (T 2 true E [x03] [x0c] (T 3 true E [x04] [x0d] E))
    [InRight 1 false (T 0 true E [x01] [x0a] E) [x02] [x0b]]
  /\ exists s1 s2,
       rotate_left example_attached (Some 2%nat) = Ok s1
       /\ rotate_right s1 (Some 3%nat) = Ok s2
       /\ repz s2 (T 2 true E [x03] [x0c] (T 3 true E [x04] [x0d] E))
            [InRight 1 false (T 0 true E [x01] [x0a] E) [x02] [x0b]]
       /\ length (heap s2) = length (heap example_attached).
Proof.
  split; [exact example_attached_focus|].
  apply (rotate_left_then_right example_attached 2 true E [x03] [x0c]
           3 true E [x04] [x0d] E
           [InRight 1 false (T 0 true E [x01] [x0a] E) [x02] [x0b]]).
  exact example_attached_focus.
Defined.

Lemma rotate_right_then_left_witness :
  repz example_state example_tree []
  /\ exists s1 s2,
       rotate_right example_state (Some 1%nat) = Ok s1
       /\ rotate_left s1 (Some 0%nat) = Ok s2
       /\ repz s2 example_tree []
       /\ length (heap s2) = length (heap example_state).
Proof.
  split; [exact example_state_focus|].
  apply (rotate_right_then_left example_state 1 false 0 true E
           [x01] [x0a] E [x02] [x0b] (T 2 true E [x03] [x0c] E) []).
  exact example_state_focus.
Defined.

Lemma put_allocates_on_miss_witness :
  wf example_state
  /\ put 10 [x04] [x0d] example_state = Ok example_after_put
  /\ get 3 [x04] [] example_state = Ok (false, [])
  /\ length (heap example_after_put)
     = (length (heap example_state) + 1)%nat.
Proof.
  split; [exact example_state_wf|]. split; [exact example_after_put_eq|].
  split; [reflexivity|].
  apply (put_allocates_on_miss example_state example_after_put 10 3
           [x04] [x0d] [] false []).
  - exact example_state_wf.
  - exact example_after_put_eq.
  - reflexivity.
Defined.

Lemma one_node_per_key_witness :
  put_trace [([x03], [x0c]); ([x02], [x0b]); ([x01], [x0a])] example_state
  /\ Forall short_key [([x03], [x0c]); ([x02], [x0b]); ([x01], [x0a])].*1
  /\ length (heap example_state)
     = length (remove_dups
                 [([x03], [x0c]); ([x02], [x0b]); ([x01], [x0a])].*1).
Proof.
  assert (Hs : Forall short_key
                 [([x03], [x0c]); ([x02], [x0b]); ([x01], [x0a])].*1)
    by (repeat constructor).
  split; [exact example_state_trace|]. split; [exact Hs|].
  apply (one_node_per_key
           [([x03], [x0c]); ([x02], [x0b]); ([x01], [x0a])] example_state).
  - exact example_state_trace.
  - exact Hs.
Defined.

Lemma get_hit_sound_witness :
  get 3 [x02] [] example_state = Ok (true, [x0b])
  /\ exists a n,
       heap example_state !! a = Some n
       /\ compare_keys [x02] (key n) = 0 /\ value n = [x0b].
Proof.
  split; [reflexivity|].
  apply (get_hit_sound example_state 3 [x02] [] [x0b]). reflexivity.
Defined.

Lemma concurrent_put_then_get_witness :
  wf (inner_tree (mkConcurrent example_state Free))
  /\ mutex (mkConcurrent example_state Free) = Free
  /\ exists c',
       concurrent_put
         (S (length (heap (inner_tree (mkConcurrent example_state Free)))))
         [x04] [x0d] (mkConcurrent example_state Free) = Ok c'
       /\ mutex c' = Free
       /\ forall fuel out_value,
            (length (heap (inner_tree c')) <= fuel)%nat ->
            concurrent_get fuel [x04] out_value c' = Ok ((true, [x0d]), Free).
Proof.
  split; [exact example_state_wf|]. split; [reflexivity|].
  apply (concurrent_put_then_get (mkConcurrent example_state Free)
           [x04] [x0d]).
  - exact example_state_wf.
  - reflexivity.
Defined.

Lemma test_concurrent_reads_all_hit_witness :
  (0 < 3)%nat
  /\ Z.of_nat 3 <= 65536
  /\ (3 < 4)%nat
  /\ exists c,
       prepopulate 4 3 concurrent_empty = Ok c
       /\ mutex c = Free
       /\ forall (t i : Z) (m : shared_mutex) (out_value : list byte),
            0 <= t -> 0 <= i -> t * 7919 + i * 31 < 2 ^ 31 ->
            m <> Exclusive ->
            concurrent_get 4 (read_key (reader_index 3 t i)) out_value
              (mkConcurrent (inner_tree c) m)
            = Ok ((true, read_value (reader_index 3 t i)), m).
Proof.
  split; [lia|]. split; [lia|]. split; [lia|].
  apply (test_concurrent_reads_all_hit 3 4); lia.
Defined.

Lemma test_concurrent_writes_verified_witness :
  Z.of_nat 2 <= 256
  /\ Z.of_nat 2 <= 65536
  /\ put_trace (all_writes 2 2)
       (inner_tree (mkConcurrent example_writes_state Free))
  /\ all_writes 2 2 ≡ₚ all_writes 2 2
  /\ mutex (mkConcurrent example_writes_state Free) = Free
  /\ (1 < 2)%nat /\ (1 < 2)%nat
  /\ (length (heap (inner_tree (mkConcurrent example_writes_state Free)))
      <= 4)%nat
  /\ concurrent_get 4 (write_key (Z.of_nat 1) (Z.of_nat 1)) []
       (mkConcurrent example_writes_state Free)
     = Ok ((true, write_value (Z.of_nat 1) (Z.of_nat 1)), Free).
Proof.
  split; [lia|]. split; [lia|]. split; [exact example_writes_trace|].
  split; [reflexivity|]. split; [reflexivity|].
  split; [lia|]. split; [lia|]. split; [simpl; lia|].
  apply (test_concurrent_writes_verified 2 2 (all_writes 2 2)
           (mkConcurrent example_writes_state Free)).
  - lia.
  - lia.
  - exact example_writes_trace.
  - reflexivity.
  - reflexivity.
  - lia.
  - lia.
  - simpl. lia.
Defined.

(** ** No fault, whatever the loop bounds *)

Lemma find_node_fault_mono fuel fuel' s p k :
  find_node fuel s p k = Fault -> (fuel <= fuel')%nat ->
  find_node fuel' s p k = Fault.
Proof.
  revert fuel' p. induction fuel as [|fuel IH]; intros fuel' p H Hle.
  - destruct p; discriminate.
  - destruct fuel' as [|fuel']; [lia|].
    destruct p as [a|]; [|exact H].
    cbn [find_node] in *.
    destruct (get_key s (Some a)) as [nk| |]; cbn [bind] in *;
      try discriminate; [|reflexivity].
    destruct (compare_keys k nk =? 0); [exact H|].
    destruct (compare_keys k nk <? 0).
    + destruct (get_left s (Some a)) as [l| |]; cbn [bind] in *;
        try discriminate; [|reflexivity]. apply IH; [exact H|lia].
    + destruct (get_right s (Some a)) as [l| |]; cbn [bind] in *;
        try discriminate; [|reflexivity]. apply IH; [exact H|lia].
Qed.

Lemma put_descend_fault_mono fuel fuel' s k v par p :
  put_descend fuel s k v par p = Fault -> (fuel <= fuel')%nat ->
  put_descend fuel' s k v par p = Fault.
Proof.
  revert fuel' par p. induction fuel as [|fuel IH]; intros fuel' par p H Hle.
  - destruct p; discriminate.
  - destruct fuel' as [|fuel']; [lia|].
    destruct p as [a|]; [|exact H].
    cbn [put_descend] in *.
    destruct (get_key s (Some a)) as [nk| |]; cbn [bind] in *;
      try discriminate; [|reflexivity].
    destruct (compare_keys k nk =? 0); [exact H|].
    destruct (compare_keys k nk <? 0).
    + destruct (get_left s (Some a)) as [l| |]; cbn [bind] in *;
        try discriminate; [|reflexivity]. apply IH; [exact H|lia].
    + destruct (get_right s (Some a)) as [l| |]; cbn [bind] in *;
        try discriminate; [|reflexivity]. apply IH; [exact H|lia].
Qed.

Lemma fix_insert_loop_fault_mono fuel fuel' s node :
  fix_insert_loop fuel s node = Fault -> (fuel <= fuel')%nat ->
  fix_insert_loop fuel' s node = Fault.
Proof.
  revert fuel' s node. induction fuel as [|fuel IH]; intros fuel' s node H Hle.
  - discriminate.
  - destruct fuel' as [|fuel']; [lia|].
    cbn [fix_insert_loop] in *.
    destruct (fix_insert_cond s node) as [[|]| |]; cbn [bind] in *;
      try discriminate; [|reflexivity].
    destruct (fix_insert_body s node) as [[s1 n1]| |]; cbn [bind] in *;
      try discriminate; [|reflexivity].
    apply IH; [exact H|lia].
Qed.

Lemma fix_insert_fault_mono fuel fuel' s node :
  fix_insert fuel s node = Fault -> (fuel <= fuel')%nat ->
  fix_insert fuel' s node = Fault.
Proof.
  unfold fix_insert. intros H Hle.
  destruct (fix_insert_loop fuel s node) as [s1| |] eqn:Hloop;
    cbn [bind] in *; try discriminate.
  - by rewrite (fix_insert_loop_mono _ _ _ _ _ Hloop Hle).
  - by rewrite (fix_insert_loop_fault_mono _ _ _ _ Hloop Hle).
Qed.

Lemma put_fault_mono fuel fuel' k v s :
  put fuel k v s = Fault -> (fuel <= fuel')%nat -> put fuel' k v s = Fault.
Proof.
  unfold put. intros H Hle.
  destruct (is_null (root s)); [exact H|].
  destruct (put_descend fuel s k v None (root s)) as [d| |] eqn:Hd;
    cbn [bind] in *; try discriminate.
  - rewrite (put_descend_mono _ _ _ _ _ _ _ _ Hd Hle). cbn [bind].
    destruct d as [s1|par]; [exact H|].
    destruct (put_attach s k v par) as [sn| |]; cbn [bind] in *;
      try discriminate; [|reflexivity].
    by apply (fix_insert_fault_mono fuel).
  - by rewrite (put_descend_fault_mono _ _ _ _ _ _ _ Hd Hle).
Qed.

Lemma get_fault_mono fuel fuel' k out s :
  get fuel k out s = Fault -> (fuel <= fuel')%nat -> get fuel' k out s = Fault.
Proof.
  unfold get. intros H Hle.
  destruct (find_node fuel s (root s) k) as [n| |] eqn:Hf;
    cbn [bind] in *; try discriminate.
  - by rewrite (find_node_mono _ _ _ _ _ _ Hf Hle).
  - by rewrite (find_node_fault_mono _ _ _ _ _ Hf Hle).
Qed.

(** On a well-formed state neither [put] nor [get] dereferences a null or
    dangling pointer, whatever the bound on their loops. *)
Theorem put_and_get_never_fault (s : State) (fuel : nat)
    (k v out_value : list byte) :
  wf s ->
  put fuel k v s <> Fault /\ get fuel k out_value s <> Fault.
Proof.
  intros (t & Hrep & Hrb). split; intros Hf.
  - apply (put_fault_mono _ (Nat.max fuel (S (length (heap s))))) in Hf;
      [|lia].
    destruct (put_wf (Nat.max fuel (S (length (heap s)))) k v s t Hrep Hrb)
      as (s' & _ & Hput & _); [lia|]. congruence.
  - apply (get_fault_mono _ (Nat.max fuel (length (heap s)))) in Hf; [|lia].
    pose proof (represents_height _ _ Hrep) as Hh.
    rewrite (get_spec _ s k out_value t Hrep) in Hf by lia. discriminate.
Qed.

Lemma put_and_get_never_fault_witness :
  wf example_state
  /\ put 1 [x04] [x0d] example_state <> Fault
  /\ get 1 [x04] [] example_state <> Fault.
Proof.
  split; [exact example_state_wf|].
  apply (put_and_get_never_fault example_state 1 [x04] [x0d] []).
  exact example_state_wf.
Defined.
